(** * spectrum: a terminal waveform visualizer for PCM audio streams

    A shallow embedding of [spectrum.go] (package [spectrum]) and the
    properties of its column reducer, smoothing recurrence, frame renderer,
    stream loop, metadata parsing and run-state handling.

    Conventions of the embedding:
    - Go's [int] is a 64-bit two's-complement integer, modelled as [Z]; the
      operations that can leave the range carry an explicit [wrap64].
    - Go's [float64] is IEEE 754 binary64, modelled by the primitive [float]
      with the same operations ([PrimFloat], specified by [SpecFloat]); every
      operation rounds on its own (no fused multiply-add).
    - Go strings are byte sequences, modelled by [string] (a list of 8-bit
      [ascii] characters).
    - A run-time panic is [None] in the [option] monad.
    - Slices are lists; a slice written in place is passed and returned.
    - The stream loop is run over a finite list of observations of its
      environment (the context and the reader), one per pass; what it
      prints is collected in a list.  The pacing sleep changes no state and
      is left out.
    - The external processes ([ffmpeg], [ffprobe]) are represented by what
      they hand to the code: the bytes read and the parsed tags. *)

From Stdlib Require Import ZArith List String Ascii Lia Bool.
From Stdlib Require Import Floats.
From Stdlib Require Import DecimalString.
From stdpp Require Import base option list gmap strings.

Local Open Scope Z_scope.

(* 0.9, the baseline smoothing factor, is rounded to binary64 as in Go. *)
Set Warnings "-inexact-float".

(** ** Machine integers *)

Module GoInt.

Definition min_int : Z := - 2 ^ 63.
Definition max_int : Z := 2 ^ 63 - 1.

(** Two's-complement wrap-around of a 64-bit signed result. *)
Definition wrap64 (z : Z) : Z := (z + 2 ^ 63) mod 2 ^ 64 - 2 ^ 63.

Definition mul (a b : Z) : Z := wrap64 (a * b).
Definition add (a b : Z) : Z := wrap64 (a + b).
Definition sub (a b : Z) : Z := wrap64 (a - b).

(** [int16(lo) | int16(hi)<<8] on two bytes: the little-endian signed
    16-bit sample. *)
Definition wrap16 (z : Z) : Z := (z + 2 ^ 15) mod 2 ^ 16 - 2 ^ 15.

End GoInt.

(** ** Floating point conversions *)

Module GoFloat.

(** [float64(n)] for an integer [n]: the nearest binary64 value. *)
Definition of_int (z : Z) : float :=
  SF2Prim (binary_normalize prec emax z 0 false).

(** The integer part of a finite binary64 value, rounded toward zero. *)
Definition trunc (f : float) : option Z :=
  match Prim2SF f with
  | S754_zero _ => Some 0
  | S754_finite s m e =>
      let a := if 0 <=? e then Z.pos m * 2 ^ e else Z.pos m / 2 ^ (- e) in
      Some (if s then - a else a)
  | S754_infinity _ | S754_nan => None
  end.

(** [int(f)]: truncation toward zero when the result fits the integer
    type.  For every other operand (too large, infinite, not a number) the
    language leaves the result to the implementation; [unrep] stands for
    that implementation-specific value. *)
Definition to_int (unrep : float -> Z) (f : float) : Z :=
  match trunc f with
  | Some z =>
      if (GoInt.min_int <=? z) && (z <=? GoInt.max_int) then z else unrep f
  | None => unrep f
  end.

End GoFloat.

(** ** Errors *)

Inductive error : Type :=
| io_EOF
| io_ErrUnexpectedEOF
| context_Canceled
| context_DeadlineExceeded
| other_error (msg : string).

Definition error_eqb (a b : error) : bool :=
  match a, b with
  | io_EOF, io_EOF => true
  | io_ErrUnexpectedEOF, io_ErrUnexpectedEOF => true
  | context_Canceled, context_Canceled => true
  | context_DeadlineExceeded, context_DeadlineExceeded => true
  | other_error m, other_error n => String.eqb m n
  | _, _ => false
  end.

(** ** Configuration and visualizer state *)

Record Config : Type := mkConfig {
  Width : Z;
  Height : Z;
  SampleRate : Z;
  ChunkSize : Z;
  FPS : Z;
  SmoothFactor : float;
  Char : string;
  BarSpacing : Z;
  Amplify : float;
  ShowStatus : bool
}.

Definition DefaultConfig : Config := {|
  Width := 60;
  Height := 12;
  SampleRate := 44100;
  ChunkSize := 1024;
  FPS := 30;
  SmoothFactor := 0.9;
  Char := "|";
  BarSpacing := 1;
  Amplify := 2.5;
  ShowStatus := true
|}.

Record TrackInfo : Type := mkTrackInfo {
  Title : string;
  Artist : string;
  Raw : string
}.

(** A cancellation handle, identified by the context it cancels. *)
Definition CancelFunc : Type := nat.

Record Visualizer : Type := mkVisualizer {
  config : Config;
  waveform : list float;
  smoothed : list float;
  track : TrackInfo;
  streamURL : string;
  cancel : option CancelFunc;
  running : bool
}.

Definition set_running (b : bool) (v : Visualizer) : Visualizer :=
  mkVisualizer (config v) (waveform v) (smoothed v) (track v) (streamURL v)
    (cancel v) b.

Definition set_cancel (c : option CancelFunc) (v : Visualizer) : Visualizer :=
  mkVisualizer (config v) (waveform v) (smoothed v) (track v) (streamURL v)
    c (running v).

Definition set_smoothed (s : list float) (v : Visualizer) : Visualizer :=
  mkVisualizer (config v) (waveform v) s (track v) (streamURL v)
    (cancel v) (running v).

Definition set_track (t : TrackInfo) (v : Visualizer) : Visualizer :=
  mkVisualizer (config v) (waveform v) (smoothed v) t (streamURL v)
    (cancel v) (running v).

(** [make([]T, n)]: a zeroed slice of length [n]; panics when [n < 0]. *)
Definition make {A : Type} (zero : A) (n : Z) : option (list A) :=
  if n <? 0 then None else Some (repeat zero (Z.to_nat n)).

(** The zero-value backfill of [New], one field after the other. *)
Definition backfill (cfg : Config) : Config := {|
  Width := if Width cfg =? 0 then 60 else Width cfg;
  Height := if Height cfg =? 0 then 12 else Height cfg;
  SampleRate := if SampleRate cfg =? 0 then 44100 else SampleRate cfg;
  ChunkSize := if ChunkSize cfg =? 0 then 1024 else ChunkSize cfg;
  FPS := if FPS cfg =? 0 then 30 else FPS cfg;
  SmoothFactor := SmoothFactor cfg;
  Char := if String.eqb (Char cfg) "" then "|"%string else Char cfg;
  BarSpacing := if BarSpacing cfg =? 0 then 1 else BarSpacing cfg;
  Amplify := if PrimFloat.eqb (Amplify cfg) 0 then 2.5%float else Amplify cfg;
  ShowStatus := ShowStatus cfg
|}.

Definition New (cfg : Config) : option Visualizer :=
  let cfg := backfill cfg in
  w ← make 0%float (Width cfg);
  s ← make 0%float (Width cfg);
  Some {|
    config := cfg;
    waveform := w;
    smoothed := s;
    track := mkTrackInfo "" "" "";
    streamURL := "";
    cancel := None;
    running := false
  |}.

(** Calling a function value: a nil one panics. *)
Definition call_cancel (f : option CancelFunc) : option (list CancelFunc) :=
  match f with
  | Some c => Some [c]
  | None => None
  end.

(** [Stop] returns the updated visualizer and the handles it invoked. *)
Definition Stop (v : Visualizer) : option (Visualizer * list CancelFunc) :=
  invoked ← (if bool_decide (cancel v ≠ None) then call_cancel (cancel v)
             else Some []);
  Some (set_running false v, invoked).

Definition IsRunning (v : Visualizer) : bool := running v.

(** ** Strings (the functions of Go's [strings] and [fmt] that the code calls) *)

Module GoStrings.

Local Open Scope string_scope.

(** [strings.Index(s, sep)]: the byte offset of the first occurrence. *)
Fixpoint Index (s sep : string) : option nat :=
  if String.prefix sep s then Some 0%nat
  else match s with
       | EmptyString => None
       | String _ s' => S <$> Index s' sep
       end.

(** [strings.SplitN(s, sep, 2)] for a non-empty separator: at most two
    parts, cut at the first occurrence of [sep]. *)
Definition SplitN2 (s sep : string) : list string :=
  match Index s sep with
  | None => [s]
  | Some i =>
      [substring 0 i s;
       substring (i + String.length sep)
                 (String.length s - (i + String.length sep)) s]
  end.

Definition bytes (l : list nat) : list ascii := map ascii_of_nat l.

(** The UTF-8 encodings of the code points with Unicode's White_Space
    property, which is what [unicode.IsSpace] accepts: the six ASCII
    ones, U+0085, U+00A0, U+1680, U+2000..U+200A, U+2028, U+2029, U+202F,
    U+205F and U+3000. *)
Definition space_encodings : list (list ascii) :=
  map bytes
    [ [9]; [10]; [11]; [12]; [13]; [32];
      [194; 133]; [194; 160];
      [225; 154; 128];
      [226; 128; 128]; [226; 128; 129]; [226; 128; 130]; [226; 128; 131];
      [226; 128; 132]; [226; 128; 133]; [226; 128; 134]; [226; 128; 135];
      [226; 128; 136]; [226; 128; 137]; [226; 128; 138];
      [226; 128; 168]; [226; 128; 169]; [226; 128; 175];
      [226; 129; 159];
      [227; 128; 128] ]%nat.

Fixpoint is_prefix (p l : list ascii) : bool :=
  match p, l with
  | [], _ => true
  | a :: p', b :: l' => Ascii.eqb a b && is_prefix p' l'
  | _ :: _, [] => false
  end.

(** Drop one leading white-space rune, if there is one. *)
Definition strip_space (encs : list (list ascii)) (l : list ascii)
  : option (list ascii) :=
  match filter (fun e => is_prefix e l) encs with
  | e :: _ => Some (drop (length e) l)
  | [] => None
  end.

Fixpoint trim_left (encs : list (list ascii)) (fuel : nat) (l : list ascii)
  : list ascii :=
  match fuel with
  | O => l
  | S fuel' =>
      match strip_space encs l with
      | Some l' => trim_left encs fuel' l'
      | None => l
      end
  end.

Definition TrimLeftSpace (l : list ascii) : list ascii :=
  trim_left space_encodings (length l) l.

(** Trailing runes are found by decoding backwards, which for the
    white-space runes is a suffix test against the same encodings. *)
Definition TrimRightSpace (l : list ascii) : list ascii :=
  rev (trim_left (map (@rev ascii) space_encodings) (length l) (rev l)).

(** [strings.TrimSpace]. *)
Definition TrimSpace (s : string) : string :=
  string_of_list_ascii
    (TrimRightSpace (TrimLeftSpace (list_ascii_of_string s))).

(** [%d] of [fmt.Sprintf]. *)
Definition itoa (z : Z) : string := NilZero.string_of_int (Z.to_int z).

End GoStrings.

(** ** Track metadata *)

(** What the metadata probe hands back: the command failed or timed out,
    its output was not the expected JSON, or the parsed [format.tags]. *)
Inductive probe : Type :=
| probe_failed
| probe_malformed
| probe_tags (tags : gmap string string).

(** The tag handling of [FetchTrack], on the cached track. *)
Definition apply_tags (tags : gmap string string) (t : TrackInfo) : TrackInfo :=
  match tags !! "StreamTitle"%string with
  | Some title =>
      match GoStrings.SplitN2 title " - " with
      | [artist; rest] =>
          {| Title := GoStrings.TrimSpace rest;
             Artist := GoStrings.TrimSpace artist;
             Raw := title |}
      | _ => {| Title := title; Artist := ""; Raw := title |}
      end
  | None =>
      match tags !! "icy-name"%string with
      | Some title => {| Title := title; Artist := Artist t; Raw := title |}
      | None => t
      end
  end.

Definition FetchTrack (v : Visualizer) (p : probe) : Visualizer * TrackInfo :=
  if String.eqb (streamURL v) "" then (v, track v)
  else match p with
       | probe_failed | probe_malformed => (v, track v)
       | probe_tags tags =>
           let v' := set_track (apply_tags tags (track v)) v in
           (v', track v')
       end.

Definition GetTrack (v : Visualizer) : TrackInfo := track v.

(** ** Sample demuxer and column reducer *)

(** [for i := range n]: the indices [0 .. n-1] (none when [n <= 0]). *)
Definition range (n : Z) : list Z := map Z.of_nat (seq 0 (Z.to_nat n)).

Definition len {A : Type} (l : list A) : Z := Z.of_nat (length l).

(** Slice indexing: [None] is the index-out-of-range panic. *)
Definition index {A : Type} (l : list A) (i : Z) : option A :=
  if i <? 0 then None else l !! Z.to_nat i.

(** Slice assignment [l[i] = x]. *)
Definition assign {A : Type} (l : list A) (i : Z) (x : A) : option (list A) :=
  _ ← index l i; Some (<[Z.to_nat i := x]> l).

(** [int16(lo) | int16(hi)<<8]. *)
Definition sample_of_bytes (lo hi : Byte.byte) : Z :=
  Z.lor (Z.of_N (Byte.to_N lo))
        (GoInt.wrap16 (Z.shiftl (Z.of_N (Byte.to_N hi)) 8)).

(** The demux loop of [processStream], writing [buffer] in place. *)
Fixpoint demux (rawBuffer : list Byte.byte) (idxs : list Z) (buffer : list Z)
  : option (list Z) :=
  match idxs with
  | [] => Some buffer
  | i :: rest =>
      lo ← index rawBuffer (i * 2);
      hi ← index rawBuffer (i * 2 + 1);
      buffer' ← assign buffer i (sample_of_bytes lo hi);
      demux rawBuffer rest buffer'
  end.

(** The bounds [start, end) that [convertToWaveform] computes for a column.
    [col] is below [len(waveform)] and [samplesPerColumn] is
    [len(buffer) / len(waveform)], so neither the product nor the sum can
    leave the integer range. *)
Definition column_span (buflen samplesPerColumn col : Z) : Z * Z :=
  let start := col * samplesPerColumn in
  (start, Z.min (start + samplesPerColumn) buflen).

(** The inner loop [for i := start; i < end; i++], with [count] iterations
    left. *)
Fixpoint sum_squares (buffer : list Z) (i : Z) (count : nat) (sum : float)
  : option float :=
  match count with
  | O => Some sum
  | S count' =>
      x ← index buffer i;
      let value := (GoFloat.of_int x / 32768)%float in
      sum_squares buffer (i + 1) count' (sum + value * value)%float
  end.

Fixpoint reduce_columns (buffer : list Z) (samplesPerColumn : Z)
    (cols : list Z) (waveform : list float) : option (list float) :=
  match cols with
  | [] => Some waveform
  | col :: rest =>
      let '(start, end_) := column_span (len buffer) samplesPerColumn col in
      sum ← sum_squares buffer start (Z.to_nat (end_ - start)) 0%float;
      waveform' ←
        (if 0 <? samplesPerColumn
         then assign waveform col
                (sqrt (sum / GoFloat.of_int samplesPerColumn))%float
         else Some waveform);
      reduce_columns buffer samplesPerColumn rest waveform'
  end.

(** [convertToWaveform(buffer, waveform)]: the updated [waveform]; the
    division panics on an empty [waveform]. *)
Definition convertToWaveform (buffer : list Z) (waveform : list float)
  : option (list float) :=
  if len waveform =? 0 then None
  else reduce_columns buffer (Z.quot (len buffer) (len waveform))
         (range (len waveform)) waveform.

(** ** Smoothing state *)

(** One element of the recurrence. *)
Definition smooth_value (alpha s w : float) : float :=
  (s * (1 - alpha) + w * alpha)%float.

(** [for i := range waveform { v.smoothed[i] = ... }], from index [i]. *)
Fixpoint smooth_from (alpha : float) (i : Z) (waveform smoothed : list float)
  : option (list float) :=
  match waveform with
  | [] => Some smoothed
  | w :: rest =>
      s ← index smoothed i;
      smoothed' ← assign smoothed i (smooth_value alpha s w);
      smooth_from alpha (i + 1) rest smoothed'
  end.

Definition smooth (alpha : float) (waveform smoothed : list float)
  : option (list float) :=
  smooth_from alpha 0 waveform smoothed.

(** ** Frame renderer *)

Definition ESC : ascii := ascii_of_nat 27.
Definition newline : string := String (ascii_of_nat 10) EmptyString.

(** The two control sequences written before the rows: cursor to row 2,
    column 0, and hide the cursor. *)
Definition frame_prefix : string :=
  (String ESC "[2;0H" ++ String ESC "[?25l")%string.

Definition status_line (cfg : Config) : string :=
  ("Audio Visualizer | " ++ GoStrings.itoa (SampleRate cfg) ++ "Hz | "
   ++ GoStrings.itoa (ChunkSize cfg) ++ " samples | "
   ++ GoStrings.itoa (FPS cfg) ++ " FPS" ++ newline)%string.

Section Render.

(** The implementation-specific result of converting an unrepresentable
    [float64] to [int]. *)
Variable unrep : float -> Z.

Variable cfg : Config.

(** The bar height of a column value: [height] after the clamp. *)
Definition bar_height (midline : Z) (x : float) : Z :=
  let height :=
    GoFloat.to_int unrep (x * Amplify cfg * GoFloat.of_int (midline - 1))%float in
  Z.min height (midline - 1).

(** The test that draws the glyph at [row]. *)
Definition glyph_at (midline height row : Z) : bool :=
  (GoInt.sub midline height <=? row)
  && (row <=? GoInt.add midline height)
  && (0 <? height).

(** What the body of the column loop writes for one cell. *)
Definition cell (waveform : list float) (midline row col : Z)
  : option string :=
  if (1 <? BarSpacing cfg) && negb (Z.rem col (BarSpacing cfg) =? 0)
  then Some " "%string
  else
    let waveIdx :=
      if 1 <? BarSpacing cfg then Z.quot col (BarSpacing cfg) else col in
    if len waveform <=? waveIdx then Some " "%string
    else
      x ← index waveform waveIdx;
      let height := bar_height midline x in
      if glyph_at midline height row then Some (Char cfg)
      else Some " "%string.

Definition render_row (waveform : list float) (midline row : Z)
  : option string :=
  cells ← mapM (cell waveform midline row) (range (Width cfg));
  Some (String.concat "" cells ++ newline)%string.

(** [renderFrame]; [strings.Builder.Grow] panics on a negative count. *)
Definition renderFrame (waveform : list float) : option string :=
  if GoInt.mul (GoInt.mul (Width cfg) (Height cfg)) 4 <? 0 then None
  else
    let midline := Z.quot (Height cfg) 2 in
    rows ← mapM (render_row waveform midline) (range (Height cfg));
    Some (frame_prefix ++ String.concat "" rows
          ++ (if ShowStatus cfg then status_line cfg else ""))%string.

End Render.

Definition Render (unrep : float -> Z) (v : Visualizer) : option string :=
  renderFrame unrep (config v) (smoothed v).

Definition GetWaveform (v : Visualizer) : list float := smoothed v.

(** ** Stream loop *)

(** What one pass of the loop observes of its environment: whether the
    context is done at the [select] (and with which error), and what
    [io.ReadFull] delivers: the bytes it copied into the raw buffer and its
    error result. *)
Record observation : Type := mkObservation {
  obs_done : option error;
  obs_data : list Byte.byte;
  obs_err : option error
}.

(** The loop's local slices. *)
Record locals : Type := mkLocals {
  rawBuffer : list Byte.byte;
  buffer : list Z;
  loc_waveform : list float
}.

Inductive step : Type :=
| Continue (v : Visualizer) (l : locals) (printed : list string)
| Return (err : error) (v : Visualizer).

(** The bytes [io.ReadFull] leaves in the buffer, and its count [n]. *)
Definition read_into (data buf : list Byte.byte) : Z * list Byte.byte :=
  let n := Z.min (len data) (len buf) in
  (n, take (Z.to_nat n) data ++ drop (Z.to_nat n) buf).

Section Loop.

Variable unrep : float -> Z.

(** One pass of the [for] loop of [processStream]. *)
Definition iterate (v : Visualizer) (l : locals) (o : observation)
  : option step :=
  match obs_done o with
  | Some e => Some (Return e (set_running false v))
  | None =>
      let '(n, raw) := read_into (obs_data o) (rawBuffer l) in
      let l := mkLocals raw (buffer l) (loc_waveform l) in
      match obs_err o with
      | Some err =>
          if error_eqb err io_EOF || error_eqb err io_ErrUnexpectedEOF
          then Some (Continue v l [])
          else Some (Return err v)
      | None =>
          if n <? len raw then Some (Continue v l [])
          else
            buf ← demux raw (range (ChunkSize (config v))) (buffer l);
            wf ← convertToWaveform buf (loc_waveform l);
            sm ← smooth (SmoothFactor (config v)) wf (smoothed v);
            let v := set_smoothed sm v in
            frame ← Render unrep v;
            Some (Continue v (mkLocals raw buf wf) [frame])
      end
  end.

(** The result of running the loop over finitely many observations: it
    returned, or it is still looping. *)
Inductive outcome : Type :=
| Returned (err : error) (v : Visualizer) (printed : list string)
| Looping (v : Visualizer) (l : locals) (printed : list string).

Fixpoint loop (v : Visualizer) (l : locals) (printed : list string)
    (obs : list observation) : option outcome :=
  match obs with
  | [] => Some (Looping v l printed)
  | o :: rest =>
      s ← iterate v l o;
      match s with
      | Continue v' l' frames => loop v' l' (printed ++ frames) rest
      | Return err v' => Some (Returned err v' printed)
      end
  end.

(** [processStream]: the allocations, the frame interval (an integer
    division by [FPS]), then the loop. *)
Definition processStream (v : Visualizer) (obs : list observation)
  : option outcome :=
  raw ← make Byte.x00 (GoInt.mul (ChunkSize (config v)) 2);
  buf ← make 0 (ChunkSize (config v));
  wf ← make 0%float (Width (config v));
  if FPS (config v) =? 0 then None
  else loop v (mkLocals raw buf wf) [] obs.

(** [StartFromReader]: [c] is the handle [context.WithCancel] returns. *)
Definition StartFromReader (v : Visualizer) (c : CancelFunc)
    (obs : list observation) : option outcome :=
  let v := set_running true (set_cancel (Some c) v) in
  processStream v obs.

End Loop.

(** ** Read outcomes of one pass *)

(** A read is transient when it ends in one of the two end-of-stream
    errors, or reports no error but delivers less than the raw buffer
    holds. *)
Definition transient_read (l : locals) (o : observation) : Prop :=
  obs_err o = Some io_EOF
  \/ obs_err o = Some io_ErrUnexpectedEOF
  \/ (obs_err o = None /\ len (obs_data o) < len (rawBuffer l)).

(** A read is hard-failed when it ends in any other error. *)
Definition hard_read (o : observation) (e : error) : Prop :=
  obs_err o = Some e /\ e <> io_EOF /\ e <> io_ErrUnexpectedEOF.

Definition full_read (l : locals) (o : observation) : Prop :=
  obs_err o = None /\ len (rawBuffer l) <= len (obs_data o).

(** The raw buffer after the read of [o]. *)
Definition after_read (l : locals) (o : observation) : locals :=
  mkLocals (read_into (obs_data o) (rawBuffer l)).2 (buffer l)
    (loc_waveform l).

(** ** Occurrences of a separator *)

(** [before] ends where the first occurrence of [sep] in
    [before ++ sep ++ after] starts. *)
Definition first_occurrence (sep before after : string) : Prop :=
  forall b' a', (before ++ sep ++ after = b' ++ sep ++ a')%string ->
                (String.length before <= String.length b')%nat.

(** ** Shape of a rendered frame *)

(** A cell of a row: one space or the configured glyph. *)
Definition is_cell (cfg : Config) (c : string) : Prop :=
  c = " "%string \/ c = Char cfg.

(** The character [a] occurs in [s]. *)
Definition occurs (a : ascii) (s : string) : Prop :=
  In a (list_ascii_of_string s).

Definition row_text (cells : list string) : string := String.concat "" cells.

(** The text of the rows, each closed by a newline. *)
Definition rows_text (rows : list (list string)) : string :=
  String.concat "" (map (fun cells => (row_text cells ++ newline)%string) rows).

(** ** Smoothing over several frames; classes of values *)

(** The recurrence applied over several frames, one raw profile per
    frame. *)
Fixpoint smooth_frames (alpha : float) (frames : list (list float))
    (smoothed : list float) : option (list float) :=
  match frames with
  | [] => Some smoothed
  | raw :: rest =>
      smoothed' ← smooth alpha raw smoothed;
      smooth_frames alpha rest smoothed'
  end.

(** A finite number: a zero or a finite non-zero value, of either sign. *)
Definition finite_value (f : float) : bool :=
  match Prim2SF f with
  | S754_zero _ | S754_finite _ _ _ => true
  | _ => false
  end.

(** A finite number other than negative zero.  Every value the column
    reducer writes is one: the square root of a sum of squares. *)
Definition profile_value (f : float) : bool :=
  match Prim2SF f with
  | S754_zero s => negb s
  | S754_finite _ _ _ => true
  | _ => false
  end.

(** The value that the renderer converts to the bar height. *)
Definition scaled (cfg : Config) (midline : Z) (x : float) : float :=
  (x * Amplify cfg * GoFloat.of_int (midline - 1))%float.

(** [int(f)] is defined by the language: [f] is finite and its integer
    part fits the integer type. *)
Definition representable (f : float) : Prop :=
  exists z, GoFloat.trunc f = Some z /\ GoInt.min_int <= z <= GoInt.max_int.

(** ** Rounding to nearest, ties to even *)

(** The state of the shifter of [SpecFloat] after [n >= 1] steps on
    [m >= 0], started without round or sticky bit. *)
Definition shifted (m : Z) (n : Z) (mrs : shr_record) : Prop :=
  shr_m mrs = m / 2 ^ n
  /\ shr_r mrs = (2 ^ (n - 1) <=? m mod 2 ^ n)
  /\ shr_s mrs = negb (m mod 2 ^ (n - 1) =? 0).

(** Round to nearest, ties to even, of [q + rem / g]. *)
Definition rne (q rem g : Z) : Z :=
  if 2 * rem <? g then q
  else if g <? 2 * rem then q + 1
  else if Z.even q then q else q + 1.

Section RoundingNotions.

Variables prec emax : Z.

(** The second half of [binary_round_aux]: renormalise the rounded
    mantissa and test for overflow. *)
Definition finish (s : bool) (q E : Z) : spec_float :=
  let '(mrs, e) := shr_fexp prec emax q E loc_Exact in
  match shr_m mrs with
  | Z0 => S754_zero s
  | Zpos m => if e <=? emax - prec then S754_finite s m e else S754_infinity s
  | Zneg _ => S754_nan
  end.

(** What [finish] returns on a rounded mantissa of at most [prec + 1]
    digits. *)
Definition finished (s : bool) (q E : Z) : spec_float :=
  if q =? 0 then S754_zero s
  else if q =? 2 ^ prec then
    if E + 1 <=? emax - prec
    then S754_finite s (Z.to_pos (2 ^ (prec - 1))) (E + 1)
    else S754_infinity s
  else
    if E <=? emax - prec then S754_finite s (Z.to_pos q) E
    else S754_infinity s.

(** The shift that [shr_fexp] applies to a mantissa [m] at exponent [e]. *)
Definition shift_of (m : positive) (e : Z) : Z :=
  SpecFloat.fexp prec emax (Z.pos (digits2_pos m) + e) - e.

(** The value of a finite number in units of [2 ^ emin], the least
    exponent of the format; [0] for every other number. *)
Definition uval (x : spec_float) : Z :=
  match x with
  | S754_finite _ m e => Z.pos m * 2 ^ (e - SpecFloat.emin prec emax)
  | _ => 0
  end.

(** The first value, in units of [2 ^ emin], that is out of range. *)
Definition overflow_bound : Z := 2 ^ (emax - SpecFloat.emin prec emax).

(** The correctly rounded value, in units of [2 ^ emin], of the exact
    value [V] given in units of [2 ^ (2 * emin)]. *)
Definition RU (V : Z) : Z :=
  let E :=
    SpecFloat.fexp prec emax (Z.log2 V + 1 + 2 * SpecFloat.emin prec emax) in
  let G := 2 ^ (E - 2 * SpecFloat.emin prec emax) in
  rne (V / G) (V mod G) G * 2 ^ (E - SpecFloat.emin prec emax).

(** The three outcomes of rounding the exact value [V], given in units of
    [2 ^ (2 * emin)], to a number [r] of sign [s]. *)
Definition rounds_to (s : bool) (V : Z) (r : spec_float) : Prop :=
  (RU V = 0 /\ r = S754_zero s)
  \/ (exists m e,
        r = S754_finite s m e
        /\ SpecFloat.valid_binary prec emax (S754_finite s m e) = true
        /\ uval (S754_finite s m e) = RU V
        /\ 0 < RU V < overflow_bound)
  \/ (r = S754_infinity s /\ overflow_bound <= RU V).

End RoundingNotions.

(** Zero of either sign, or a positive finite number. *)
Definition nonneg (x : spec_float) : bool :=
  match x with
  | S754_zero _ => true
  | S754_finite s _ _ => negb s
  | _ => false
  end.

(** The same, or plus infinity. *)
Definition nonneg_ext (x : spec_float) : bool :=
  match x with
  | S754_zero _ => true
  | S754_finite s _ _ => negb s
  | S754_infinity s => negb s
  | S754_nan => false
  end.

(** A finite number with a clear sign bit: plus zero or a positive finite
    number. *)
Definition plus_finite (x : spec_float) : bool :=
  match x with
  | S754_zero s => negb s
  | S754_finite s _ _ => negb s
  | _ => false
  end.

(** ** Values of the column reducer *)

(** A sample of the demuxer: a signed 16-bit integer. *)
Definition is_int16 (x : Z) : Prop := -32768 <= x <= 32767.

(** The term that one sample adds to the sum of its column. *)
Definition sample_square (x : Z) : float :=
  let value := (GoFloat.of_int x / 32768)%float in (value * value)%float.

Definition square_in_unit (x : Z) : bool :=
  ((0 <=? sample_square x) && (sample_square x <=? 1))%float.

(** [square_in_unit] on the [n] integers from [x] on. *)
Fixpoint squares_in_unit (n : nat) (x : Z) : bool :=
  match n with
  | O => true
  | S n' => if square_in_unit x then squares_in_unit n' (x + 1) else false
  end.

(** The bound kept by the running sum of a column, [2 ^ 54], in units of
    [2 ^ emin]. *)
Definition sum_bound : Z := 2 ^ 54 * 2 ^ 1074.

Definition one_u : Z := 2 ^ 1074.

Definition sum_ok (f : float) : Prop :=
  plus_finite (Prim2SF f) = true /\ uval prec emax (Prim2SF f) <= sum_bound.

(** ** The end-to-end scenario *)

(** The sixteen bytes of the chunk [0,0,0,0,32767,32767,32767,32767]. *)
Definition scenario_bytes : list Byte.byte :=
  repeat Byte.x00 8 ++ concat (repeat [Byte.xff; Byte.x7f] 4).

Definition scenario_config : Config :=
  mkConfig 4 4 44100 8 30 1%float "|" 1 1%float false.

(** ** Start from a stream URL *)

Definition set_streamURL (u : string) (v : Visualizer) : Visualizer :=
  mkVisualizer (config v) (waveform v) (smoothed v) (track v) u
    (cancel v) (running v).

(** The arguments that [StartFromURL] hands to the decoder: mono, the
    configured sample rate, signed 16-bit little-endian samples on the
    standard output. *)
Definition ffmpeg_args (cfg : Config) (url : string) : list string :=
  [ "-probesize"; "32k"; "-analyzeduration"; "0"; "-fflags"; "nobuffer";
    "-flags"; "low_delay"; "-i"; url; "-ac"; "1";
    "-ar"; GoStrings.itoa (SampleRate cfg);
    "-f"; "s16le"; "-acodec"; "pcm_s16le"; "-vn"; "-" ]%string.

(** What launching the decoder observes: the error of [StdoutPipe] and the
    error of [Start], if any. *)
Record launch : Type := mkLaunch {
  pipe_err : option error;
  start_err : option error
}.

(** The result of [StartFromURL]: an error of the launch wrapped by
    [fmt.Errorf] under a message, or the outcome of the stream loop. *)
Inductive url_outcome : Type :=
| LaunchFailed (msg : string) (cause : error) (v : Visualizer)
| Streamed (o : outcome).

Definition StartFromURL (unrep : float -> Z) (v : Visualizer)
    (c : CancelFunc) (url : string) (la : launch) (obs : list observation)
  : option url_outcome :=
  let v := set_streamURL url (set_running true (set_cancel (Some c) v)) in
  match pipe_err la with
  | Some e => Some (LaunchFailed "failed to create pipe" e v)
  | None =>
      match start_err la with
      | Some e => Some (LaunchFailed "failed to start ffmpeg" e v)
      | None => Streamed <$> processStream unrep v obs
      end
  end.

(** The visualizer that an outcome of the stream loop leaves. *)
Definition outcome_visualizer (o : outcome) : Visualizer :=
  match o with
  | Returned _ v _ => v
  | Looping v _ _ => v
  end.

Definition outcome_printed (o : outcome) : list string :=
  match o with
  | Returned _ _ printed => printed
  | Looping _ _ printed => printed
  end.

(** ** The example program's track line *)

(** What one tick of [trackUpdater] prints for the fetched track: the
    cursor to row 1, erase the line, and the raw title if there is one. *)
Definition track_line (t : TrackInfo) : string :=
  if negb (String.eqb (Raw t) "")
  then (String ESC "[1;0H" ++ String ESC "[KNow playing: " ++ Raw t
        ++ newline)%string
  else (String ESC "[1;0H" ++ String ESC "[K")%string.

Definition trackUpdater_tick (v : Visualizer) (p : probe)
  : Visualizer * string :=
  let '(v', t) := FetchTrack v p in (v', track_line t).

(** ** White space at the ends of a string *)

(** [s] starts, or ends, with the encoding of a white-space rune. *)
Definition leading_space (s : string) : Prop :=
  exists e rest, In e GoStrings.space_encodings
                 /\ list_ascii_of_string s = e ++ rest.

Definition trailing_space (s : string) : Prop :=
  exists e front, In e GoStrings.space_encodings
                  /\ list_ascii_of_string s = front ++ e.

(** ** What the stream loop keeps *)

(** Two states of a visualizer that differ at most in the values of the
    smoothed vector and in the running flag. *)
Definition same_setup (v v' : Visualizer) : Prop :=
  config v' = config v /\ waveform v' = waveform v /\ track v' = track v
  /\ streamURL v' = streamURL v /\ cancel v' = cancel v
  /\ length (smoothed v') = length (smoothed v).

(** A read that delivers a whole chunk of [size] bytes without error. *)
Definition full_chunk (size : Z) (o : observation) : bool :=
  match obs_err o with
  | None => size <=? len (obs_data o)
  | Some _ => false
  end.

(** A read that ends in one of the two end-of-stream errors or comes up
    short, on a context that is not done. *)
Definition end_of_stream (size : Z) (o : observation) : Prop :=
  obs_done o = None
  /\ (obs_err o = Some io_EOF
      \/ obs_err o = Some io_ErrUnexpectedEOF
      \/ (obs_err o = None /\ len (obs_data o) < size)).

(** ** Reads of the end-to-end scenario *)

(** Two full chunks of the scenario with an end-of-stream read between
    them. *)
Definition scenario_run : list observation :=
  [ mkObservation None scenario_bytes None;
    mkObservation None [] (Some io_EOF);
    mkObservation None scenario_bytes None ].

(** The same reads, and then the context is done. *)
Definition scenario_cancelled : list observation :=
  scenario_run ++ [mkObservation (Some context_Canceled) [] None].

(** The visualizer that [New] makes for the scenario. *)
Definition scenario_visualizer : Visualizer :=
  mkVisualizer scenario_config (repeat 0%float 4) (repeat 0%float 4)
    (mkTrackInfo "" "" "") "" None false.

(** ** The reducer as a function of slices *)

(** [l[start : start+count]]. *)
Definition slice {A : Type} (l : list A) (start count : Z) : list A :=
  take (Z.to_nat count) (drop (Z.to_nat start) l).

(** The root mean square of a run of samples as the reducer computes it:
    the squares summed from left to right, divided by [n], and the square
    root of that. *)
Definition rms (samples : list Z) (n : Z) : float :=
  sqrt (fold_left (fun sum x => sum + sample_square x) samples 0
        / GoFloat.of_int n)%float.

(** ** The sample format of the decoder *)

Definition byte_of (z : Z) : Byte.byte :=
  default Byte.x00 (Byte.of_N (Z.to_N z)).

(** A signed 16-bit sample in the little-endian format that the decoder
    is asked for ([s16le]): the low byte, then the high byte of its
    two's-complement form. *)
Definition s16le (x : Z) : list Byte.byte :=
  [byte_of (x mod 256); byte_of ((x / 256) mod 256)].

(** ** Frames without bars *)

(** A row of [Width] spaces, closed by its newline. *)
Definition blank_row (cfg : Config) : string :=
  (row_text (repeat " "%string (Z.to_nat (Width cfg))) ++ newline)%string.

(** The frame of [Height] such rows. *)
Definition blank_frame (cfg : Config) : string :=
  (frame_prefix
   ++ String.concat "" (repeat (blank_row cfg) (Z.to_nat (Height cfg)))
   ++ (if ShowStatus cfg then status_line cfg else ""))%string.

(* ===================================================================== *)
(** * Properties *)
(* ===================================================================== *)

(** ** Construction and run state *)

Lemma make_Some {A : Type} (zero : A) (n : Z) (l : list A) :
  make zero n = Some l -> 0 <= n /\ l = repeat zero (Z.to_nat n).
Proof.
  unfold make. destruct (Z.ltb_spec n 0); [discriminate|].
  intros [= <-]. split; [lia | reflexivity].
Qed.

Lemma New_Some (cfg : Config) (v : Visualizer) :
  New cfg = Some v ->
  config v = backfill cfg
  /\ smoothed v = repeat 0%float (Z.to_nat (Width (backfill cfg)))
  /\ cancel v = None
  /\ running v = false.
Proof.
  unfold New. intros H.
  destruct (make 0%float (Width (backfill cfg))) as [w|] eqn:Hw;
    [|discriminate].
  simpl in H. injection H as <-. simpl.
  apply make_Some in Hw as [_ ->]. auto.
Qed.

(** Every field that [New] tests is non-zero afterwards; the smoothing
    factor is passed through as given. *)
Lemma New_backfill (cfg : Config) (v : Visualizer) :
  New cfg = Some v ->
  Width (config v) <> 0 /\ Height (config v) <> 0
  /\ SampleRate (config v) <> 0 /\ ChunkSize (config v) <> 0
  /\ FPS (config v) <> 0 /\ BarSpacing (config v) <> 0
  /\ Char (config v) <> ""%string
  /\ PrimFloat.eqb (Amplify (config v)) 0 = false
  /\ SmoothFactor (config v) = SmoothFactor cfg.
Proof.
  intros H. apply New_Some in H as (-> & _). unfold backfill. simpl.
  repeat split;
    try (match goal with
         | |- context [?a =? 0] => destruct (Z.eqb_spec a 0); lia
         end).
  - destruct (String.eqb_spec (Char cfg) ""); congruence.
  - destruct (PrimFloat.eqb (Amplify cfg) 0) eqn:E; [reflexivity | exact E].
Qed.

(** C3 (the code at the failing input): a configuration left entirely at
    its zero value is completed with the baseline value of every field
    except the smoothing factor, which stays 0 although its baseline value
    in [DefaultConfig] is 0.9. *)
Theorem New_zero_SmoothFactor_not_backfilled :
  exists v : Visualizer,
    New (mkConfig 0 0 0 0 0 0%float "" 0 0%float false) = Some v
    /\ Width (config v) = Width DefaultConfig
    /\ Height (config v) = Height DefaultConfig
    /\ SampleRate (config v) = SampleRate DefaultConfig
    /\ ChunkSize (config v) = ChunkSize DefaultConfig
    /\ FPS (config v) = FPS DefaultConfig
    /\ Char (config v) = Char DefaultConfig
    /\ BarSpacing (config v) = BarSpacing DefaultConfig
    /\ Amplify (config v) = Amplify DefaultConfig
    /\ SmoothFactor (config v) = 0%float
    /\ PrimFloat.eqb (SmoothFactor (config v)) (SmoothFactor DefaultConfig)
       = false.
Proof.
  eexists. split; [vm_compute; reflexivity|].
  repeat split.
Qed.

(** C10: [Stop] on a visualizer that was never started finds no
    cancellation handle, calls nothing, does not panic, and leaves the
    visualizer reporting not-running. *)
Theorem Stop_never_started (cfg : Config) (v : Visualizer) :
  New cfg = Some v ->
  cancel v = None
  /\ exists v', Stop v = Some (v', []) /\ IsRunning v' = false.
Proof.
  intros H. apply New_Some in H as (_ & _ & Hc & _).
  split; [exact Hc|].
  exists (set_running false v). unfold Stop. rewrite Hc. simpl.
  split; reflexivity.
Qed.

Lemma Stop_never_started_witness :
  exists v, New DefaultConfig = Some v
    /\ cancel v = None
    /\ exists v', Stop v = Some (v', []) /\ IsRunning v' = false.
Proof.
  eexists. split; [reflexivity|].
  apply (Stop_never_started DefaultConfig). reflexivity.
Defined.

(** [Stop] never panics, whatever the handle. *)
Lemma Stop_total (v : Visualizer) :
  exists invoked, Stop v = Some (set_running false v, invoked).
Proof.
  unfold Stop. destruct (cancel v) as [c|]; simpl; eauto.
Qed.

(** ** Stream loop: terminal outcomes and read errors *)

Section LoopProperties.

Variable unrep : float -> Z.

Lemma error_eqb_eq (a b : error) : error_eqb a b = true <-> a = b.
Proof.
  destruct a, b; simpl; split; intros H;
    try reflexivity; try discriminate.
  - apply String.eqb_eq in H. congruence.
  - injection H as ->. apply String.eqb_refl.
Qed.

Lemma read_into_length (data buf : list Byte.byte) :
  len (read_into data buf).2 = len buf.
Proof.
  unfold read_into, len. simpl.
  rewrite length_app, length_take, length_drop. lia.
Qed.

Lemma iterate_cancelled (v : Visualizer) (l : locals) (o : observation)
    (e : error) :
  obs_done o = Some e ->
  iterate unrep v l o = Some (Return e (set_running false v)).
Proof. unfold iterate. intros ->. reflexivity. Qed.

Lemma iterate_transient (v : Visualizer) (l : locals) (o : observation) :
  obs_done o = None -> transient_read l o ->
  iterate unrep v l o = Some (Continue v (after_read l o) []).
Proof.
  unfold iterate, transient_read, after_read. intros -> H.
  destruct (read_into (obs_data o) (rawBuffer l)) as [n raw] eqn:Hr.
  simpl. destruct H as [-> | [-> | [-> Hlt]]]; try reflexivity.
  assert (Hlen : len raw = len (rawBuffer l)).
  { pose proof (read_into_length (obs_data o) (rawBuffer l)) as Hl.
    rewrite Hr in Hl. exact Hl. }
  assert (Hn : n = len (obs_data o)).
  { unfold read_into in Hr. injection Hr as <- _. lia. }
  rewrite Hlen.
  destruct (Z.ltb_spec n (len (rawBuffer l))); [reflexivity | lia].
Qed.

Lemma iterate_hard (v : Visualizer) (l : locals) (o : observation)
    (e : error) :
  obs_done o = None -> hard_read o e ->
  iterate unrep v l o = Some (Return e v).
Proof.
  unfold iterate, hard_read. intros -> (-> & H1 & H2).
  destruct (read_into (obs_data o) (rawBuffer l)) as [n raw].
  destruct (error_eqb e io_EOF) eqn:E1.
  { apply error_eqb_eq in E1. contradiction. }
  destruct (error_eqb e io_ErrUnexpectedEOF) eqn:E2.
  { apply error_eqb_eq in E2. contradiction. }
  reflexivity.
Qed.

Lemma read_cases (l : locals) (o : observation) :
  full_read l o \/ transient_read l o \/ exists e, hard_read o e.
Proof.
  unfold full_read, transient_read, hard_read.
  destruct (obs_err o) as [e|].
  - destruct e; eauto 10; right; right; eexists; repeat split; congruence.
  - destruct (Z.lt_ge_cases (len (obs_data o)) (len (rawBuffer l)));
      [right; left; auto | left; split; [reflexivity | lia]].
Qed.

(** C8: on a pass that is not cancelled, a read that ends in end-of-stream
    or delivers a partial chunk (less than [2 * ChunkSize] bytes) makes the
    loop go on with the next pass: no result, the visualizer unchanged and
    nothing printed.  A read that ends in any other error makes the loop
    return that error.  Besides a full chunk these are the only
    outcomes of a read. *)
Theorem read_error_classification (v : Visualizer) (l : locals)
    (printed : list string) (o : observation) (rest : list observation) :
  obs_done o = None ->
  len (rawBuffer l) = 2 * ChunkSize (config v) ->
  (obs_err o = Some io_EOF
   \/ obs_err o = Some io_ErrUnexpectedEOF
   \/ (obs_err o = None /\ len (obs_data o) < 2 * ChunkSize (config v)) ->
   iterate unrep v l o = Some (Continue v (after_read l o) [])
   /\ loop unrep v l printed (o :: rest)
      = loop unrep v (after_read l o) printed rest
   /\ len (rawBuffer (after_read l o)) = 2 * ChunkSize (config v))
  /\ (forall e, obs_err o = Some e -> e <> io_EOF ->
      e <> io_ErrUnexpectedEOF ->
      loop unrep v l printed (o :: rest) = Some (Returned e v printed))
  /\ (full_read l o \/ transient_read l o \/ exists e, hard_read o e).
Proof.
  intros Hd Hlen. split; [|split].
  - intros H.
    assert (Ht : transient_read l o).
    { unfold transient_read. rewrite Hlen. exact H. }
    pose proof (iterate_transient v l o Hd Ht) as Hi.
    split; [exact Hi|]. split.
    + simpl. rewrite Hi. simpl. rewrite app_nil_r. reflexivity.
    + unfold after_read. cbn [rawBuffer]. rewrite read_into_length.
      exact Hlen.
  - intros e He H1 H2. simpl.
    rewrite (iterate_hard v l o e Hd); [reflexivity|].
    unfold hard_read. auto.
  - apply read_cases.
Qed.

End LoopProperties.

Lemma read_error_classification_witness :
  let v := mkVisualizer DefaultConfig [] [] (mkTrackInfo "" "" "") "" None true in
  let l := mkLocals (repeat Byte.x00 2048) [] [] in
  let o := mkObservation None [Byte.x01] (Some io_ErrUnexpectedEOF) in
  iterate (fun _ => 0) v l o = Some (Continue v (after_read l o) []).
Proof.
  intros v l o.
  apply (read_error_classification (fun _ => 0) v l [] o []);
    [reflexivity | reflexivity | right; left; reflexivity].
Defined.

(** The raw buffer that [processStream] allocates holds [2 * ChunkSize]
    bytes whenever the allocation succeeds. *)
Lemma rawBuffer_length (chunkSize : Z) (raw : list Byte.byte) :
  0 <= chunkSize <= GoInt.max_int ->
  make Byte.x00 (GoInt.mul chunkSize 2) = Some raw ->
  len raw = 2 * chunkSize.
Proof.
  intros Hc Hraw. apply make_Some in Hraw as [Hpos ->].
  unfold len. rewrite repeat_length, Z2Nat.id by exact Hpos.
  unfold GoInt.mul, GoInt.wrap64, GoInt.max_int in *.
  destruct (Z_lt_le_dec (chunkSize * 2) (2 ^ 63)) as [Hlt|Hge].
  - rewrite Z.mod_small by lia. lia.
  - exfalso.
    replace (chunkSize * 2 + 2 ^ 63)
      with (chunkSize * 2 - 2 ^ 63 + 1 * 2 ^ 64) in Hpos by lia.
    rewrite Z.mod_add in Hpos by lia.
    rewrite Z.mod_small in Hpos by lia. lia.
Qed.

(** On cancellation the loop returns the context's error and has cleared
    the running flag. *)
Lemma loop_cancelled (unrep : float -> Z) (v : Visualizer) (l : locals)
    (printed : list string) (o : observation) (rest : list observation)
    (e : error) :
  obs_done o = Some e ->
  loop unrep v l printed (o :: rest)
  = Some (Returned e (set_running false v) printed).
Proof.
  intros H. simpl. rewrite (iterate_cancelled unrep v l o e H). reflexivity.
Qed.

(** On a hard read error the loop returns the error with the visualizer,
    and so its running flag, untouched. *)
Lemma loop_hard_error (unrep : float -> Z) (v : Visualizer) (l : locals)
    (printed : list string) (o : observation) (rest : list observation)
    (e : error) :
  obs_done o = None -> hard_read o e ->
  loop unrep v l printed (o :: rest) = Some (Returned e v printed).
Proof.
  intros Hd Hh. simpl. rewrite (iterate_hard unrep v l o e Hd Hh).
  reflexivity.
Qed.

(** C2 (the code at the failing input): a visualizer started on a reader
    whose first read fails with a hard error returns that error from the
    stream loop, and [IsRunning] still answers true afterwards; the same
    start cancelled before the first read returns the cancellation error
    with [IsRunning] false. *)
Theorem processStream_hard_error_leaves_running (unrep : float -> Z) :
  exists v v1 v2,
    New DefaultConfig = Some v
    /\ StartFromReader unrep v 1%nat
         [mkObservation None [] (Some (other_error "read failed"))]
       = Some (Returned (other_error "read failed") v1 [])
    /\ IsRunning v1 = true
    /\ StartFromReader unrep v 1%nat
         [mkObservation (Some context_Canceled) [] None]
       = Some (Returned context_Canceled v2 [])
    /\ IsRunning v2 = false.
Proof.
  do 3 eexists. split; [reflexivity|].
  split; [vm_compute; reflexivity|].
  split; [reflexivity|].
  split; [vm_compute; reflexivity | reflexivity].
Qed.

(** ** Metadata title parsing *)

Module GoStringsFacts.

Import GoStrings.
Local Open Scope string_scope.

Lemma append_cons (c : ascii) (p a : string) :
  String c p ++ a = String c (p ++ a).
Proof. reflexivity. Qed.

Lemma append_nil (a : string) : "" ++ a = a.
Proof. reflexivity. Qed.

Ltac norm := rewrite ?append_cons, ?append_nil in *.

Lemma prefix_app (p s : string) :
  String.prefix p s = true <-> exists a, s = p ++ a.
Proof.
  revert s. induction p as [|c p IH]; intros s.
  - split; [intros _; exists s; reflexivity | destruct s; reflexivity].
  - destruct s as [|d s]; simpl;
      [split; [discriminate | intros [a [=]]]|].
    destruct (Ascii.ascii_dec c d) as [->|Hne].
    + rewrite IH. split; intros [a Ha]; exists a; norm; congruence.
    + split; [discriminate | intros [a Ha]; norm; congruence].
Qed.

Lemma length_append (a b : string) :
  String.length (a ++ b) = (String.length a + String.length b)%nat.
Proof.
  induction a as [|c a IH]; norm; simpl; [reflexivity | rewrite IH; lia].
Qed.

Lemma substring_all (a : string) : substring 0 (String.length a) a = a.
Proof. induction a as [|c a IH]; simpl; [reflexivity | rewrite IH; reflexivity]. Qed.

Lemma substring_head (b x : string) :
  substring 0 (String.length b) (b ++ x) = b.
Proof.
  induction b as [|c b IH]; norm; simpl.
  - destruct x; reflexivity.
  - rewrite IH. reflexivity.
Qed.

Lemma substring_skip (b x : string) (n m : nat) :
  substring (String.length b + n) m (b ++ x) = substring n m x.
Proof. induction b as [|c b IH]; norm; simpl; [reflexivity | exact IH]. Qed.

Lemma Index_nil (sep : string) :
  Index "" sep = if String.prefix sep "" then Some 0%nat else None.
Proof. reflexivity. Qed.

Lemma Index_cons (c : ascii) (s sep : string) :
  Index (String c s) sep
  = if String.prefix sep (String c s) then Some 0%nat
    else S <$> Index s sep.
Proof. reflexivity. Qed.

(** [Index] finds an occurrence, and no occurrence starts before it. *)
Lemma Index_Some (s sep : string) (i : nat) :
  Index s sep = Some i ->
  exists b a, s = b ++ sep ++ a /\ String.length b = i
    /\ forall b' a', s = b' ++ sep ++ a' -> (i <= String.length b')%nat.
Proof.
  revert i. induction s as [|c s IH]; intros i;
    rewrite ?Index_nil, ?Index_cons.
  - destruct (String.prefix sep "") eqn:Hp; [|discriminate].
    intros [= <-]. apply prefix_app in Hp as [a Ha].
    exists "", a. norm. split; [exact Ha|]. split; [reflexivity|]. lia.
  - destruct (String.prefix sep (String c s)) eqn:Hp.
    + intros [= <-]. apply prefix_app in Hp as [a Ha].
      exists "", a. norm. split; [exact Ha|]. split; [reflexivity|]. lia.
    + destruct (Index s sep) as [j|] eqn:Hj; [|discriminate].
      simpl. intros [= <-].
      destruct (IH j eq_refl) as (b & a & -> & Hlen & Hmin).
      exists (String c b), a. norm. simpl.
      split; [reflexivity|]. split; [lia|].
      intros b' a' Heq. destruct b' as [|d b']; norm.
      * assert (String.prefix sep (String c (b ++ sep ++ a)) = true)
          by (apply prefix_app; eauto).
        congruence.
      * injection Heq as _ Heq.
        specialize (Hmin b' a' Heq). simpl. lia.
Qed.

Lemma Index_None (s sep : string) :
  Index s sep = None -> forall b a, s <> b ++ sep ++ a.
Proof.
  induction s as [|c s IH]; rewrite ?Index_nil, ?Index_cons.
  - destruct (String.prefix sep "") eqn:Hp; [discriminate|].
    intros _ b a Heq.
    destruct b; norm; [|discriminate].
    assert (String.prefix sep "" = true) by (apply prefix_app; eauto).
    congruence.
  - destruct (String.prefix sep (String c s)) eqn:Hp; [discriminate|].
    destruct (Index s sep) eqn:Hj; [discriminate|].
    intros _ b a Heq. destruct b as [|d b]; norm.
    + assert (String.prefix sep (String c s) = true)
        by (apply prefix_app; eauto).
      congruence.
    + injection Heq as _ Heq. exact (IH eq_refl b a Heq).
Qed.

Lemma append_inj_length (b b' x x' : string) :
  b ++ x = b' ++ x' -> String.length b = String.length b' ->
  b = b' /\ x = x'.
Proof.
  revert b'. induction b as [|c b IH]; intros [|d b']; norm; simpl;
    try discriminate; [auto|].
  intros [= -> Heq] [= Hl]. destruct (IH b' Heq Hl) as [-> ->]. auto.
Qed.

(** [SplitN2] cuts at the first occurrence of the separator. *)
Lemma SplitN2_first (sep before after : string) :
  (forall b' a', before ++ sep ++ after = b' ++ sep ++ a' ->
                 (String.length before <= String.length b')%nat) ->
  SplitN2 (before ++ sep ++ after) sep = [before; after].
Proof.
  intros Hmin. unfold SplitN2.
  destruct (Index (before ++ sep ++ after) sep) as [i|] eqn:Hi.
  - destruct (Index_Some _ _ _ Hi) as (b & a & Heq & Hlen & Hfirst).
    assert (i = String.length before) as ->.
    { specialize (Hfirst before after eq_refl).
      specialize (Hmin b a Heq). lia. }
    rewrite substring_head.
    rewrite substring_skip.
    replace (String.length sep) with (String.length sep + 0)%nat at 1 by lia.
    rewrite substring_skip.
    rewrite !length_append.
    replace (String.length before + (String.length sep + String.length after)
             - (String.length before + String.length sep))%nat
      with (String.length after) by lia.
    rewrite substring_all. reflexivity.
  - exfalso. exact (Index_None _ _ Hi before after eq_refl).
Qed.

Lemma SplitN2_absent (s sep : string) :
  (forall b a, s <> b ++ sep ++ a) -> SplitN2 s sep = [s].
Proof.
  intros H. unfold SplitN2.
  destruct (Index s sep) as [i|] eqn:Hi; [|reflexivity].
  destruct (Index_Some _ _ _ Hi) as (b & a & Heq & _).
  exfalso. exact (H b a Heq).
Qed.

End GoStringsFacts.

Section TitleParsing.

Import GoStrings GoStringsFacts.
Local Open Scope string_scope.

Lemma apply_tags_StreamTitle (tags : gmap string string) (t : TrackInfo)
    (value : string) :
  tags !! "StreamTitle" = Some value ->
  Raw (apply_tags tags t) = value
  /\ (forall before after,
        value = before ++ " - " ++ after ->
        first_occurrence " - " before after ->
        Artist (apply_tags tags t) = TrimSpace before
        /\ Title (apply_tags tags t) = TrimSpace after)
  /\ ((forall b a, value <> b ++ " - " ++ a) ->
      Title (apply_tags tags t) = value /\ Artist (apply_tags tags t) = "").
Proof.
  intros Hv. unfold apply_tags. rewrite Hv. split; [|split].
  - destruct (SplitN2 value " - ") as [|? [|? [|? ?]]]; reflexivity.
  - intros before after -> Hfirst.
    rewrite (SplitN2_first " - " before after Hfirst). split; reflexivity.
  - intros Habs. rewrite (SplitN2_absent value " - " Habs).
    split; reflexivity.
Qed.

(** C9, as the code has it: after a successful fetch with a [StreamTitle]
    tag the raw field is the tag's value; if the value contains [" - "],
    the artist is the text before its first occurrence and the title the
    text after it, each with leading and trailing white space removed;
    if it does not, the title is the whole value and the artist is empty.
    Without a [StreamTitle] tag but with an [icy-name] tag, that tag's
    value becomes the title (and the raw field) and the artist is kept;
    with neither tag the cached track is unchanged. *)
Theorem FetchTrack_title_parsing (v : Visualizer)
    (tags : gmap string string) :
  streamURL v <> "" ->
  let t := (FetchTrack v (probe_tags tags)).2 in
  track (FetchTrack v (probe_tags tags)).1 = t
  /\ (forall value, tags !! "StreamTitle" = Some value ->
        Raw t = value
        /\ (forall before after,
              value = before ++ " - " ++ after ->
              first_occurrence " - " before after ->
              Artist t = TrimSpace before /\ Title t = TrimSpace after)
        /\ ((forall b a, value <> b ++ " - " ++ a) ->
            Title t = value /\ Artist t = ""))
  /\ (tags !! "StreamTitle" = None ->
      forall name, tags !! "icy-name" = Some name ->
        Title t = name /\ Raw t = name /\ Artist t = Artist (track v))
  /\ (tags !! "StreamTitle" = None -> tags !! "icy-name" = None ->
      t = track v).
Proof.
  intros Hurl. unfold FetchTrack.
  destruct (String.eqb_spec (streamURL v) ""); [contradiction|].
  cbn [fst snd track set_track]. split; [reflexivity|]. split; [|split].
  - intros value Hv. exact (apply_tags_StreamTitle tags (track v) value Hv).
  - intros Hn name Hi. unfold apply_tags. rewrite Hn, Hi.
    repeat split.
  - intros Hn Hi. unfold apply_tags. rewrite Hn, Hi. reflexivity.
Qed.

End TitleParsing.

Lemma first_occurrence_Ann_Song : first_occurrence " - " "Ann" "Song".
Proof.
  intros b' a' Heq.
  destruct b' as [|c1 [|c2 [|c3 b']]]; simpl; try lia; exfalso;
    vm_compute in Heq; discriminate.
Qed.

Lemma FetchTrack_title_parsing_witness :
  let v := mkVisualizer DefaultConfig [] [] (mkTrackInfo "" "" "")
             "http://radio" None false in
  let tags : gmap string string :=
    {[ "StreamTitle"%string := "Ann - Song"%string ]} in
  let t := (FetchTrack v (probe_tags tags)).2 in
  Artist t = GoStrings.TrimSpace "Ann" /\ Title t = GoStrings.TrimSpace "Song".
Proof.
  intros v tags t.
  assert (Hurl : streamURL v <> ""%string) by (vm_compute; discriminate).
  destruct (FetchTrack_title_parsing v tags Hurl) as (_ & H & _).
  destruct (H "Ann - Song"%string eq_refl) as (_ & Hsplit & _).
  exact (Hsplit "Ann"%string "Song"%string eq_refl first_occurrence_Ann_Song).
Defined.

(** C9 as worded fails: the artist is not always the text before the first
    [" - "].  For the tag value ["A  - B"] that text is ["A "], and the
    artist stored is ["A"]. *)
Lemma StreamTitle_artist_is_trimmed :
  ~ (forall (tags : gmap string string) (t : TrackInfo)
            (before after : string),
        tags !! "StreamTitle"%string = Some (before ++ " - " ++ after)%string ->
        first_occurrence " - " before after ->
        Artist (apply_tags tags t) = before
        /\ Title (apply_tags tags t) = after).
Proof.
  intros H.
  specialize (H {[ "StreamTitle"%string := "A  - B"%string ]}
                (mkTrackInfo "" "" "") "A "%string "B"%string eq_refl).
  assert (Hf : first_occurrence " - " "A " "B").
  { intros b' a' Heq.
    destruct b' as [|c1 [|c2 b']]; simpl; try lia; exfalso.
    - vm_compute in Heq. discriminate.
    - vm_compute in Heq. discriminate. }
  destruct (H Hf) as [Ha _]. vm_compute in Ha. discriminate.
Qed.

(** ** Column reducer: the span of a column *)

Section ColumnSpan.

Lemma column_span_exact (chunkSize W col : Z) :
  0 < W -> 0 <= col < W -> 0 <= chunkSize ->
  column_span chunkSize (Z.quot chunkSize W) col
  = (col * Z.quot chunkSize W, (col + 1) * Z.quot chunkSize W).
Proof.
  intros HW Hcol Hn. unfold column_span. cbv zeta.
  rewrite Z.quot_div_nonneg by lia.
  pose proof (Z.mul_div_le chunkSize W HW) as Hle.
  assert (0 <= chunkSize / W) by (apply Z.div_pos; lia).
  f_equal. rewrite Z.min_l; [ring | nia].
Qed.

Lemma sum_squares_ext (b1 b2 : list Z) (count : nat) :
  forall (i : Z) (sum : float),
    (forall j, i <= j < i + Z.of_nat count -> index b1 j = index b2 j) ->
    sum_squares b1 i count sum = sum_squares b2 i count sum.
Proof.
  induction count as [|count IH]; intros i sum Hagree; [reflexivity|].
  cbn [sum_squares]. rewrite (Hagree i) by lia.
  destruct (index b2 i) as [x|]; [|reflexivity]. simpl.
  apply IH. intros j Hj. apply Hagree. lia.
Qed.

Lemma reduce_columns_ext (b1 b2 : list Z) (spc bound : Z)
    (cols : list Z) :
  len b1 = len b2 -> 0 <= spc ->
  Forall (fun col => 0 <= col /\ (col + 1) * spc <= bound) cols ->
  (forall j, 0 <= j < bound -> index b1 j = index b2 j) ->
  forall waveform,
    reduce_columns b1 spc cols waveform
    = reduce_columns b2 spc cols waveform.
Proof.
  intros Hlen Hspc Hcols Hagree.
  induction Hcols as [|col cols [Hc0 Hc1] _ IH]; intros waveform;
    [reflexivity|].
  cbn [reduce_columns]. rewrite <- Hlen.
  unfold column_span. cbv zeta.
  rewrite (sum_squares_ext b1 b2).
  - destruct (sum_squares b2 _ _ _) as [sum|]; [|reflexivity]. simpl.
    destruct (if 0 <? spc then _ else _) as [w'|]; [|reflexivity].
    simpl. apply IH.
  - intros j Hj. apply Hagree. nia.
Qed.

(** C1, as the code has it: every column, the last one included, spans
    exactly [samplesPerColumn] samples, [col * samplesPerColumn] up to
    [(col + 1) * samplesPerColumn]; the bound [len(buffer)] of the [min]
    is never the smaller one.  The last column ends at
    [W * samplesPerColumn], and the [chunkSize mod W] samples from there on
    are read by no column: two buffers that differ only there reduce to
    the same profile. *)
Theorem last_column_leaves_remainder (buffer1 buffer2 : list Z)
    (waveform : list float) (col : Z) :
  let chunkSize := len buffer1 in
  let W := len waveform in
  let samplesPerColumn := Z.quot chunkSize W in
  0 < W -> 0 <= col < W ->
  len buffer2 = chunkSize ->
  (forall j, 0 <= j < W * samplesPerColumn ->
             index buffer1 j = index buffer2 j) ->
  column_span chunkSize samplesPerColumn col
  = (col * samplesPerColumn, (col + 1) * samplesPerColumn)
  /\ (column_span chunkSize samplesPerColumn (W - 1)).2
     = chunkSize - Z.rem chunkSize W
  /\ convertToWaveform buffer1 waveform = convertToWaveform buffer2 waveform.
Proof.
  intros chunkSize W spc HW Hcol Hlen Hagree.
  assert (Hn : 0 <= chunkSize) by (unfold chunkSize, len; lia).
  assert (Hspc : 0 <= spc).
  { unfold spc. rewrite Z.quot_div_nonneg by lia. apply Z.div_pos; lia. }
  split; [|split].
  - apply column_span_exact; assumption.
  - unfold spc. rewrite column_span_exact by lia. cbn [snd].
    pose proof (Z.quot_rem' chunkSize W). lia.
  - unfold convertToWaveform. fold W.
    destruct (Z.eqb_spec W 0); [lia|].
    rewrite Hlen. fold chunkSize. fold spc.
    apply (reduce_columns_ext buffer1 buffer2 spc (W * spc)).
    + fold chunkSize. lia.
    + exact Hspc.
    + unfold range. apply List.Forall_forall. intros c Hc.
      apply in_map_iff in Hc as (k & <- & Hk). apply in_seq in Hk.
      split; [lia | nia].
    + exact Hagree.
Qed.

End ColumnSpan.

Lemma last_column_leaves_remainder_witness :
  (column_span 5 2 1).2 = 4
  /\ convertToWaveform [0; 0; 0; 0; 32767] [0%float; 0%float]
     = convertToWaveform [0; 0; 0; 0; 0] [0%float; 0%float].
Proof.
  assert (Hagree : forall j, 0 <= j < 2 * 2 ->
            index [0; 0; 0; 0; 32767] j = index [0; 0; 0; 0; 0] j).
  { intros j Hj.
    assert (j = 0 \/ j = 1 \/ j = 2 \/ j = 3) as [->|[->|[->| ->]]] by lia;
      reflexivity. }
  destruct (last_column_leaves_remainder [0; 0; 0; 0; 32767] [0; 0; 0; 0; 0]
              [0%float; 0%float] 1 ltac:(reflexivity) ltac:(vm_compute; split; [discriminate|reflexivity])
              eq_refl Hagree)
    as (_ & Hlast & Hsame).
  split; [exact Hlast | exact Hsame].
Defined.

(** C1 as worded fails: with five samples and two columns the last column
    ends at sample 4, not at sample 5. *)
Lemma last_column_does_not_absorb_remainder :
  ~ (forall chunkSize W : Z,
        0 < W -> 0 < Z.quot chunkSize W -> Z.rem chunkSize W <> 0 ->
        column_span chunkSize (Z.quot chunkSize W) (W - 1)
        = ((W - 1) * Z.quot chunkSize W, chunkSize)).
Proof.
  intros H. specialize (H 5 2).
  assert (Hspan : column_span 5 (Z.quot 5 2) (2 - 1) = (2, 4)) by reflexivity.
  rewrite Hspan in H.
  assert (Heq : (2, 4) = ((2 - 1) * Z.quot 5 2, 5)).
  { apply H; [lia | reflexivity | discriminate]. }
  discriminate Heq.
Qed.

(** The full-scale sample left over by the division changes nothing. *)
Lemma remainder_sample_ignored :
  convertToWaveform [0; 0; 0; 0; 32767] [0%float; 0%float]
  = Some [0%float; 0%float].
Proof. vm_compute. reflexivity. Qed.

(** ** Frame renderer: shape of the output *)

Lemma wrap64_id (z : Z) :
  GoInt.min_int <= z <= GoInt.max_int -> GoInt.wrap64 z = z.
Proof.
  unfold GoInt.min_int, GoInt.max_int, GoInt.wrap64. intros H.
  rewrite Z.mod_small; lia.
Qed.

Lemma mapM_map {A B C : Type} (f : A -> option B) (g : C -> B)
    (Q : C -> Prop) (l : list A) :
  Forall (fun x => exists c, f x = Some (g c) /\ Q c) l ->
  exists cs, mapM f l = Some (map g cs) /\ length cs = length l
             /\ Forall Q cs.
Proof.
  induction 1 as [|x l (c & Hc & HQ) _ (cs & Hcs & Hlen & HQs)].
  - exists []. repeat split. constructor.
  - exists (c :: cs). simpl. rewrite Hc. simpl. rewrite Hcs. simpl.
    repeat split; [congruence | constructor; assumption].
Qed.

Lemma range_bounds (n c : Z) : In c (range n) -> 0 <= c < n.
Proof.
  unfold range. intros Hc. apply in_map_iff in Hc as (k & <- & Hk).
  apply in_seq in Hk. lia.
Qed.

Lemma range_length (n : Z) : length (range n) = Z.to_nat n.
Proof. unfold range. rewrite length_map, length_seq. reflexivity. Qed.

Section RenderShape.

Variable unrep : float -> Z.
Variable cfg : Config.

Lemma index_Some {A : Type} (l : list A) (i : Z) :
  0 <= i < len l -> exists x, index l i = Some x.
Proof.
  unfold index, len. intros H.
  destruct (Z.ltb_spec i 0); [lia|].
  apply lookup_lt_is_Some_2. lia.
Qed.

Lemma cell_total (waveform : list float) (midline row col : Z) :
  0 <= col ->
  exists c, cell unrep cfg waveform midline row col = Some c
            /\ is_cell cfg c.
Proof.
  intros Hcol. unfold cell, is_cell.
  destruct ((1 <? BarSpacing cfg)
            && negb (Z.rem col (BarSpacing cfg) =? 0)); [eauto|].
  set (waveIdx := if 1 <? BarSpacing cfg
                  then Z.quot col (BarSpacing cfg) else col).
  assert (Hw : 0 <= waveIdx).
  { unfold waveIdx. destruct (Z.ltb_spec 1 (BarSpacing cfg)); [|lia].
    apply Z.quot_pos; lia. }
  destruct (Z.leb_spec (len waveform) waveIdx); [eauto|].
  destruct (index_Some waveform waveIdx ltac:(lia)) as [x ->]. simpl.
  destruct (glyph_at _ _ _); eauto.
Qed.

Lemma render_row_shape (waveform : list float) (midline row : Z) :
  exists cells,
    render_row unrep cfg waveform midline row
    = Some (row_text cells ++ newline)%string
    /\ length cells = Z.to_nat (Width cfg)
    /\ Forall (is_cell cfg) cells.
Proof.
  unfold render_row.
  destruct (mapM_map (cell unrep cfg waveform midline row) id (is_cell cfg)
              (range (Width cfg))) as (cells & -> & Hlen & Hcells).
  - apply List.Forall_forall. intros c Hc. apply range_bounds in Hc.
    apply cell_total. lia.
  - exists cells. rewrite map_id, Hlen, range_length. auto.
Qed.

Lemma concat_cons (x : string) (xs : list string) :
  String.concat "" (x :: xs) = (x ++ String.concat "" xs)%string.
Proof.
  destruct xs as [|y ys]; simpl.
  - induction x as [|c x IH]; [reflexivity|].
    rewrite GoStringsFacts.append_cons, <- IH. reflexivity.
  - reflexivity.
Qed.

Lemma row_text_length (cells : list string) :
  Forall (fun c => String.length c = 1%nat) cells ->
  String.length (row_text cells) = length cells.
Proof.
  unfold row_text. induction 1 as [|c cells Hc _ IH]; [reflexivity|].
  rewrite concat_cons, GoStringsFacts.length_append, Hc, IH. reflexivity.
Qed.

Lemma occurs_append (a : ascii) (x y : string) :
  occurs a (x ++ y) -> occurs a x \/ occurs a y.
Proof.
  unfold occurs. induction x as [|c x IH];
    rewrite ?GoStringsFacts.append_cons, ?GoStringsFacts.append_nil;
    simpl; [auto|].
  intros [H|H]; [auto|]. destruct (IH H); auto.
Qed.

Lemma row_text_occurs (a : ascii) (cells : list string) :
  Forall (fun c => ~ occurs a c) cells -> ~ occurs a (row_text cells).
Proof.
  unfold row_text. induction 1 as [|c cells Hc _ IH]; [intros []|].
  rewrite concat_cons. intros H. apply occurs_append in H as [H|H]; auto.
Qed.

(** C4, as the code has it: the frame is the two cursor-control sequences,
    then exactly [Height] rows, each a newline-terminated sequence of
    exactly [Width] cells, then the status line when it is switched on,
    and nothing else.  A cell is one space or the glyph string, so a row
    is exactly [Width] characters wide when the glyph is one character,
    and holds no newline of its own unless the glyph does. *)
Theorem renderFrame_shape (waveform : list float) :
  0 <= Width cfg -> 0 <= Height cfg ->
  Width cfg * Height cfg * 4 <= GoInt.max_int ->
  exists rows : list (list string),
    renderFrame unrep cfg waveform
    = Some (frame_prefix ++ rows_text rows
            ++ (if ShowStatus cfg then status_line cfg else ""))%string
    /\ length rows = Z.to_nat (Height cfg)
    /\ Forall (fun cells => length cells = Z.to_nat (Width cfg)
                            /\ Forall (is_cell cfg) cells) rows
    /\ (String.length (Char cfg) = 1%nat ->
        Forall (fun cells =>
                  String.length (row_text cells) = Z.to_nat (Width cfg))
               rows)
    /\ (~ occurs (ascii_of_nat 10) (Char cfg) ->
        Forall (fun cells => ~ occurs (ascii_of_nat 10) (row_text cells))
               rows).
Proof.
  intros HW HH Hfit. unfold renderFrame.
  assert (Hgrow : GoInt.mul (GoInt.mul (Width cfg) (Height cfg)) 4
                  = Width cfg * Height cfg * 4).
  { unfold GoInt.mul, GoInt.max_int, GoInt.min_int in *.
    rewrite (wrap64_id (Width cfg * Height cfg));
      [apply wrap64_id|]; unfold GoInt.max_int, GoInt.min_int; nia. }
  rewrite Hgrow. destruct (Z.ltb_spec (Width cfg * Height cfg * 4) 0); [nia|].
  destruct (mapM_map
              (render_row unrep cfg waveform (Z.quot (Height cfg) 2))
              (fun cells => (row_text cells ++ newline)%string)
              (fun cells => length cells = Z.to_nat (Width cfg)
                            /\ Forall (is_cell cfg) cells)
              (range (Height cfg))) as (rows & -> & Hlen & Hrows).
  { apply List.Forall_forall. intros row _.
    destruct (render_row_shape waveform (Z.quot (Height cfg) 2) row)
      as (cells & ? & ? & ?).
    exists cells. auto. }
  exists rows. simpl. split; [reflexivity|].
  split; [rewrite Hlen; apply range_length|].
  split; [exact Hrows|]. split.
  - intros Hglyph. eapply Forall_impl; [exact Hrows|].
    intros cells [Hl Hc]. cbv beta. rewrite row_text_length; [exact Hl|].
    eapply Forall_impl; [exact Hc|].
    intros c [-> | ->]; [reflexivity | exact Hglyph].
  - intros Hnl. eapply Forall_impl; [exact Hrows|].
    intros cells [_ Hc]. cbv beta. apply row_text_occurs.
    eapply Forall_impl; [exact Hc|].
    intros c [-> | ->]; [|exact Hnl].
    unfold occurs. simpl. intros [Hsp|[]]. discriminate Hsp.
Qed.

End RenderShape.

Lemma renderFrame_shape_witness :
  exists rows : list (list string),
    renderFrame (fun _ => 0) DefaultConfig (repeat 0%float 60)
    = Some (frame_prefix ++ rows_text rows ++ status_line DefaultConfig)%string
    /\ length rows = 12%nat
    /\ Forall (fun cells => String.length (row_text cells) = 60%nat) rows.
Proof.
  destruct (renderFrame_shape (fun _ => 0) DefaultConfig (repeat 0%float 60))
    as (rows & Heq & Hlen & _ & Hwidth & _);
    [vm_compute; discriminate | vm_compute; discriminate
     | vm_compute; discriminate |].
  exists rows. split; [exact Heq|]. split; [exact Hlen|].
  apply Hwidth. reflexivity.
Defined.

(** C4 as worded fails: the frame does not consist of the rows and the
    status line alone.  A 1-by-1 frame without status line is 14
    characters long, the cursor-control sequences included, where a single
    one-character row with its newline would be 2. *)
Lemma renderFrame_has_prefix :
  ~ (forall (unrep : float -> Z) (cfg : Config) (waveform : list float),
        len waveform = Width cfg -> 0 < Width cfg -> 0 < Height cfg ->
        exists rows : list string,
          length rows = Z.to_nat (Height cfg)
          /\ Forall (fun r => String.length r = Z.to_nat (Width cfg)) rows
          /\ renderFrame unrep cfg waveform
             = Some (String.concat ""
                       (map (fun r => (r ++ newline)%string) rows)
                     ++ (if ShowStatus cfg then status_line cfg else ""))%string).
Proof.
  intros H.
  destruct (H (fun _ => 0) (mkConfig 1 1 44100 8 30 1%float "|" 1 1%float false)
              [0%float] eq_refl eq_refl eq_refl)
    as (rows & Hlen & Hwidth & Heq).
  destruct rows as [|r [|r' rows]]; try discriminate Hlen.
  inversion Hwidth as [|? ? Hr _]; subst.
  destruct r as [|c [|c' r]]; try discriminate Hr.
  vm_compute in Heq. discriminate Heq.
Qed.

(** ** End-to-end scenario *)

(** C5: with width 4, height 4, chunk size 8, smoothing factor 1 and
    amplification 1, the chunk [0,0,0,0,32767,32767,32767,32767] reduces to
    the profile [0, 0, 32767/32768, 32767/32768], which is within [2^-15]
    of [0, 0, 1, 1]; one smoothing step from the all-zero vector gives
    exactly that profile, and so does one pass of the stream loop over the
    chunk's bytes. *)
Theorem end_to_end_reduce_then_smooth :
  exists profile : list float,
    convertToWaveform [0; 0; 0; 0; 32767; 32767; 32767; 32767]
      (repeat 0%float 4) = Some profile
    /\ profile = [0; 0; 0.999969482421875; 0.999969482421875]%float
    /\ Forall2 (fun p e => (abs (p - e) <=? 0x1p-15)%float = true)
         profile [0; 0; 1; 1]%float
    /\ smooth 1%float profile (repeat 0%float 4) = Some profile
    /\ forall unrep : float -> Z,
         exists v v' l printed,
           New scenario_config = Some v
           /\ iterate unrep v
                (mkLocals (repeat Byte.x00 16) (repeat 0 8) (repeat 0%float 4))
                (mkObservation None scenario_bytes None)
              = Some (Continue v' l printed)
           /\ buffer l = [0; 0; 0; 0; 32767; 32767; 32767; 32767]
           /\ smoothed v' = profile.
Proof.
  eexists. split; [vm_compute; reflexivity|].
  split; [reflexivity|].
  split; [repeat constructor|].
  split; [vm_compute; reflexivity|].
  intros unrep. do 4 eexists.
  split; [vm_compute; reflexivity|].
  split; [vm_compute; reflexivity|].
  split; reflexivity.
Qed.

(** ** Binary64 arithmetic: rounding of products *)

Lemma digits2_pos_bounds (m : positive) :
  2 ^ (Z.pos (digits2_pos m) - 1) <= Z.pos m < 2 ^ Z.pos (digits2_pos m).
Proof.
  induction m as [m IH|m IH|]; cbn [digits2_pos].
  - rewrite Pos2Z.inj_succ.
    replace (Z.succ (Z.pos (digits2_pos m)) - 1)
      with (Z.succ (Z.pos (digits2_pos m) - 1)) by lia.
    rewrite !Z.pow_succ_r by lia. lia.
  - rewrite Pos2Z.inj_succ.
    replace (Z.succ (Z.pos (digits2_pos m)) - 1)
      with (Z.succ (Z.pos (digits2_pos m) - 1)) by lia.
    rewrite !Z.pow_succ_r by lia. lia.
  - simpl. lia.
Qed.

Lemma digits2_pos_log2 (m : positive) :
  Z.pos (digits2_pos m) = Z.log2 (Z.pos m) + 1.
Proof.
  pose proof (digits2_pos_bounds m) as H.
  rewrite (Z.log2_unique (Z.pos m) (Z.pos (digits2_pos m) - 1)); [lia | lia |].
  replace (Z.succ (Z.pos (digits2_pos m) - 1)) with (Z.pos (digits2_pos m)) by lia.
  exact H.
Qed.

(** [iter_pos] is iteration over [nat]. *)
Lemma iter_pos_nat {A : Type} (f : A -> A) (p : positive) (x : A) :
  SpecFloat.iter_pos f p x = Nat.iter (Pos.to_nat p) f x.
Proof.
  revert x. induction p as [p IH|p IH|]; intros x; cbn [SpecFloat.iter_pos].
  - rewrite !IH. rewrite Pos2Nat.inj_xI.
    replace (S (2 * Pos.to_nat p)) with (Pos.to_nat p + (Pos.to_nat p + 1))%nat by lia.
    rewrite !Nat.iter_add. reflexivity.
  - rewrite !IH. rewrite Pos2Nat.inj_xO.
    replace (2 * Pos.to_nat p)%nat with (Pos.to_nat p + Pos.to_nat p)%nat by lia.
    rewrite Nat.iter_add. reflexivity.
  - reflexivity.
Qed.

Lemma shr_1_m (mrs : shr_record) :
  0 <= shr_m mrs ->
  shr_m (shr_1 mrs) = shr_m mrs / 2
  /\ shr_r (shr_1 mrs) = Z.odd (shr_m mrs)
  /\ shr_s (shr_1 mrs) = shr_r mrs || shr_s mrs.
Proof.
  destruct mrs as [m r s]. cbn [shr_m shr_r shr_s]. intros Hm.
  destruct m as [|p|p]; [| |lia].
  - cbn. auto.
  - destruct p as [p|p|]; cbn [shr_1 shr_m shr_r shr_s].
    + rewrite Pos2Z.inj_xI.
      replace ((2 * Z.pos p + 1) / 2) with (Z.pos p) by (apply Z.div_unique with 1; lia).
      auto.
    + rewrite Pos2Z.inj_xO.
      replace ((2 * Z.pos p) / 2) with (Z.pos p) by (apply Z.div_unique with 0; lia).
      auto.
    + cbn. auto.
Qed.

Lemma shr_1_shifted_first (m : Z) :
  0 <= m -> shifted m 1 (shr_1 (Build_shr_record m false false)).
Proof.
  intros Hm. unfold shifted.
  destruct (shr_1_m (Build_shr_record m false false) Hm) as (-> & -> & ->).
  cbn [shr_m shr_r shr_s orb].
  rewrite Z.pow_1_r. replace (1 - 1) with 0 by lia.
  rewrite Z.pow_0_r, Z.mod_1_r, Zmod_odd.
  split; [reflexivity|]. split; [|reflexivity].
  destruct (Z.odd m); reflexivity.
Qed.

Lemma shifted_step (m n : Z) (mrs : shr_record) :
  0 <= m -> 1 <= n -> shifted m n mrs -> shifted m (n + 1) (shr_1 mrs).
Proof.
  intros Hm Hn (Hq & Hr & Hs).
  assert (Hq0 : 0 <= shr_m mrs) by (rewrite Hq; apply Z.div_pos; lia).
  destruct (shr_1_m mrs Hq0) as (Hq' & Hr' & Hs').
  assert (Hpow : 2 ^ (n + 1) = 2 * 2 ^ n) by (rewrite Z.pow_add_r by lia; lia).
  assert (Hpow' : 2 ^ n = 2 * 2 ^ (n - 1)).
  { replace n with (n - 1 + 1) at 1 by lia. rewrite Z.pow_add_r by lia. lia. }
  assert (Hp : 0 < 2 ^ (n - 1)) by (apply Z.pow_pos_nonneg; lia).
  pose proof (Z.div_mod m (2 ^ n) ltac:(lia)) as Hdm.
  pose proof (Z.mod_pos_bound m (2 ^ n) ltac:(lia)) as Hmb.
  set (q := m / 2 ^ n) in *. set (r := m mod 2 ^ n) in *.
  pose proof (Z.div_mod q 2 ltac:(lia)) as Hdq.
  pose proof (Z.mod_pos_bound q 2 ltac:(lia)) as Hqb.
  assert (Hdiv : m / 2 ^ (n + 1) = q / 2).
  { symmetry. apply Z.div_unique with (2 ^ n * (q mod 2) + r); nia. }
  assert (Hmod : m mod 2 ^ (n + 1) = 2 ^ n * (q mod 2) + r).
  { symmetry. apply Z.mod_unique with (q / 2); nia. }
  unfold shifted. replace (n + 1 - 1) with n by lia.
  rewrite Hq', Hr', Hs', Hq, Hr, Hs, Hdiv, Hmod. fold q. fold r.
  assert (Hlow : m mod 2 ^ (n - 1) = r mod 2 ^ (n - 1)).
  { symmetry. apply Z.mod_unique with (2 * q + r / 2 ^ (n - 1)).
    - left. apply Z.mod_pos_bound. lia.
    - pose proof (Z.div_mod r (2 ^ (n - 1)) ltac:(lia)). nia. }
  pose proof (Z.div_mod r (2 ^ (n - 1)) ltac:(lia)) as Hdr.
  pose proof (Z.mod_pos_bound r (2 ^ (n - 1)) ltac:(lia)) as Hrb.
  rewrite Hlow.
  split; [reflexivity|]. split.
  - rewrite Zmod_odd. destruct (Z.odd q).
    + symmetry. apply Z.leb_le. lia.
    + symmetry. apply Z.leb_gt. lia.
  - destruct (Z.leb_spec (2 ^ (n - 1)) r) as [Hge|Hlt];
      destruct (Z.eqb_spec (r mod 2 ^ (n - 1)) 0) as [Hz|Hnz];
      destruct (Z.eqb_spec r 0) as [Hr0|Hr0]; cbn; try reflexivity; exfalso.
    + lia.
    + lia.
    + assert (r / 2 ^ (n - 1) = 0) by (apply Z.div_small; lia). lia.
    + subst r. rewrite Hr0, Z.mod_0_l in Hnz by lia. lia.
Qed.

Lemma shifted_iter (m : Z) (k : nat) :
  0 <= m ->
  shifted m (Z.of_nat (S k))
    (Nat.iter (S k) shr_1 (Build_shr_record m false false)).
Proof.
  intros Hm. induction k as [|k IH].
  - apply shr_1_shifted_first. exact Hm.
  - replace (Z.of_nat (S (S k))) with (Z.of_nat (S k) + 1) by lia.
    change (Nat.iter (S (S k)) shr_1 (Build_shr_record m false false))
      with (shr_1 (Nat.iter (S k) shr_1 (Build_shr_record m false false))).
    apply shifted_step; [exact Hm | lia | exact IH].
Qed.

Lemma shr_shifted (m e : Z) (p : positive) :
  0 <= m ->
  exists mrs, shr (Build_shr_record m false false) e (Z.pos p)
              = (mrs, e + Z.pos p)
              /\ shifted m (Z.pos p) mrs.
Proof.
  intros Hm. unfold shr. rewrite iter_pos_nat.
  eexists. split; [reflexivity|].
  destruct (Pos2Nat.is_succ p) as [k Hk]. rewrite Hk.
  replace (Z.pos p) with (Z.of_nat (S k)) by (rewrite <- Hk; lia).
  apply shifted_iter. exact Hm.
Qed.

Lemma round_shifted (m n : Z) (mrs : shr_record) :
  0 <= m -> 1 <= n -> shifted m n mrs ->
  round_nearest_even (shr_m mrs) (loc_of_shr_record mrs)
  = rne (m / 2 ^ n) (m mod 2 ^ n) (2 ^ n).
Proof.
  intros Hm Hn (Hq & Hr & Hs). destruct mrs as [q r s].
  cbn [shr_m shr_r shr_s] in *. subst q.
  assert (Hpow' : 2 ^ n = 2 * 2 ^ (n - 1)).
  { replace n with (n - 1 + 1) at 1 by lia. rewrite Z.pow_add_r by lia. lia. }
  assert (Hp : 0 < 2 ^ (n - 1)) by (apply Z.pow_pos_nonneg; lia).
  pose proof (Z.mod_pos_bound m (2 ^ n) ltac:(lia)) as Hmb.
  set (rem := m mod 2 ^ n) in *.
  assert (Hlow : m mod 2 ^ (n - 1) = rem mod 2 ^ (n - 1)).
  { pose proof (Z.div_mod m (2 ^ n) ltac:(lia)) as Hdm. fold rem in Hdm.
    symmetry. apply Z.mod_unique with (2 * (m / 2 ^ n) + rem / 2 ^ (n - 1)).
    - left. apply Z.mod_pos_bound. lia.
    - pose proof (Z.div_mod rem (2 ^ (n - 1)) ltac:(lia)). nia. }
  rewrite Hlow in Hs.
  pose proof (Z.div_mod rem (2 ^ (n - 1)) ltac:(lia)) as Hdr.
  pose proof (Z.mod_pos_bound rem (2 ^ (n - 1)) ltac:(lia)) as Hrb.
  unfold rne.
  destruct (Z.leb_spec (2 ^ (n - 1)) rem) as [Hge|Hlt];
    destruct (Z.eqb_spec (rem mod 2 ^ (n - 1)) 0) as [Hz|Hnz];
    subst r s; cbn [negb loc_of_shr_record round_nearest_even].
  - (* tie *)
    assert (rem / 2 ^ (n - 1) = 1) by nia.
    destruct (Z.ltb_spec (2 * rem) (2 ^ n)); [lia|].
    destruct (Z.ltb_spec (2 ^ n) (2 * rem)); [lia|]. reflexivity.
  - assert (1 <= rem / 2 ^ (n - 1)) by nia.
    destruct (Z.ltb_spec (2 * rem) (2 ^ n)); [lia|].
    destruct (Z.ltb_spec (2 ^ n) (2 * rem)); [reflexivity|]. nia.
  - destruct (Z.ltb_spec (2 * rem) (2 ^ n)); [reflexivity|lia].
  - destruct (Z.ltb_spec (2 * rem) (2 ^ n)); [reflexivity|lia].
Qed.

Lemma rne_bounds (q rem g : Z) : q <= rne q rem g <= q + 1.
Proof.
  unfold rne.
  destruct (2 * rem <? g); [lia|].
  destruct (g <? 2 * rem); [lia|].
  destruct (Z.even q); lia.
Qed.

Lemma rne_exact (q g : Z) : 0 < g -> rne q 0 g = q.
Proof. intros Hg. unfold rne. destruct (Z.ltb_spec (2 * 0) g); [reflexivity | lia]. Qed.

Lemma pow2_pos (k : Z) : 0 <= k -> 0 < 2 ^ k.
Proof. intros. apply Z.pow_pos_nonneg; lia. Qed.

Lemma pow2_lt_inv (a b : Z) : 0 <= b -> 2 ^ a < 2 ^ b -> a < b.
Proof. intros Hb H. apply (Z.pow_lt_mono_r_iff 2 a b); lia. Qed.

Lemma pow2_le_mono (a b : Z) : 0 <= a <= b -> 2 ^ a <= 2 ^ b.
Proof. intros H. apply Z.pow_le_mono_r; lia. Qed.

Lemma pow2_lt_mono (a b : Z) : 0 <= a < b -> 2 ^ a < 2 ^ b.
Proof. intros H. apply Z.pow_lt_mono_r; lia. Qed.

Lemma rne_scale (q r g c : Z) : 0 < c -> rne q (r * c) (g * c) = rne q r g.
Proof.
  intros Hc. unfold rne.
  destruct (Z.ltb_spec (2 * (r * c)) (g * c));
    destruct (Z.ltb_spec (2 * r) g); try nia; try reflexivity.
  destruct (Z.ltb_spec (g * c) (2 * (r * c)));
    destruct (Z.ltb_spec g (2 * r)); try nia; reflexivity.
Qed.

Section Rounding.

Variables prec emax : Z.
Hypothesis Hprec : 1 < prec.
Hypothesis Hemax : prec < emax.

Abbreviation emin := (SpecFloat.emin prec emax).
Abbreviation fexp := (SpecFloat.fexp prec emax).

Lemma binary_round_aux_finish (s : bool) (mx ex : Z) (lx : location) :
  binary_round_aux prec emax s mx ex lx
  = let '(mrs, e) := shr_fexp prec emax mx ex lx in
    finish prec emax s (round_nearest_even (shr_m mrs) (loc_of_shr_record mrs)) e.
Proof using Hprec Hemax. reflexivity. Qed.

Lemma fexp_ge_emin (e : Z) : emin <= fexp e.
Proof using Hprec Hemax. unfold SpecFloat.fexp. lia. Qed.

Lemma fexp_mono (a b : Z) : a <= b -> fexp a <= fexp b.
Proof using Hprec Hemax. unfold SpecFloat.fexp. lia. Qed.

Lemma finish_finished (s : bool) (q E : Z) :
  emin <= E -> 0 <= q <= 2 ^ prec -> finish prec emax s q E = finished prec emax s q E.
Proof using Hprec Hemax.
  intros HE Hq. unfold finish, finished, shr_fexp.
  assert (Hpp : 0 < 2 ^ prec) by (apply pow2_pos; lia).
  destruct q as [|p|p]; [| |lia].
  - cbn [Zdigits2 shr_record_of_loc Z.eqb].
    assert (Hn : fexp (0 + E) - E <= 0) by (unfold SpecFloat.fexp; lia).
    destruct (fexp (0 + E) - E) as [|n|n] eqn:En; try lia; reflexivity.
  - cbn [Zdigits2 shr_record_of_loc].
    pose proof (digits2_pos_bounds p) as Hd.
    set (d := Z.pos (digits2_pos p)) in *.
    assert (Hd1 : 1 <= d) by (unfold d; lia).
    destruct (Z.eqb_spec (Z.pos p) 0) as [|_]; [lia|].
    destruct (Z.eqb_spec (Z.pos p) (2 ^ prec)) as [Heq|Hne].
    + assert (d = prec + 1).
      { assert (d - 1 < prec + 1).
        { apply pow2_lt_inv; [lia|].
          rewrite Z.pow_add_r, Z.pow_1_r by lia. lia. }
        assert (prec < d) by (apply pow2_lt_inv; lia). lia. }
      replace (fexp (d + E) - E) with 1 by (unfold SpecFloat.fexp; lia).
      cbn [shr SpecFloat.iter_pos].
      destruct (shr_1_m (Build_shr_record (Z.pos p) false false) ltac:(cbn; lia))
        as (Hm & _ & _).
      cbn [shr_m] in Hm. rewrite Hm, Heq.
      assert (Hhalf : 2 ^ prec = 2 ^ (prec - 1) * 2).
      { replace prec with (prec - 1 + 1) at 1 by lia.
        rewrite Z.pow_add_r by lia. lia. }
      rewrite Hhalf at 1. rewrite Z.div_mul by lia.
      pose proof (pow2_pos (prec - 1) ltac:(lia)) as Hpos.
      destruct (2 ^ (prec - 1)) as [|h|h] eqn:Eh; try lia.
      reflexivity.
    + assert (d <= prec).
      { assert (d - 1 < prec) by (apply pow2_lt_inv; lia). lia. }
      assert (Hn : fexp (d + E) - E <= 0) by (unfold SpecFloat.fexp; lia).
      destruct (fexp (d + E) - E) as [|n|n] eqn:En; try lia;
        cbn [shr shr_m Z.to_pos]; reflexivity.
Qed.

(** [binary_round_aux] on an exact positive mantissa that needs no
    left shift. *)
Lemma binary_round_aux_exact (s : bool) (m : positive) (e : Z) :
  let n := shift_of prec emax m e in
  let q := rne (Z.pos m / 2 ^ n) (Z.pos m mod 2 ^ n) (2 ^ n) in
  0 <= n ->
  binary_round_aux prec emax s (Z.pos m) e loc_Exact = finished prec emax s q (e + n)
  /\ 0 <= q <= 2 ^ prec
  /\ emin <= e + n
  /\ (q < 2 ^ (prec - 1) -> e + n = emin).
Proof using Hprec Hemax.
  intros n q Hn.
  pose proof (digits2_pos_bounds m) as Hd.
  set (d := Z.pos (digits2_pos m)) in *.
  assert (Hd1 : 1 <= d) by (unfold d; lia).
  assert (HE : e + n = fexp (d + e)) by (unfold n, shift_of; fold d; lia).
  assert (Hemin : emin <= e + n) by (rewrite HE; apply fexp_ge_emin).
  assert (H2n : 0 < 2 ^ n) by (apply pow2_pos; lia).
  pose proof (Z.div_mod (Z.pos m) (2 ^ n) ltac:(lia)) as Hdm.
  pose proof (Z.mod_pos_bound (Z.pos m) (2 ^ n) ltac:(lia)) as Hmb.
  pose proof (rne_bounds (Z.pos m / 2 ^ n) (Z.pos m mod 2 ^ n) (2 ^ n)) as Hrb.
  fold q in Hrb.
  assert (Hq0 : 0 <= Z.pos m / 2 ^ n) by (apply Z.div_pos; lia).
  assert (Hqlt : Z.pos m / 2 ^ n < 2 ^ prec).
  { apply Z.div_lt_upper_bound; [lia|].
    rewrite <- Z.pow_add_r by lia.
    assert (d <= n + prec) by (unfold SpecFloat.fexp in HE; lia).
    pose proof (pow2_le_mono d (n + prec) ltac:(lia)). lia. }
  assert (Hcanon : q < 2 ^ (prec - 1) -> e + n = emin).
  { intros Hlt.
    destruct (Z.eq_dec (e + n) emin) as [|Hne]; [assumption|exfalso].
    assert (Hnd : n = d - prec) by (unfold SpecFloat.fexp in HE; lia).
    assert (2 ^ (n + (prec - 1)) <= Z.pos m).
    { replace (n + (prec - 1)) with (d - 1) by lia. lia. }
    rewrite Z.pow_add_r in H by lia.
    assert (2 ^ (prec - 1) <= Z.pos m / 2 ^ n).
    { apply Z.div_le_lower_bound; lia. }
    lia. }
  split; [|split; [lia | split; assumption]].
  rewrite binary_round_aux_finish. unfold shr_fexp. cbn [Zdigits2].
  fold d. change (fexp (d + e) - e) with n. cbn [shr_record_of_loc].
  destruct n as [|p|p] eqn:En; [| |lia].
  - cbn [shr shr_m loc_of_shr_record round_nearest_even].
    replace q with (Z.pos m).
    + rewrite Z.add_0_r. apply finish_finished; [lia|].
      rewrite Z.pow_0_r, Z.div_1_r in Hqlt. lia.
    + unfold q. rewrite Z.pow_0_r, Z.div_1_r, Z.mod_1_r.
      symmetry. apply rne_exact. lia.
  - destruct (shr_shifted (Z.pos m) e p ltac:(lia)) as (mrs & -> & Hsh).
    rewrite (round_shifted (Z.pos m) (Z.pos p) mrs); [|lia|lia|exact Hsh].
    fold q. apply finish_finished; lia.
Qed.


Lemma emin_neg : emin < 0.
Proof using Hprec Hemax. unfold SpecFloat.emin. lia. Qed.

Lemma finished_cases (s : bool) (q E : Z) :
  0 <= q <= 2 ^ prec -> emin <= E -> (q < 2 ^ (prec - 1) -> E = emin) ->
  (q = 0 /\ finished prec emax s q E = S754_zero s)
  \/ (exists m e,
        finished prec emax s q E = S754_finite s m e
        /\ SpecFloat.valid_binary prec emax (S754_finite s m e) = true
        /\ uval prec emax (S754_finite s m e) = q * 2 ^ (E - emin)
        /\ 0 < q * 2 ^ (E - emin) < overflow_bound prec emax)
  \/ (finished prec emax s q E = S754_infinity s
      /\ overflow_bound prec emax <= q * 2 ^ (E - emin)).
Proof using Hprec Hemax.
  intros Hq HE Hcanon. unfold finished, overflow_bound.
  pose proof emin_neg as Hem.
  assert (Hpp : 0 < 2 ^ prec) by (apply pow2_pos; lia).
  assert (Hph : 0 < 2 ^ (prec - 1)) by (apply pow2_pos; lia).
  assert (Hhalf : 2 ^ prec = 2 ^ (prec - 1) * 2).
  { replace prec with (prec - 1 + 1) at 1 by lia.
    rewrite Z.pow_add_r by lia. lia. }
  assert (HpE : 0 < 2 ^ (E - emin)) by (apply pow2_pos; lia).
  destruct (Z.eqb_spec q 0) as [Hq0|Hq0]; [left; auto|].
  right.
  destruct (Z.eqb_spec q (2 ^ prec)) as [Hcarry|Hnc].
  - assert (HE1 : 2 ^ (E + 1 - emin) = 2 ^ (E - emin) * 2).
    { replace (E + 1 - emin) with (E - emin + 1) by lia.
      rewrite Z.pow_add_r by lia. lia. }
    destruct (Z.leb_spec (E + 1) (emax - prec)) as [Hfit|Hov].
    + left. exists (Z.to_pos (2 ^ (prec - 1))), (E + 1).
      split; [reflexivity|].
      assert (Hdig : Z.pos (digits2_pos (Z.to_pos (2 ^ (prec - 1)))) = prec).
      { pose proof (digits2_pos_bounds (Z.to_pos (2 ^ (prec - 1)))) as Hd.
        rewrite Z2Pos.id in Hd by lia.
        set (d := Z.pos (digits2_pos (Z.to_pos (2 ^ (prec - 1))))) in *.
        assert (1 <= d) by (unfold d; lia).
        assert (d - 1 <= prec - 1).
        { apply (Z.pow_le_mono_r_iff 2); lia. }
        assert (prec - 1 < d) by (apply pow2_lt_inv; lia). lia. }
      split; [|split].
      * unfold SpecFloat.valid_binary, bounded, canonical_mantissa.
        rewrite Hdig. apply andb_true_intro. split.
        -- apply Z.eqb_eq. unfold SpecFloat.fexp. lia.
        -- apply Z.leb_le. lia.
      * cbn [uval]. rewrite Z2Pos.id by lia. rewrite HE1, Hcarry. lia.
      * rewrite Hcarry. split; [nia|].
        rewrite <- Z.pow_add_r by lia.
        apply pow2_lt_mono. lia.
    + right. split; [reflexivity|]. rewrite Hcarry.
      rewrite <- Z.pow_add_r by lia. apply pow2_le_mono. lia.
  - destruct (Z.leb_spec E (emax - prec)) as [Hfit|Hov].
    + left. exists (Z.to_pos q), E. split; [reflexivity|].
      assert (Hqp : Z.pos (Z.to_pos q) = q) by (apply Z2Pos.id; lia).
      split; [|split].
      * unfold SpecFloat.valid_binary, bounded, canonical_mantissa.
        pose proof (digits2_pos_bounds (Z.to_pos q)) as Hd.
        rewrite Hqp in Hd.
        set (d := Z.pos (digits2_pos (Z.to_pos q))) in *.
        assert (1 <= d) by (unfold d; lia).
        assert (d <= prec).
        { assert (d - 1 < prec) by (apply pow2_lt_inv; lia). lia. }
        apply andb_true_intro. split; [|apply Z.leb_le; lia].
        apply Z.eqb_eq. unfold SpecFloat.fexp.
        destruct (Z_lt_le_dec q (2 ^ (prec - 1))) as [Hsmall|Hbig].
        -- rewrite (Hcanon Hsmall). lia.
        -- assert (prec - 1 < d) by (apply pow2_lt_inv; lia). lia.
      * cbn [uval]. rewrite Hqp. reflexivity.
      * split; [nia|].
        assert (q * 2 ^ (E - emin) < 2 ^ prec * 2 ^ (E - emin)) by nia.
        rewrite <- Z.pow_add_r in H by lia.
        pose proof (pow2_le_mono (prec + (E - emin)) (emax - emin) ltac:(lia)).
        lia.
    + right. split; [reflexivity|].
      assert (E <> emin) by (unfold SpecFloat.emin in *; lia).
      assert (2 ^ (prec - 1) <= q) by (destruct (Z_lt_le_dec q (2 ^ (prec - 1))); [exfalso; auto | assumption]).
      assert (2 ^ (prec - 1) * 2 ^ (E - emin) <= q * 2 ^ (E - emin)) by nia.
      rewrite <- Z.pow_add_r in H1 by lia.
      pose proof (pow2_le_mono (emax - emin) (prec - 1 + (E - emin)) ltac:(lia)).
      lia.
Qed.

Lemma rne_mono_rem (q r1 r2 g : Z) :
  r1 <= r2 -> rne q r1 g <= rne q r2 g.
Proof using Hprec Hemax.
  intros H. unfold rne.
  destruct (Z.ltb_spec (2 * r1) g); destruct (Z.ltb_spec (2 * r2) g);
    destruct (Z.ltb_spec g (2 * r1)); destruct (Z.ltb_spec g (2 * r2));
    destruct (Z.even q); lia.
Qed.

Lemma RU_nonneg (V : Z) : 0 <= V -> 0 <= RU prec emax V.
Proof using Hprec Hemax.
  intros HV. unfold RU.
  pose proof emin_neg.
  pose proof (fexp_ge_emin (Z.log2 V + 1 + 2 * emin)) as HE.
  set (E := fexp (Z.log2 V + 1 + 2 * emin)) in *.
  assert (0 < 2 ^ (E - 2 * emin)) by (apply pow2_pos; lia).
  assert (0 < 2 ^ (E - emin)) by (apply pow2_pos; lia).
  pose proof (rne_bounds (V / 2 ^ (E - 2 * emin)) (V mod 2 ^ (E - 2 * emin))
                (2 ^ (E - 2 * emin))).
  assert (0 <= V / 2 ^ (E - 2 * emin)) by (apply Z.div_pos; lia).
  nia.
Qed.

Lemma RU_mono (V1 V2 : Z) : 0 <= V1 <= V2 -> RU prec emax V1 <= RU prec emax V2.
Proof using Hprec Hemax.
  intros [H1 H12].
  destruct (Z.eq_dec V1 0) as [->|Hnz].
  { transitivity 0; [|apply RU_nonneg; lia].
    unfold RU. cbn [Z.log2]. rewrite Z.div_0_l, Z.mod_0_l.
    - unfold rne. pose proof emin_neg.
      pose proof (fexp_ge_emin (0 + 1 + 2 * emin)).
      assert (0 < 2 ^ (fexp (0 + 1 + 2 * emin) - 2 * emin)) by (apply pow2_pos; lia).
      destruct (Z.ltb_spec (2 * 0) (2 ^ (fexp (0 + 1 + 2 * emin) - 2 * emin))); lia.
    - pose proof emin_neg.
      pose proof (fexp_ge_emin (0 + 1 + 2 * emin)).
      assert (0 < 2 ^ (fexp (0 + 1 + 2 * emin) - 2 * emin)) by (apply pow2_pos; lia). lia.
    - pose proof emin_neg.
      pose proof (fexp_ge_emin (0 + 1 + 2 * emin)).
      assert (0 < 2 ^ (fexp (0 + 1 + 2 * emin) - 2 * emin)) by (apply pow2_pos; lia). lia. }
  assert (HV1 : 0 < V1) by lia. assert (HV2 : 0 < V2) by lia.
  pose proof emin_neg as Hem.
  pose proof (Z.log2_le_mono V1 V2 H12) as Hlog.
  pose proof (Z.log2_spec V1 HV1) as Hl1.
  pose proof (Z.log2_spec V2 HV2) as Hl2.
  pose proof (Z.log2_nonneg V1) as Hn1.
  pose proof (Z.log2_nonneg V2) as Hn2.
  unfold RU.
  pose proof (fexp_ge_emin (Z.log2 V1 + 1 + 2 * emin)) as HE1.
  pose proof (fexp_ge_emin (Z.log2 V2 + 1 + 2 * emin)) as HE2.
  pose proof (fexp_mono (Z.log2 V1 + 1 + 2 * emin)
                (Z.log2 V2 + 1 + 2 * emin) ltac:(lia)) as HE12.
  assert (HEd1 : Z.log2 V1 + 1 + 2 * emin - prec
                 <= fexp (Z.log2 V1 + 1 + 2 * emin))
    by (unfold SpecFloat.fexp; lia).
  assert (HEd2 : fexp (Z.log2 V2 + 1 + 2 * emin) = emin
                 \/ fexp (Z.log2 V2 + 1 + 2 * emin)
                    = Z.log2 V2 + 1 + 2 * emin - prec)
    by (unfold SpecFloat.fexp; lia).
  set (E1 := fexp (Z.log2 V1 + 1 + 2 * emin)) in *.
  set (E2 := fexp (Z.log2 V2 + 1 + 2 * emin)) in *.
  set (G1 := 2 ^ (E1 - 2 * emin)). set (G2 := 2 ^ (E2 - 2 * emin)).
  assert (HG1 : 0 < G1) by (apply pow2_pos; lia).
  assert (HG2 : 0 < G2) by (apply pow2_pos; lia).
  assert (HU1 : 0 < 2 ^ (E1 - emin)) by (apply pow2_pos; lia).
  assert (HU2 : 0 < 2 ^ (E2 - emin)) by (apply pow2_pos; lia).
  pose proof (rne_bounds (V1 / G1) (V1 mod G1) G1) as Hb1.
  pose proof (rne_bounds (V2 / G2) (V2 mod G2) G2) as Hb2.
  destruct (Z.eq_dec E1 E2) as [HEeq|HEne].
  - (* the same grid *)
    unfold G2. rewrite <- HEeq. fold G1.
    apply Z.mul_le_mono_nonneg_r; [lia|].
    pose proof (Z.div_le_mono V1 V2 G1 HG1 H12) as Hq.
    destruct (Z.eq_dec (V1 / G1) (V2 / G1)) as [Hqe|Hqne].
    + rewrite <- Hqe. apply rne_mono_rem.
      pose proof (Z.div_mod V1 G1 ltac:(lia)).
      pose proof (Z.div_mod V2 G1 ltac:(lia)). nia.
    + pose proof (rne_bounds (V2 / G1) (V2 mod G1) G1). lia.
  - (* a coarser grid for the larger value *)
    assert (HE : E1 + 1 <= E2) by lia.
    assert (HE2v : E2 = Z.log2 V2 + 1 + 2 * emin - prec) by lia.
    transitivity (2 ^ prec * 2 ^ (E1 - emin)).
    + apply Z.mul_le_mono_nonneg_r; [lia|].
      assert (V1 / G1 < 2 ^ prec); [|lia].
      apply Z.div_lt_upper_bound; [lia|].
      unfold G1. rewrite <- Z.pow_add_r by lia.
      pose proof (pow2_le_mono (Z.succ (Z.log2 V1)) (E1 - 2 * emin + prec)
                    ltac:(lia)). lia.
    + transitivity (2 ^ (prec - 1) * 2 ^ (E2 - emin)).
      * rewrite <- !Z.pow_add_r by lia. apply pow2_le_mono. lia.
      * apply Z.mul_le_mono_nonneg_r; [lia|].
        assert (2 ^ (prec - 1) <= V2 / G2); [|lia].
        apply Z.div_le_lower_bound; [lia|].
        unfold G2. rewrite <- Z.pow_add_r by lia.
        replace (E2 - 2 * emin + (prec - 1)) with (Z.log2 V2) by lia. lia.
Qed.

Abbreviation valid := (SpecFloat.valid_binary prec emax).

Lemma valid_finite (s : bool) (m : positive) (e : Z) :
  valid (S754_finite s m e) = true ->
  emin <= e <= emax - prec
  /\ Z.pos (digits2_pos m) <= prec
  /\ (emin < e -> Z.pos (digits2_pos m) = prec).
Proof using Hprec Hemax.
  unfold SpecFloat.valid_binary, bounded, canonical_mantissa.
  intros H. apply andb_prop in H as [Hc Hb].
  apply Z.eqb_eq in Hc. apply Z.leb_le in Hb.
  unfold SpecFloat.fexp in Hc. lia.
Qed.

Lemma uval_nonneg (x : spec_float) : valid x = true -> 0 <= uval prec emax x.
Proof using Hprec Hemax.
  destruct x as [| | |s m e]; cbn [uval]; intros H; [lia | lia | lia |].
  apply (valid_finite s) in H as ([H _] & _).
  pose proof (pow2_pos (e - emin) ltac:(lia)). lia.
Qed.

Lemma uval_finite_pos (s : bool) (m : positive) (e : Z) :
  valid (S754_finite s m e) = true -> 0 < uval prec emax (S754_finite s m e).
Proof using Hprec Hemax.
  intros H. apply (valid_finite s) in H as ([H _] & _). cbn [uval].
  pose proof (pow2_pos (e - emin) ltac:(lia)). lia.
Qed.

(** The product of two finite numbers is the correctly rounded exact
    product: a zero on underflow, an infinity on overflow, and otherwise
    the finite number of that value. *)
Lemma SFmul_finite_cases (sx sy : bool) (mx my : positive) (ex ey : Z) :
  let x := S754_finite sx mx ex in
  let y := S754_finite sy my ey in
  let V := uval prec emax x * uval prec emax y in
  valid x = true -> valid y = true ->
  (RU prec emax V = 0 /\ SFmul prec emax x y = S754_zero (xorb sx sy))
  \/ (exists m e,
        SFmul prec emax x y = S754_finite (xorb sx sy) m e
        /\ valid (S754_finite (xorb sx sy) m e) = true
        /\ uval prec emax (S754_finite (xorb sx sy) m e) = RU prec emax V
        /\ 0 < RU prec emax V < overflow_bound prec emax)
  \/ (SFmul prec emax x y = S754_infinity (xorb sx sy)
      /\ overflow_bound prec emax <= RU prec emax V).
Proof using Hprec Hemax.
  intros x y V Hx Hy.
  pose proof (emin_neg) as Hem.
  apply (valid_finite sx) in Hx as ([Hx1 Hx2] & Hdx & Hnx).
  apply (valid_finite sy) in Hy as ([Hy1 Hy2] & Hdy & Hny).
  pose proof (digits2_pos_bounds mx) as Hbx.
  pose proof (digits2_pos_bounds my) as Hby.
  pose proof (digits2_pos_bounds (mx * my)) as Hb.
  set (dx := Z.pos (digits2_pos mx)) in *.
  set (dy := Z.pos (digits2_pos my)) in *.
  assert (1 <= dx) by (unfold dx; lia). assert (1 <= dy) by (unfold dy; lia).
  assert (Hdlow : dx + dy - 1 <= Z.pos (digits2_pos (mx * my))).
  { assert (dx + dy - 2 < Z.pos (digits2_pos (mx * my))); [|lia].
    apply pow2_lt_inv; [lia|].
    replace (dx + dy - 2) with ((dx - 1) + (dy - 1)) by lia.
    rewrite Z.pow_add_r by lia. rewrite Pos2Z.inj_mul in Hb.
    pose proof (pow2_pos (dx - 1) ltac:(lia)).
    pose proof (pow2_pos (dy - 1) ltac:(lia)). nia. }
  assert (Hn : 0 <= shift_of prec emax (mx * my) (ex + ey)).
  { unfold shift_of, SpecFloat.fexp.
    destruct (Z.eq_dec ex emin) as [Hxe|Hxe];
      [destruct (Z.eq_dec ey emin) as [Hye|Hye];
       [lia | specialize (Hny ltac:(lia)); lia]
      | specialize (Hnx ltac:(lia)); lia]. }
  destruct (binary_round_aux_exact (xorb sx sy) (mx * my) (ex + ey) Hn)
    as (Heq & Hq & HE & Hcanon).
  set (n := shift_of prec emax (mx * my) (ex + ey)) in *.
  set (q := rne (Z.pos (mx * my) / 2 ^ n) (Z.pos (mx * my) mod 2 ^ n) (2 ^ n)) in *.
  assert (HRU : q * 2 ^ (ex + ey + n - emin) = RU prec emax V).
  { unfold RU, V, x, y. cbn [uval].
    set (c := 2 ^ (ex + ey - 2 * emin)).
    assert (Hc : 0 < c) by (apply pow2_pos; lia).
    assert (HV : Z.pos mx * 2 ^ (ex - emin) * (Z.pos my * 2 ^ (ey - emin))
                 = Z.pos (mx * my) * c).
    { unfold c. replace (ex + ey - 2 * emin) with ((ex - emin) + (ey - emin)) by lia.
      rewrite Z.pow_add_r by lia. rewrite Pos2Z.inj_mul. ring. }
    rewrite HV.
    assert (Hlog : Z.log2 (Z.pos (mx * my) * c) + 1 + 2 * emin
                   = Z.pos (digits2_pos (mx * my)) + (ex + ey)).
    { unfold c. rewrite Z.log2_mul_pow2 by lia.
      rewrite digits2_pos_log2. lia. }
    rewrite Hlog.
    replace (fexp (Z.pos (digits2_pos (mx * my)) + (ex + ey)))
      with (n + (ex + ey)) by (unfold n, shift_of; lia).
    assert (HG : 2 ^ (n + (ex + ey) - 2 * emin) = 2 ^ n * c).
    { unfold c. rewrite <- Z.pow_add_r by lia. f_equal. lia. }
    rewrite HG.
    assert (H2n : 0 < 2 ^ n) by (apply pow2_pos; lia).
    rewrite Z.div_mul_cancel_r by lia.
    rewrite Z.mul_mod_distr_r by lia.
    rewrite rne_scale by lia. fold q.
    f_equal. f_equal. lia. }
  unfold SFmul, x, y. rewrite Heq.
  destruct (finished_cases (xorb sx sy) q (ex + ey + n) Hq HE Hcanon)
    as [[Hq0 Hz] | [(m & e & Hf & Hv & Hu & Hr) | [Hi Ho]]].
  - left. split; [|exact Hz]. rewrite <- HRU, Hq0. lia.
  - right; left. exists m, e. rewrite <- HRU. auto.
  - right; right. rewrite <- HRU. auto.
Qed.


Lemma overflow_bound_pos : 0 < overflow_bound prec emax.
Proof using Hprec Hemax.
  unfold overflow_bound. apply pow2_pos.
  unfold SpecFloat.emin. lia.
Qed.

(** A product of non-negative finite numbers that is finite is again
    non-negative. *)
Lemma SFmul_nonneg_inv (a c : spec_float) :
  nonneg_ext a = true -> nonneg_ext c = true ->
  nonneg (SFmul prec emax a c) = true ->
  nonneg a = true /\ nonneg c = true.
Proof using Hprec Hemax.
  destruct a as [sa|sa| |sa ma ea], c as [sc|sc| |sc mc ec];
    cbn [nonneg_ext nonneg SFmul]; intros Ha Hc H;
    try discriminate; auto.
Qed.

(** Multiplication by a non-negative number is monotone on the
    non-negative numbers, as long as the larger product does not
    overflow. *)
Lemma SFmul_nonneg_mono (a b c : spec_float) :
  valid a = true -> valid b = true -> valid c = true ->
  nonneg a = true -> nonneg b = true -> nonneg c = true ->
  uval prec emax a <= uval prec emax b ->
  nonneg (SFmul prec emax b c) = true ->
  nonneg (SFmul prec emax a c) = true
  /\ valid (SFmul prec emax a c) = true
  /\ uval prec emax (SFmul prec emax a c) <= uval prec emax (SFmul prec emax b c).
Proof using Hprec Hemax.
  intros Va Vb Vc Na Nb Nc Hab Hbc.
  pose proof overflow_bound_pos as Hob.
  assert (Hu : forall x, 0 <= uval prec emax x).
  { intros [| | |s m e]; cbn [uval]; lia. }
  destruct a as [sa|sa| |sa ma ea]; try discriminate Na.
  { destruct c as [sc|sc| |sc mc ec]; try discriminate Nc;
      cbn [SFmul nonneg uval SpecFloat.valid_binary];
      (split; [reflexivity | split; [reflexivity | apply Hu]]). }
  destruct c as [sc|sc| |sc mc ec]; try discriminate Nc.
  { destruct b as [sb|sb| |sb mb eb]; try discriminate Nb;
      cbn [SFmul nonneg uval SpecFloat.valid_binary];
      (split; [reflexivity | split; [reflexivity | lia]]). }
  pose proof (uval_finite_pos sa ma ea Va) as Hpa.
  pose proof (uval_finite_pos sc mc ec Vc) as Hpc.
  destruct b as [sb|sb| |sb mb eb]; try discriminate Nb.
  { cbn [uval] in Hab, Hpa. lia. }
  pose proof (RU_mono (uval prec emax (S754_finite sa ma ea) * uval prec emax (S754_finite sc mc ec))
                (uval prec emax (S754_finite sb mb eb) * uval prec emax (S754_finite sc mc ec))
                ltac:(nia)) as Hmono.
  cbn [nonneg] in Na, Nb, Nc.
  destruct sa, sb, sc; try discriminate.
  destruct (SFmul_finite_cases false false mb mc eb ec Vb Vc)
    as [[Hb0 Hbz] | [(m2 & e2 & Hbf & Hbv & Hbu & Hbr) | [Hbi _]]];
    [| |rewrite Hbi in Hbc; discriminate Hbc];
    destruct (SFmul_finite_cases false false ma mc ea ec Va Vc)
      as [[Ha0 Haz] | [(m1 & e1 & Haf & Hav & Hau & Har) | [Hai Hao]]];
    try lia.
  - rewrite Haz, Hbz. cbn. auto with zarith.
  - rewrite Haz, Hbf. cbn [nonneg xorb negb uval SpecFloat.valid_binary].
    split; [reflexivity | split; [reflexivity | apply (Hu (S754_finite false m2 e2))]].
  - rewrite Haf, Hbf. split; [reflexivity|]. split; [exact Hav|].
    rewrite Hau, Hbu. exact Hmono.
Qed.

Lemma canonical_lt (s1 s2 : bool) (m1 m2 : positive) (e1 e2 : Z) :
  valid (S754_finite s1 m1 e1) = true ->
  valid (S754_finite s2 m2 e2) = true ->
  e1 < e2 ->
  uval prec emax (S754_finite s1 m1 e1) < uval prec emax (S754_finite s2 m2 e2).
Proof using Hprec Hemax.
  intros H1 H2 Hlt.
  apply (valid_finite s1) in H1 as ([H1a H1b] & Hd1 & _).
  apply (valid_finite s2) in H2 as ([H2a H2b] & Hd2 & Hn2).
  specialize (Hn2 ltac:(lia)).
  pose proof (digits2_pos_bounds m1) as Hb1.
  pose proof (digits2_pos_bounds m2) as Hb2.
  rewrite Hn2 in Hb2. cbn [uval].
  assert (Z.pos m1 < 2 ^ prec).
  { pose proof (pow2_le_mono (Z.pos (digits2_pos m1)) prec ltac:(lia)). lia. }
  pose proof (pow2_pos (e1 - emin) ltac:(lia)).
  pose proof (pow2_pos (e2 - emin) ltac:(lia)).
  assert (Z.pos m1 * 2 ^ (e1 - emin) < 2 ^ prec * 2 ^ (e1 - emin)) by nia.
  assert (2 ^ (prec - 1) * 2 ^ (e2 - emin) <= Z.pos m2 * 2 ^ (e2 - emin)) by nia.
  rewrite <- Z.pow_add_r in * by lia.
  pose proof (pow2_le_mono (prec + (e1 - emin)) (prec - 1 + (e2 - emin))
                ltac:(lia)).
  lia.
Qed.

(** The order of the format agrees with the order of the values. *)
Lemma SFleb_nonneg (a b : spec_float) :
  valid a = true -> valid b = true ->
  SFleb (S754_zero false) a = true -> SFleb a b = true ->
  nonneg_ext a = true /\ nonneg_ext b = true
  /\ (nonneg b = true -> nonneg a = true /\ uval prec emax a <= uval prec emax b).
Proof using Hprec Hemax.
  intros Va Vb H0 Hab.
  assert (Hu : forall x, 0 <= uval prec emax x).
  { intros [| | |s m e]; cbn [uval]; lia. }
  destruct a as [sa|sa| |sa ma ea]; try discriminate H0.
  - destruct b as [sb|sb| |sb mb eb]; try discriminate Hab.
    + cbn. auto with zarith.
    + destruct sb; [discriminate Hab|]. cbn. split; [reflexivity|].
      split; [reflexivity|]. discriminate.
    + destruct sb; [discriminate Hab|]. cbn [nonneg_ext nonneg negb uval].
      split; [reflexivity|]. split; [reflexivity|]. intros _.
      split; [reflexivity | apply (Hu (S754_finite false mb eb))].
  - destruct sa; [discriminate H0|].
    destruct b as [sb|sb| |sb mb eb]; try discriminate Hab.
    destruct sb; [discriminate Hab|]. cbn. split; [reflexivity|].
    split; [reflexivity|]. discriminate.
  - destruct sa; [discriminate H0|].
    destruct b as [sb|sb| |sb mb eb]; try discriminate Hab.
    + destruct sb; [discriminate Hab|]. cbn. split; [reflexivity|].
      split; [reflexivity|]. discriminate.
    + destruct sb; [discriminate Hab|].
      cbn [nonneg_ext nonneg negb].
      split; [reflexivity|]. split; [reflexivity|]. intros _.
      split; [reflexivity|].
      unfold SFleb, SFcompare in Hab.
      destruct (Z.compare_spec ea eb) as [Heq|Hlt|Hgt].
      * subst eb. cbn [uval].
        change (Pos.compare_cont Eq ma mb) with (Pos.compare ma mb) in Hab.
        destruct (Pos.compare_spec ma mb) as [Hm|Hm|Hm];
          try discriminate Hab.
        -- subst. lia.
        -- assert (0 <= 2 ^ (ea - emin)) by lia.
           apply Z.mul_le_mono_nonneg_r; lia.
      * pose proof (canonical_lt false false ma mb ea eb Va Vb Hlt). lia.
      * discriminate Hab.
Qed.


Lemma digits2_pos_iter_xO (m d : positive) :
  Z.pos (digits2_pos (Pos.iter xO m d)) = Z.pos (digits2_pos m) + Z.pos d.
Proof using Hprec Hemax.
  induction d as [|d IH] using Pos.peano_ind.
  - cbn [Pos.iter digits2_pos]. lia.
  - rewrite Pos.iter_succ. cbn [digits2_pos]. lia.
Qed.

(** [binary_round] ends in [finished prec emax], on a mantissa and exponent that
    meet the conditions of [finished_cases]. *)
Lemma binary_round_finished (s : bool) (m : positive) (e : Z) :
  exists q E,
    binary_round prec emax s m e = finished prec emax s q E
    /\ 0 <= q <= 2 ^ prec /\ emin <= E
    /\ (q < 2 ^ (prec - 1) -> E = emin).
Proof using Hprec Hemax.
  unfold binary_round, shl_align.
  destruct (fexp (Z.pos (digits2_pos m) + e) - e) as [|p|p] eqn:Hs.
  - assert (Hn : 0 <= shift_of prec emax m e) by (unfold shift_of; lia).
    destruct (binary_round_aux_exact s m e Hn) as (Heq & Hrest).
    eauto.
  - assert (Hn : 0 <= shift_of prec emax m e) by (unfold shift_of; lia).
    destruct (binary_round_aux_exact s m e Hn) as (Heq & Hrest).
    eauto.
  - assert (Hn : 0 <= shift_of prec emax (Pos.iter xO m p)
                         (fexp (Z.pos (digits2_pos m) + e))).
    { unfold shift_of. rewrite digits2_pos_iter_xO.
      replace (Z.pos (digits2_pos m) + Z.pos p
               + fexp (Z.pos (digits2_pos m) + e))
        with (Z.pos (digits2_pos m) + e) by lia.
      lia. }
    destruct (binary_round_aux_exact s (Pos.iter xO m p)
                (fexp (Z.pos (digits2_pos m) + e)) Hn) as (Heq & Hrest).
    eauto.
Qed.

(** The nearest number to an integer: valid, and not negative when the
    integer is not. *)
Lemma binary_normalize_valid (z : Z) :
  valid (binary_normalize prec emax z 0 false) = true
  /\ (0 <= z -> nonneg_ext (binary_normalize prec emax z 0 false) = true).
Proof using Hprec Hemax.
  destruct z as [|m|m]; cbn [binary_normalize].
  - split; reflexivity.
  - destruct (binary_round_finished false m 0) as (q & E & -> & Hq & HE & Hc).
    destruct (finished_cases false q E Hq HE Hc)
      as [[_ ->] | [(m' & e' & -> & Hv & _) | [-> _]]];
      split; try reflexivity; try exact Hv.
  - destruct (binary_round_finished true m 0) as (q & E & -> & Hq & HE & Hc).
    destruct (finished_cases true q E Hq HE Hc)
      as [[_ ->] | [(m' & e' & -> & Hv & _) | [-> _]]];
      split; try reflexivity; try exact Hv; lia.
Qed.

(** Multiplying a finite number by one returns it. *)
Lemma SFmul_one (s : bool) (m one : positive) (e : Z) :
  Z.pos one = 2 ^ (prec - 1) ->
  valid (S754_finite s m e) = true ->
  SFmul prec emax (S754_finite s m e) (S754_finite false one (1 - prec))
  = S754_finite s m e.
Proof using Hprec Hemax.
  intros Hone Hv.
  apply (valid_finite s) in Hv as ([He1 He2] & Hd & Hnorm).
  pose proof (digits2_pos_bounds m) as Hb.
  assert (Hcan : fexp (Z.pos (digits2_pos m) + e) = e).
  { unfold SpecFloat.fexp.
    destruct (Z.eq_dec e emin); [lia | specialize (Hnorm ltac:(lia)); lia]. }
  assert (Hm1 : Z.pos (m * one) = Z.pos m * 2 ^ (prec - 1))
    by (rewrite Pos2Z.inj_mul, Hone; reflexivity).
  assert (Hdig : Z.pos (digits2_pos (m * one))
                 = Z.pos (digits2_pos m) + (prec - 1)).
  { rewrite !digits2_pos_log2, Hm1, Z.log2_mul_pow2 by lia. lia. }
  assert (Hsh : shift_of prec emax (m * one) (e + (1 - prec)) = prec - 1).
  { unfold shift_of. rewrite Hdig.
    replace (Z.pos (digits2_pos m) + (prec - 1) + (e + (1 - prec)))
      with (Z.pos (digits2_pos m) + e) by lia.
    lia. }
  cbn [SFmul].
  assert (Hn : 0 <= shift_of prec emax (m * one) (e + (1 - prec))) by (rewrite Hsh; lia).
  destruct (binary_round_aux_exact (xorb s false) (m * one) (e + (1 - prec))
              Hn) as (Heq & _).
  rewrite Heq, Hsh, Hm1.
  pose proof (pow2_pos (prec - 1) ltac:(lia)) as Hpp.
  rewrite Z.div_mul, Z.mod_mul by lia.
  rewrite rne_exact by lia.
  replace (e + (1 - prec) + (prec - 1)) with e by lia.
  unfold finished.
  destruct (Z.eqb_spec (Z.pos m) 0); [lia|].
  assert (Z.pos m < 2 ^ prec).
  { pose proof (pow2_le_mono (Z.pos (digits2_pos m)) prec ltac:(lia)). lia. }
  destruct (Z.eqb_spec (Z.pos m) (2 ^ prec)); [lia|].
  destruct (Z.leb_spec e (emax - prec)); [|lia].
  cbn [Z.to_pos]. rewrite xorb_false_r. reflexivity.
Qed.

End Rounding.

(** ** Binary64 *)

Lemma prec_gt_1 : 1 < prec.
Proof. reflexivity. Qed.

Lemma prec_lt_emax : prec < emax.
Proof. reflexivity. Qed.

Lemma of_int_SF (z : Z) :
  Prim2SF (GoFloat.of_int z) = binary_normalize prec emax z 0 false.
Proof.
  unfold GoFloat.of_int. apply Prim2SF_SF2Prim.
  apply (binary_normalize_valid prec emax prec_gt_1 prec_lt_emax).
Qed.

Lemma of_int_nonneg (z : Z) :
  0 <= z -> nonneg_ext (Prim2SF (GoFloat.of_int z)) = true.
Proof.
  intros Hz. rewrite of_int_SF.
  apply (binary_normalize_valid prec emax prec_gt_1 prec_lt_emax). exact Hz.
Qed.

Lemma emin64 : SpecFloat.emin prec emax = -1074.
Proof. reflexivity. Qed.

Lemma trunc_nonneg (f : float) :
  nonneg (Prim2SF f) = true ->
  GoFloat.trunc f = Some (uval prec emax (Prim2SF f) / 2 ^ 1074).
Proof.
  unfold GoFloat.trunc. pose proof (Prim2SF_valid f) as Hv.
  destruct (Prim2SF f) as [s|s| |s m e]; try discriminate.
  - intros _. reflexivity.
  - cbn [nonneg]. intros Hs. destruct s; [discriminate|].
    apply (valid_finite prec emax prec_gt_1 prec_lt_emax false) in Hv as ([He _] & _).
    cbn [uval]. rewrite emin64 in *. f_equal.
    destruct (Z.leb_spec 0 e).
    + assert (Hpow : 2 ^ (e - -1074) = 2 ^ e * 2 ^ 1074).
      { rewrite <- Z.pow_add_r by lia. f_equal; lia. }
      rewrite Hpow, Z.mul_assoc.
      rewrite Z.div_mul; [reflexivity|].
      pose proof (pow2_pos 1074 ltac:(lia)). lia.
    + assert (Hpow : 2 ^ 1074 = 2 ^ (- e) * 2 ^ (e - -1074)).
      { rewrite <- Z.pow_add_r by lia. f_equal; lia. }
      rewrite Hpow.
      pose proof (pow2_pos (e - -1074) ltac:(lia)).
      pose proof (pow2_pos (- e) ltac:(lia)).
      rewrite Z.div_mul_cancel_r by lia. reflexivity.
Qed.

Lemma SFleb_zero_nonneg (a : spec_float) :
  SFleb (S754_zero false) a = true -> nonneg_ext a = true.
Proof.
  destruct a as [s|s| |s m e]; try discriminate; try reflexivity;
    destruct s; try discriminate; reflexivity.
Qed.

(** A product of non-negative numbers is not negative: it is a
    non-negative number, plus infinity, or not a number. *)
Lemma SFmul_nonneg_ext (a c : spec_float) :
  valid_binary a = true -> valid_binary c = true ->
  nonneg_ext a = true -> nonneg_ext c = true ->
  SF64mul a c = S754_nan \/ nonneg_ext (SF64mul a c) = true.
Proof.
  intros Va Vc Na Nc. unfold SF64mul.
  destruct a as [sa|sa| |sa ma ea], c as [sc|sc| |sc mc ec];
    try discriminate Na; try discriminate Nc;
    cbn [nonneg_ext] in Na, Nc;
    try (left; reflexivity);
    try (right; cbn [SFmul nonneg_ext]; destruct sa, sc; try discriminate; reflexivity).
  right. destruct sa, sc; try discriminate.
  destruct (SFmul_finite_cases prec emax prec_gt_1 prec_lt_emax
              false false ma mc ea ec Va Vc)
    as [[_ ->] | [(m & e & -> & _) | [-> _]]]; reflexivity.
Qed.

Section BarHeight.

Variable unrep : float -> Z.
Variable cfg : Config.

Lemma bar_height_scaled (midline : Z) (x : float) :
  bar_height unrep cfg midline x
  = Z.min (GoFloat.to_int unrep (scaled cfg midline x)) (midline - 1).
Proof. reflexivity. Qed.

Lemma to_int_representable (f : float) (z : Z) :
  GoFloat.trunc f = Some z -> GoInt.min_int <= z <= GoInt.max_int ->
  GoFloat.to_int unrep f = z.
Proof.
  intros Ht Hz. unfold GoFloat.to_int. rewrite Ht.
  destruct (Z.leb_spec GoInt.min_int z); [|lia].
  destruct (Z.leb_spec z GoInt.max_int); [|lia]. reflexivity.
Qed.

Lemma scaled_monotone (midline : Z) (x y : float) :
  1 <= midline ->
  (0 <=? Amplify cfg)%float = true ->
  (0 <=? x)%float = true -> (x <=? y)%float = true ->
  representable (scaled cfg midline y) ->
  GoFloat.to_int unrep (scaled cfg midline x)
  <= GoFloat.to_int unrep (scaled cfg midline y).
Proof.
  intros Hmid HA Hx Hxy (z & Htr & Hz).
  rewrite leb_spec in HA, Hx, Hxy.
  change (Prim2SF 0) with (S754_zero false) in HA, Hx.
  pose proof (Prim2SF_valid x) as Vx. pose proof (Prim2SF_valid y) as Vy.
  pose proof (Prim2SF_valid (Amplify cfg)) as VA.
  pose proof (Prim2SF_valid (GoFloat.of_int (midline - 1))) as VM.
  pose proof (Prim2SF_valid (x * Amplify cfg)) as V1x.
  pose proof (Prim2SF_valid (y * Amplify cfg)) as V1y.
  destruct (SFleb_nonneg prec emax prec_gt_1 prec_lt_emax _ _ Vx Vy Hx Hxy)
    as (Nx & Ny & Hord).
  pose proof (SFleb_zero_nonneg _ HA) as NA.
  pose proof (of_int_nonneg (midline - 1) ltac:(lia)) as NM.
  (* the larger scaled value is a finite non-negative number *)
  assert (H2y : nonneg (Prim2SF (scaled cfg midline y)) = true
                /\ nonneg_ext (Prim2SF (y * Amplify cfg)) = true).
  { unfold scaled in *. unfold GoFloat.trunc in Htr.
    rewrite mul_spec in Htr |- *. rewrite mul_spec in Htr |- *.
    destruct (SFmul_nonneg_ext _ _ Vy VA Ny NA) as [Hnan|N1].
    { rewrite Hnan in Htr. cbn in Htr. discriminate Htr. }
    split; [|exact N1].
    rewrite mul_spec in V1y.
    destruct (SFmul_nonneg_ext _ _ V1y VM N1 NM) as [Hnan|N2].
    { rewrite Hnan in Htr. discriminate Htr. }
    destruct (SF64mul (SF64mul (Prim2SF y) (Prim2SF (Amplify cfg)))
                (Prim2SF (GoFloat.of_int (midline - 1))))
      as [s|s| |s m e]; try discriminate Htr; try exact N2; reflexivity. }
  destruct H2y as [N2y N1y'].
  assert (Hsy : Prim2SF (scaled cfg midline y)
                = SFmul prec emax (Prim2SF (y * Amplify cfg))
                    (Prim2SF (GoFloat.of_int (midline - 1))))
    by (unfold scaled; apply mul_spec).
  assert (Hsx : Prim2SF (scaled cfg midline x)
                = SFmul prec emax (Prim2SF (x * Amplify cfg))
                    (Prim2SF (GoFloat.of_int (midline - 1))))
    by (unfold scaled; apply mul_spec).
  rewrite Hsy in N2y.
  destruct (SFmul_nonneg_inv prec emax prec_gt_1 prec_lt_emax _ _ N1y' NM N2y) as [N1y NMf].
  pose proof N1y as N1y2. rewrite mul_spec in N1y2.
  destruct (SFmul_nonneg_inv prec emax prec_gt_1 prec_lt_emax _ _ Ny NA N1y2) as [Nyf NAf].
  destruct (Hord Nyf) as [Nxf Hle].
  destruct (SFmul_nonneg_mono prec emax prec_gt_1 prec_lt_emax
              _ _ _ Vx Vy VA Nxf Nyf NAf Hle N1y2) as (N1x & _ & Hle1).
  rewrite <- !mul_spec in Hle1. rewrite <- mul_spec in N1x.
  destruct (SFmul_nonneg_mono prec emax prec_gt_1 prec_lt_emax
              _ _ _ V1x V1y VM N1x N1y NMf Hle1 N2y) as (N2x & _ & Hle2).
  rewrite <- Hsx in N2x, Hle2. rewrite <- Hsy in N2y, Hle2.
  pose proof (trunc_nonneg _ N2x) as Htx.
  pose proof (trunc_nonneg _ N2y) as Hty.
  rewrite Htr in Hty. injection Hty as Hzy.
  pose proof (uval_nonneg prec emax prec_gt_1 prec_lt_emax _ (Prim2SF_valid (scaled cfg midline x))) as H0.
  assert (Hp : 0 < 2 ^ 1074) by (apply pow2_pos; lia).
  pose proof (Z.div_le_mono _ _ (2 ^ 1074) Hp Hle2) as Hdiv.
  pose proof (Z.div_pos _ (2 ^ 1074) H0 Hp) as Hdiv0.
  rewrite (to_int_representable _ _ Htr Hz).
  rewrite (to_int_representable _ _ Htx);
    [lia | unfold GoInt.min_int; lia].
Qed.

End BarHeight.

(** C7, as the code has it.  For every configuration whose height is an
    integer of the machine: a glyph is drawn in a column only when its bar
    height is positive, the bar height is at most [midline - 1], and the
    rows drawn lie within [midline - 1] rows of the midline on either side.
    For a configuration of height at least 2 (so that [midline - 1] is not
    negative) and a non-negative amplification, the bar height is monotone
    in the non-negative smoothed value, as long as the scaled value of the
    larger one can be converted to an integer. *)
Theorem bar_height_monotone_bounded (unrep : float -> Z) (cfg : Config) :
  let midline := Z.quot (Height cfg) 2 in
  Height cfg <= GoInt.max_int ->
  (forall (v : float) (row : Z),
      glyph_at midline (bar_height unrep cfg midline v) row = true ->
      0 < bar_height unrep cfg midline v <= midline - 1
      /\ midline - (midline - 1) <= row <= midline + (midline - 1))
  /\ (2 <= Height cfg ->
      (0 <=? Amplify cfg)%float = true ->
      forall x y : float,
        (0 <=? x)%float = true -> (x <=? y)%float = true ->
        representable (scaled cfg midline y) ->
        bar_height unrep cfg midline x <= bar_height unrep cfg midline y).
Proof.
  intros midline Hmax. split.
  - intros v row Hg.
    pose proof (Z.le_min_r
                  (GoFloat.to_int unrep (scaled cfg midline v)) (midline - 1))
      as Hclamp.
    rewrite <- bar_height_scaled in Hclamp.
    set (h := bar_height unrep cfg midline v) in *.
    unfold glyph_at in Hg.
    apply andb_prop in Hg as [Hg Hpos]. apply andb_prop in Hg as [Hlo Hhi].
    apply Z.ltb_lt in Hpos. apply Z.leb_le in Hlo, Hhi.
    assert (HH : 0 <= Height cfg).
    { destruct (Z_lt_le_dec (Height cfg) 0) as [Hneg|]; [|assumption].
      assert (midline <= 0); [|lia].
      unfold midline. apply Z.quot_le_upper_bound; lia. }
    assert (H2 : 2 * midline <= Height cfg).
    { unfold midline. rewrite Z.quot_div_nonneg by lia.
      apply Z.mul_div_le. lia. }
    unfold GoInt.sub, GoInt.add in Hlo, Hhi.
    rewrite wrap64_id in Hlo by (unfold GoInt.min_int, GoInt.max_int in *; lia).
    rewrite wrap64_id in Hhi by (unfold GoInt.min_int, GoInt.max_int in *; lia).
    lia.
  - intros HH HA x y Hx Hxy Hrep.
    rewrite !bar_height_scaled.
    apply Z.min_le_compat_r.
    apply scaled_monotone; try assumption.
    unfold midline. rewrite Z.quot_div_nonneg by lia.
    apply Z.div_le_lower_bound; lia.
Qed.

Lemma bar_height_monotone_bounded_witness :
  bar_height (fun _ => 0) DefaultConfig 6 0.25%float
  <= bar_height (fun _ => 0) DefaultConfig 6 0.5%float.
Proof.
  destruct (bar_height_monotone_bounded (fun _ => 0) DefaultConfig)
    as [_ Hmono]; [vm_compute; discriminate|].
  apply Hmono; try reflexivity.
  - vm_compute. discriminate.
  - exists 6. split; [reflexivity | vm_compute; split; discriminate].
Defined.

(** C7 as worded fails for a canvas of height 1: there [midline - 1] is
    [-1], the scaled value and with it the bar height decreases as the
    smoothed value grows, from [-1] at 0 to [-2] at 1 with the default
    amplification 2.5. *)
Lemma bar_height_not_monotone_height_1 :
  ~ (forall (unrep : float -> Z) (cfg : Config) (x y : float),
        (0 <=? x)%float = true -> (x <=? y)%float = true ->
        bar_height unrep cfg (Z.quot (Height cfg) 2) x
        <= bar_height unrep cfg (Z.quot (Height cfg) 2) y).
Proof.
  intros H.
  specialize (H (fun _ => 0)
                (mkConfig 60 1 44100 1024 30 0.9%float "|" 1 2.5%float true)
                0%float 1%float eq_refl eq_refl).
  vm_compute in H. apply H. reflexivity.
Qed.

(** ** Smoothing with factor 0 and factor 1 *)

Lemma Prim2SF_zero : Prim2SF 0 = S754_zero false.
Proof. reflexivity. Qed.

Lemma Prim2SF_one : Prim2SF 1 = S754_finite false 4503599627370496 (1 - prec).
Proof. reflexivity. Qed.

Lemma smooth_value_zero (w : float) :
  finite_value w = true -> smooth_value 0 0 w = 0%float.
Proof.
  unfold finite_value, smooth_value. intros Hw.
  change (0 * (1 - 0))%float with 0%float.
  apply Prim2SF_inj. rewrite add_spec, mul_spec, Prim2SF_zero.
  unfold SF64add, SF64mul.
  destruct (Prim2SF w) as [s|s| |s m e]; try discriminate Hw;
    destruct s; reflexivity.
Qed.

Lemma smooth_value_one (s w : float) :
  finite_value s = true -> profile_value w = true ->
  smooth_value 1 s w = w.
Proof.
  unfold finite_value, profile_value, smooth_value. intros Hs Hw.
  change (1 - 1)%float with 0%float.
  apply Prim2SF_inj. rewrite add_spec, !mul_spec, Prim2SF_zero, Prim2SF_one.
  unfold SF64add, SF64mul.
  pose proof (Prim2SF_valid w) as Vw.
  destruct (Prim2SF w) as [sw|sw| |sw mw ew]; try discriminate Hw.
  - destruct sw; [discriminate Hw|].
    destruct (Prim2SF s) as [ss|ss| |ss ms es]; try discriminate Hs;
      destruct ss; reflexivity.
  - rewrite (SFmul_one prec emax prec_gt_1 prec_lt_emax sw mw
               4503599627370496 ew eq_refl Vw).
    destruct (Prim2SF s) as [ss|ss| |ss ms es]; try discriminate Hs;
      reflexivity.
Qed.

Lemma index_app_here {A : Type} (pre cur : list A) (c : A) :
  index (pre ++ c :: cur) (len pre) = Some c.
Proof.
  unfold index, len. destruct (Z.ltb_spec (Z.of_nat (length pre)) 0); [lia|].
  rewrite Nat2Z.id. apply list_lookup_middle. reflexivity.
Qed.

Lemma assign_app_here {A : Type} (pre cur : list A) (c x : A) :
  assign (pre ++ c :: cur) (len pre) x = Some (pre ++ x :: cur).
Proof.
  unfold assign. rewrite index_app_here. cbn [mbind option_bind].
  unfold len. rewrite Nat2Z.id. f_equal.
  rewrite insert_app_r_alt by lia.
  replace (length pre - length pre)%nat with 0%nat by lia. reflexivity.
Qed.

(** The smoothing loop applies the recurrence to every element. *)
Lemma smooth_from_spec (alpha : float) (ws : list float) :
  forall pre cur : list float,
    length cur = length ws ->
    smooth_from alpha (len pre) ws (pre ++ cur)
    = Some (pre ++ zip_with (smooth_value alpha) cur ws).
Proof.
  induction ws as [|w ws IH]; intros pre cur Hlen.
  - destruct cur; [|discriminate Hlen]. reflexivity.
  - destruct cur as [|c cur]; [discriminate Hlen|].
    cbn [smooth_from zip_with].
    rewrite index_app_here. cbn [mbind option_bind].
    rewrite assign_app_here. cbn [mbind option_bind].
    replace (len pre + 1) with (len (pre ++ [smooth_value alpha c w]))
      by (unfold len; rewrite length_app; cbn [length]; lia).
    replace (pre ++ smooth_value alpha c w :: cur)
      with ((pre ++ [smooth_value alpha c w]) ++ cur)
      by (rewrite <- app_assoc; reflexivity).
    rewrite IH by (injection Hlen; auto).
    rewrite <- app_assoc. reflexivity.
Qed.

Lemma smooth_spec (alpha : float) (raw smoothed : list float) :
  length raw = length smoothed ->
  smooth alpha raw smoothed
  = Some (zip_with (smooth_value alpha) smoothed raw).
Proof.
  intros Hlen. unfold smooth.
  exact (smooth_from_spec alpha raw [] smoothed (eq_sym Hlen)).
Qed.

Lemma smooth_zero_step (n : nat) (raw : list float) :
  length raw = n -> Forall (fun w => finite_value w = true) raw ->
  smooth 0 raw (repeat 0%float n) = Some (repeat 0%float n).
Proof.
  intros Hlen Hfin. rewrite smooth_spec by (rewrite repeat_length; exact Hlen).
  f_equal. subst n. induction Hfin as [|w raw Hw _ IH]; [reflexivity|].
  cbn [length repeat zip_with]. rewrite (smooth_value_zero w Hw), IH.
  reflexivity.
Qed.

Lemma smooth_one_step (raw smoothed : list float) :
  length raw = length smoothed ->
  Forall (fun w => profile_value w = true) raw ->
  Forall (fun s => finite_value s = true) smoothed ->
  smooth 1 raw smoothed = Some raw.
Proof.
  intros Hlen Hraw Hsm. rewrite smooth_spec by exact Hlen. f_equal.
  revert smoothed Hlen Hsm.
  induction Hraw as [|w raw Hw _ IH]; intros [|s smoothed] Hlen Hsm;
    try discriminate Hlen; [reflexivity|].
  inversion Hsm as [|? ? Hs Hsm']; subst.
  cbn [zip_with]. rewrite (smooth_value_one s w Hs Hw).
  rewrite IH by (try (injection Hlen; auto); assumption). reflexivity.
Qed.

(** ** The column reducer produces finite values *)

Lemma iter_xO_value (m d : positive) :
  Z.pos (Pos.iter xO m d) = Z.pos m * 2 ^ Z.pos d.
Proof.
  induction d as [|d IH] using Pos.peano_ind.
  - cbn [Pos.iter]. lia.
  - rewrite Pos.iter_succ, Pos2Z.inj_xO, IH, Pos2Z.inj_succ.
    rewrite Z.pow_succ_r by lia. ring.
Qed.

Lemma shl_align_value (m : positive) (e e' : Z) :
  e' <= e ->
  Z.pos (fst (shl_align m e e')) = Z.pos m * 2 ^ (e - e')
  /\ snd (shl_align m e e') = e'.
Proof.
  intros Hle. unfold shl_align.
  destruct (e' - e) as [|p|p] eqn:Hd; try lia.
  - cbn [fst snd]. replace (e - e') with 0 by lia.
    rewrite Z.pow_0_r. lia.
  - cbn [fst snd]. rewrite iter_xO_value.
    replace (e - e') with (Z.pos p) by lia. auto.
Qed.

Section RoundingSums.

Variables prec emax : Z.
Hypothesis Hprec : 1 < prec.
Hypothesis Hemax : prec < emax.

Abbreviation emin := (SpecFloat.emin prec emax).
Abbreviation fexp := (SpecFloat.fexp prec emax).
Abbreviation valid := (SpecFloat.valid_binary prec emax).

Lemma binary_round_aux_rounds (s : bool) (m : positive) (e : Z) :
  0 <= shift_of prec emax m e -> 2 * emin <= e ->
  rounds_to prec emax s (Z.pos m * 2 ^ (e - 2 * emin))
    (binary_round_aux prec emax s (Z.pos m) e loc_Exact).
Proof using Hprec Hemax.
  intros Hn He.
  pose proof (emin_neg prec emax Hprec Hemax) as Hem.
  destruct (binary_round_aux_exact prec emax Hprec Hemax s m e Hn)
    as (Heq & Hq & HE & Hcanon).
  set (n := shift_of prec emax m e) in *.
  set (q := rne (Z.pos m / 2 ^ n) (Z.pos m mod 2 ^ n) (2 ^ n)) in *.
  assert (HRU : q * 2 ^ (e + n - emin) = RU prec emax (Z.pos m * 2 ^ (e - 2 * emin))).
  { unfold RU.
    set (c := 2 ^ (e - 2 * emin)).
    assert (Hc : 0 < c) by (apply pow2_pos; lia).
    assert (Hlog : Z.log2 (Z.pos m * c) + 1 + 2 * emin
                   = Z.pos (digits2_pos m) + e).
    { unfold c. rewrite Z.log2_mul_pow2 by lia.
      rewrite digits2_pos_log2. lia. }
    rewrite Hlog.
    replace (fexp (Z.pos (digits2_pos m) + e))
      with (n + e) by (unfold n, shift_of; lia).
    assert (HG : 2 ^ (n + e - 2 * emin) = 2 ^ n * c).
    { unfold c. rewrite <- Z.pow_add_r by lia. f_equal; lia. }
    rewrite HG.
    assert (H2n : 0 < 2 ^ n) by (apply pow2_pos; lia).
    rewrite Z.div_mul_cancel_r by lia.
    rewrite Z.mul_mod_distr_r by lia.
    rewrite rne_scale by lia. fold q.
    f_equal. f_equal; lia. }
  rewrite Heq. unfold rounds_to. rewrite <- HRU.
  destruct (finished_cases prec emax Hprec Hemax s q (e + n) Hq HE Hcanon)
    as [[Hq0 Hz] | [(m' & e' & Hf & Hv & Hu & Hr) | [Hi Ho]]].
  - left. split; [rewrite Hq0; lia | exact Hz].
  - right; left. exists m', e'. auto.
  - right; right. auto.
Qed.

Lemma binary_round_rounds (s : bool) (m : positive) (e : Z) :
  2 * emin <= e ->
  rounds_to prec emax s (Z.pos m * 2 ^ (e - 2 * emin)) (binary_round prec emax s m e).
Proof using Hprec Hemax.
  intros He. pose proof (emin_neg prec emax Hprec Hemax) as Hem.
  unfold binary_round, shl_align.
  destruct (fexp (Z.pos (digits2_pos m) + e) - e) as [|p|p] eqn:Hs.
  - apply binary_round_aux_rounds; [unfold shift_of; lia | exact He].
  - apply binary_round_aux_rounds; [unfold shift_of; lia | exact He].
  - pose proof (fexp_ge_emin prec emax Hprec Hemax (Z.pos (digits2_pos m) + e)) as Hf.
    replace (Z.pos m * 2 ^ (e - 2 * emin))
      with (Z.pos (Pos.iter xO m p)
            * 2 ^ (fexp (Z.pos (digits2_pos m) + e) - 2 * emin)).
    + apply binary_round_aux_rounds; [|lia].
      unfold shift_of. rewrite (digits2_pos_iter_xO prec emax Hprec Hemax).
      replace (Z.pos (digits2_pos m) + Z.pos p
               + fexp (Z.pos (digits2_pos m) + e))
        with (Z.pos (digits2_pos m) + e) by lia.
      lia.
    + rewrite iter_xO_value.
      replace (e - 2 * emin)
        with (Z.pos p + (fexp (Z.pos (digits2_pos m) + e) - 2 * emin)) by lia.
      rewrite (Z.pow_add_r 2 (Z.pos p)) by lia. ring.
Qed.

(** The sum of two positive finite numbers is the correctly rounded exact
    sum. *)
Lemma SFadd_finite_rounds (m1 m2 : positive) (e1 e2 : Z) :
  let x := S754_finite false m1 e1 in
  let y := S754_finite false m2 e2 in
  valid x = true -> valid y = true ->
  rounds_to prec emax false ((uval prec emax x + uval prec emax y) * 2 ^ (- emin))
    (SFadd prec emax x y).
Proof using Hprec Hemax.
  intros x y Vx Vy. pose proof (emin_neg prec emax Hprec Hemax) as Hem.
  apply (valid_finite prec emax Hprec Hemax false) in Vx as ([Hx1 _] & _).
  apply (valid_finite prec emax Hprec Hemax false) in Vy as ([Hy1 _] & _).
  unfold x, y. cbn [SFadd cond_Zopp uval].
  set (ez := Z.min e1 e2).
  destruct (shl_align_value m1 e1 ez ltac:(lia)) as [Ha _].
  destruct (shl_align_value m2 e2 ez ltac:(lia)) as [Hb _].
  change (Z.pos (shl_align m1 e1 ez).1 + Z.pos (shl_align m2 e2 ez).1)
    with (Z.pos ((shl_align m1 e1 ez).1 + (shl_align m2 e2 ez).1)).
  cbn [binary_normalize].
  replace ((Z.pos m1 * 2 ^ (e1 - emin) + Z.pos m2 * 2 ^ (e2 - emin))
           * 2 ^ (- emin))
    with (Z.pos ((shl_align m1 e1 ez).1 + (shl_align m2 e2 ez).1)
          * 2 ^ (ez - 2 * emin)).
  - apply binary_round_rounds. lia.
  - rewrite Pos2Z.inj_add.
    change (fst (shl_align m1 e1 ez)) with (shl_align m1 e1 ez).1 in Ha.
    change (fst (shl_align m2 e2 ez)) with (shl_align m2 e2 ez).1 in Hb.
    rewrite Ha, Hb.
    replace (e1 - emin) with ((e1 - ez) + (ez - emin)) by lia.
    replace (e2 - emin) with ((e2 - ez) + (ez - emin)) by lia.
    replace (ez - 2 * emin) with ((ez - emin) + - emin) by lia.
    rewrite !Z.pow_add_r by lia. ring.
Qed.

(** Adding a non-negative term to a running sum keeps it below a bound
    that absorbs the term. *)
Lemma SFadd_bounded (a t : spec_float) (B T : Z) :
  valid a = true -> valid t = true ->
  plus_finite a = true -> nonneg t = true ->
  uval prec emax a <= B -> uval prec emax t <= T -> T <= B ->
  RU prec emax ((B + T) * 2 ^ (- emin)) <= B ->
  B < overflow_bound prec emax ->
  plus_finite (SFadd prec emax a t) = true
  /\ uval prec emax (SFadd prec emax a t) <= B.
Proof using Hprec Hemax.
  intros Va Vt Pa Nt Ha Ht HTB HRU HB.
  pose proof (emin_neg prec emax Hprec Hemax) as Hem.
  destruct a as [sa|sa| |sa ma ea]; try discriminate Pa;
    destruct sa; try discriminate Pa.
  - destruct t as [st|st| |st mt et]; try discriminate Nt.
    + destruct st; cbn; split; try reflexivity; exact Ha.
    + destruct st; [discriminate Nt|]. cbn [SFadd plus_finite negb].
      split; [reflexivity | lia].
  - destruct t as [st|st| |st mt et]; try discriminate Nt.
    + cbn [SFadd plus_finite negb]. split; [reflexivity | exact Ha].
    + destruct st; [discriminate Nt|].
      pose proof (uval_finite_pos prec emax Hprec Hemax _ _ _ Va) as Hpa.
      pose proof (uval_finite_pos prec emax Hprec Hemax _ _ _ Vt) as Hpt.
      assert (Hp : 0 < 2 ^ (- emin)) by (apply pow2_pos; lia).
      pose proof (RU_mono prec emax Hprec Hemax
                    ((uval prec emax (S754_finite false ma ea)
                      + uval prec emax (S754_finite false mt et)) * 2 ^ (- emin))
                    ((B + T) * 2 ^ (- emin)) ltac:(nia)) as Hmono.
      destruct (SFadd_finite_rounds ma mt ea et Va Vt)
        as [[_ ->] | [(m & e & -> & _ & Hu & _) | [_ Ho]]].
      * cbn [plus_finite negb uval]. split; [reflexivity | lia].
      * cbn [plus_finite negb]. split; [reflexivity|]. rewrite Hu. lia.
      * lia.
Qed.


(** *** Rounding from an inexact position: division and square root *)

Lemma shr_m_iter (k : nat) (mrs : shr_record) :
  0 <= shr_m mrs ->
  shr_m (Nat.iter k shr_1 mrs) = shr_m mrs / 2 ^ Z.of_nat k.
Proof using Hprec Hemax.
  intros Hm. induction k as [|k IH].
  - change (Nat.iter 0 shr_1 mrs) with mrs.
    change (Z.of_nat 0) with 0. rewrite Z.pow_0_r, Z.div_1_r. reflexivity.
  - rewrite Nat.iter_succ.
    assert (H0 : 0 <= shr_m (Nat.iter k shr_1 mrs)).
    { rewrite IH. apply Z.div_pos; [lia | apply pow2_pos; lia]. }
    destruct (shr_1_m _ H0) as (-> & _). rewrite IH.
    rewrite Nat2Z.inj_succ, Z.pow_succ_r by lia.
    rewrite Z.div_div by (try apply pow2_pos; lia).
    f_equal. lia.
Qed.

Lemma round_nearest_even_bounds (m : Z) (l : location) :
  m <= round_nearest_even m l <= m + 1.
Proof using Hprec Hemax.
  destruct l as [|[| |]]; cbn [round_nearest_even];
    try destruct (Z.even m); lia.
Qed.

Lemma shr_record_of_loc_m (m : Z) (l : location) :
  shr_m (shr_record_of_loc m l) = m.
Proof using Hprec Hemax. destruct l as [|[| |]]; reflexivity. Qed.

Lemma Zdigits2_le (q k : Z) : 0 <= k -> 0 <= q < 2 ^ k -> Zdigits2 q <= k.
Proof using Hprec Hemax.
  intros Hk Hq. destruct q as [|p|p]; [cbn; lia | | lia].
  cbn [Zdigits2]. pose proof (digits2_pos_bounds p) as Hd.
  assert (Z.pos (digits2_pos p) - 1 < k); [|lia].
  apply pow2_lt_inv; lia.
Qed.

Lemma Zdigits2_bound (q : Z) : 0 <= q -> 0 <= Zdigits2 q /\ q < 2 ^ Zdigits2 q.
Proof using Hprec Hemax.
  intros Hq. destruct q as [|p|p]; [cbn; lia | | lia].
  cbn [Zdigits2]. pose proof (digits2_pos_bounds p). lia.
Qed.

(** [binary_round_aux] from any position ends in [finished] at the
    exponent the first shift reaches. *)
Lemma binary_round_aux_finished (s : bool) (q e : Z) (l : location) :
  0 <= q ->
  exists q',
    binary_round_aux prec emax s q e l
    = finished prec emax s q' (Z.max e (fexp (Zdigits2 q + e)))
    /\ 0 <= q' <= 2 ^ prec.
Proof using Hprec Hemax.
  intros Hq.
  pose proof (Zdigits2_bound q Hq) as [Hd0 Hdq].
  pose proof (fexp_ge_emin prec emax Hprec Hemax (Zdigits2 q + e)) as Hfe.
  rewrite (binary_round_aux_finish prec emax Hprec Hemax). unfold shr_fexp.
  assert (Hfd : Zdigits2 q + e - prec <= fexp (Zdigits2 q + e))
    by (unfold SpecFloat.fexp; lia).
  destruct (fexp (Zdigits2 q + e) - e) as [|p|p] eqn:Hn.
  - cbn [shr].
    exists (round_nearest_even (shr_m (shr_record_of_loc q l))
              (loc_of_shr_record (shr_record_of_loc q l))).
    pose proof (round_nearest_even_bounds (shr_m (shr_record_of_loc q l))
                  (loc_of_shr_record (shr_record_of_loc q l))) as Hb.
    rewrite shr_record_of_loc_m in *.
    assert (q < 2 ^ prec).
    { pose proof (pow2_le_mono (Zdigits2 q) prec ltac:(lia)). lia. }
    split; [|lia].
    rewrite Z.max_l by lia. apply (finish_finished prec emax Hprec Hemax); lia.
  - cbn [shr]. rewrite iter_pos_nat.
    set (mrs := Nat.iter (Pos.to_nat p) shr_1 (shr_record_of_loc q l)).
    assert (Hm : shr_m mrs = q / 2 ^ Z.pos p).
    { unfold mrs. rewrite shr_m_iter by (rewrite shr_record_of_loc_m; lia).
      rewrite shr_record_of_loc_m, positive_nat_Z. reflexivity. }
    exists (round_nearest_even (shr_m mrs) (loc_of_shr_record mrs)).
    pose proof (round_nearest_even_bounds (shr_m mrs) (loc_of_shr_record mrs))
      as Hb.
    assert (H2p : 0 < 2 ^ Z.pos p) by (apply pow2_pos; lia).
    assert (0 <= q / 2 ^ Z.pos p) by (apply Z.div_pos; lia).
    assert (q / 2 ^ Z.pos p < 2 ^ prec).
    { apply Z.div_lt_upper_bound; [lia|].
      rewrite <- Z.pow_add_r by lia.
      pose proof (pow2_le_mono (Zdigits2 q) (Z.pos p + prec) ltac:(lia)). lia. }
    split; [|lia].
    rewrite Z.max_r by lia.
    replace (fexp (Zdigits2 q + e)) with (e + Z.pos p) by lia.
    apply (finish_finished prec emax Hprec Hemax); lia.
  - cbn [shr].
    exists (round_nearest_even (shr_m (shr_record_of_loc q l))
              (loc_of_shr_record (shr_record_of_loc q l))).
    pose proof (round_nearest_even_bounds (shr_m (shr_record_of_loc q l))
                  (loc_of_shr_record (shr_record_of_loc q l))) as Hb.
    rewrite shr_record_of_loc_m in *.
    assert (q < 2 ^ prec).
    { pose proof (pow2_le_mono (Zdigits2 q) prec ltac:(lia)). lia. }
    split; [|lia].
    rewrite Z.max_l by lia. apply (finish_finished prec emax Hprec Hemax); lia.
Qed.

Lemma finished_finite (s : bool) (q E : Z) :
  E + 1 <= emax - prec ->
  finished prec emax s q E = S754_zero s
  \/ exists m e, finished prec emax s q E = S754_finite s m e.
Proof using Hprec Hemax.
  intros HE. unfold finished.
  destruct (q =? 0); [left; reflexivity|]. right.
  destruct (q =? 2 ^ prec).
  - destruct (Z.leb_spec (E + 1) (emax - prec)); [eauto | lia].
  - destruct (Z.leb_spec E (emax - prec)); [eauto | lia].
Qed.

(** A quotient of finite numbers is finite when the exponents of the two
    leave room. *)
Lemma SFdiv_finite (sx sy : bool) (mx my : positive) (ex ey : Z) :
  valid (S754_finite sx mx ex) = true ->
  Z.max (ex - ey) emin + 1 <= emax - prec ->
  let r := SFdiv prec emax (S754_finite sx mx ex) (S754_finite sy my ey) in
  r = S754_zero (xorb sx sy) \/ exists m e, r = S754_finite (xorb sx sy) m e.
Proof using Hprec Hemax.
  intros Vx Hroom r. unfold r. clear r.
  apply (valid_finite prec emax Hprec Hemax sx) in Vx as (_ & Hdx & _).
  cbn [SFdiv]. unfold SFdiv_core_binary. cbn [Zdigits2].
  set (d1 := Z.pos (digits2_pos mx)) in *.
  set (d2 := Z.pos (digits2_pos my)).
  set (e' := Z.min (fexp (d1 + ex - (d2 + ey))) (ex - ey)).
  set (sh := ex - ey - e').
  assert (Hsh : 0 <= sh) by (unfold sh, e'; lia).
  set (m' := match sh with
             | 0 => Z.pos mx
             | Z.pos _ => Z.shiftl (Z.pos mx) sh
             | Z.neg _ => 0
             end).
  assert (Hm' : m' = Z.pos mx * 2 ^ sh).
  { unfold m'. destruct sh as [|p|p] eqn:Hp; [ | | lia].
    - rewrite Z.pow_0_r. lia.
    - apply Z.shiftl_mul_pow2. lia. }
  destruct (Z.div_eucl m' (Z.pos my)) as [q rem] eqn:Hdiv.
  assert (Hq : q = m' / Z.pos my) by (unfold Z.div; rewrite Hdiv; reflexivity).
  pose proof (digits2_pos_bounds mx) as Hbx. fold d1 in Hbx.
  assert (H2s : 0 < 2 ^ sh) by (apply pow2_pos; lia).
  assert (Hq0 : 0 <= q) by (rewrite Hq; apply Z.div_pos; nia).
  assert (Hqm : q <= m').
  { rewrite Hq. apply Z.div_le_upper_bound; nia. }
  assert (Hqd : Zdigits2 q <= d1 + sh).
  { apply Zdigits2_le; [unfold d1; lia|]. split; [lia|].
    rewrite Z.pow_add_r by (unfold d1; lia). nia. }
  destruct (binary_round_aux_finished (xorb sx sy) q e' (new_location (Z.pos my) rem) Hq0)
    as (q' & -> & Hq').
  apply finished_finite.
  pose proof (fexp_mono prec emax Hprec Hemax (Zdigits2 q + e') (d1 + ex - ey)
                ltac:(unfold sh in *; lia)) as Hfm.
  assert (fexp (d1 + ex - ey) <= Z.max (ex - ey) emin)
    by (unfold SpecFloat.fexp; lia).
  assert (e' <= ex - ey) by (unfold e'; lia).
  lia.
Qed.

(** A square root of a finite number is finite. *)
Lemma SFsqrt_finite (mx : positive) (ex : Z) :
  valid (S754_finite false mx ex) = true ->
  let r := SFsqrt prec emax (S754_finite false mx ex) in
  r = S754_zero false \/ exists m e, r = S754_finite false m e.
Proof using Hprec Hemax.
  intros Vx r. unfold r. clear r.
  pose proof (emin_neg prec emax Hprec Hemax) as Hem.
  apply (valid_finite prec emax Hprec Hemax false) in Vx as ([He1 He2] & Hdx & _).
  cbn [SFsqrt]. unfold SFsqrt_core_binary. cbn [Zdigits2].
  set (d := Z.pos (digits2_pos mx)) in *.
  set (e' := Z.min (fexp (Z.div2 (d + ex + 1))) (Z.div2 ex)).
  set (sh := ex - 2 * e').
  assert (Hsh : 0 <= sh).
  { unfold sh, e'. rewrite Z.div2_div.
    pose proof (Z.div_mod ex 2 ltac:(lia)).
    pose proof (Z.mod_pos_bound ex 2 ltac:(lia)). lia. }
  set (m' := match sh with
             | 0 => Z.pos mx
             | Z.pos _ => Z.shiftl (Z.pos mx) sh
             | Z.neg _ => 0
             end).
  assert (Hm' : m' = Z.pos mx * 2 ^ sh).
  { unfold m'. destruct sh as [|p|p] eqn:Hp; [ | | lia].
    - rewrite Z.pow_0_r. lia.
    - apply Z.shiftl_mul_pow2. lia. }
  destruct (Z.sqrtrem m') as [q rem] eqn:Hsq.
  assert (Hq : q = Z.sqrt m').
  { rewrite <- Z.sqrtrem_sqrt, Hsq. reflexivity. }
  pose proof (digits2_pos_bounds mx) as Hbx. fold d in Hbx.
  assert (H2s : 0 < 2 ^ sh) by (apply pow2_pos; lia).
  assert (Hm0 : 0 <= m') by nia.
  pose proof (Z.sqrt_spec m' Hm0) as Hspec. rewrite <- Hq in Hspec.
  cbv zeta in Hspec.
  assert (Hq0 : 0 <= q) by (rewrite Hq; apply Z.sqrt_nonneg).
  set (k := Z.div2 (d + sh + 1)).
  assert (Hk : d + sh <= 2 * k /\ 0 <= k).
  { unfold k. rewrite Z.div2_div.
    pose proof (Z.div_mod (d + sh + 1) 2 ltac:(lia)).
    pose proof (Z.mod_pos_bound (d + sh + 1) 2 ltac:(lia)).
    unfold d in *. lia. }
  assert (Hqk : q < 2 ^ k).
  { destruct (Z_lt_le_dec q (2 ^ k)) as [|Hge]; [assumption|exfalso].
    assert (2 ^ k * 2 ^ k <= q * q) by nia.
    rewrite <- Z.pow_add_r in H by lia.
    assert (m' < 2 ^ (d + sh)).
    { rewrite Hm', Z.pow_add_r by (unfold d; lia). nia. }
    pose proof (pow2_le_mono (d + sh) (k + k) ltac:(unfold d in *; lia)).
    lia. }
  pose proof (Zdigits2_le q k ltac:(lia) ltac:(lia)) as Hqd.
  destruct (binary_round_aux_finished false q e'
              (if rem =? 0 then loc_Exact
               else loc_Inexact (if rem <=? q then Lt else Gt)) Hq0)
    as (q' & -> & Hq').
  apply finished_finite.
  assert (Hke : k + e' = Z.div2 (d + ex + 1)).
  { unfold k, sh. rewrite !Z.div2_div.
    replace (d + (ex - 2 * e') + 1) with (d + ex + 1 + (- e') * 2) by lia.
    rewrite Z.div_add by lia. lia. }
  pose proof (fexp_mono prec emax Hprec Hemax (Zdigits2 q + e')
                (Z.div2 (d + ex + 1)) ltac:(lia)) as Hfm.
  assert (He' : e' <= fexp (Z.div2 (d + ex + 1))) by (unfold e'; lia).
  assert (Hdiv2 : Z.div2 (d + ex + 1) <= Z.div2 (emax + 1)).
  { rewrite !Z.div2_div. apply Z.div_le_mono; lia. }
  assert (Hhalf : Z.div2 (emax + 1) + 1 <= emax).
  { rewrite Z.div2_div.
    pose proof (Z.div_mod (emax + 1) 2 ltac:(lia)).
    pose proof (Z.mod_pos_bound (emax + 1) 2 ltac:(lia)). lia. }
  unfold SpecFloat.fexp, SpecFloat.emin in *. lia.
Qed.

End RoundingSums.

Lemma squares_in_unit_spec (n : nat) :
  forall x k : Z,
    squares_in_unit n x = true -> 0 <= k < Z.of_nat n ->
    square_in_unit (x + k) = true.
Proof.
  induction n as [|n IH]; intros x k Hall Hk; [lia|].
  cbn [squares_in_unit] in Hall.
  destruct (square_in_unit x) eqn:Hx; [|discriminate Hall].
  destruct (Z.eq_dec k 0) as [->|Hnz].
  - rewrite Z.add_0_r. exact Hx.
  - replace (x + k) with (x + 1 + (k - 1)) by lia.
    apply IH; [exact Hall | lia].
Qed.

(** By evaluation of all 65536 cases: the term of every sample lies
    between 0 and 1. *)
Lemma all_squares_in_unit :
  squares_in_unit (Z.to_nat 65536) (-32768) = true.
Proof. vm_compute. reflexivity. Qed.

Lemma sample_square_bounded (x : Z) :
  is_int16 x ->
  nonneg (Prim2SF (sample_square x)) = true
  /\ uval prec emax (Prim2SF (sample_square x)) <= one_u.
Proof.
  intros Hx. unfold is_int16 in Hx.
  pose proof (squares_in_unit_spec _ _ (x + 32768) all_squares_in_unit
                ltac:(lia)) as Hall.
  replace (-32768 + (x + 32768)) with x in Hall by lia.
  unfold square_in_unit in Hall. apply andb_prop in Hall as [H0 H1].
  rewrite leb_spec in H0, H1.
  change (Prim2SF 0) with (S754_zero false) in H0.
  destruct (SFleb_nonneg prec emax prec_gt_1 prec_lt_emax _ _
              (Prim2SF_valid (sample_square x)) (Prim2SF_valid 1) H0 H1)
    as (_ & _ & Hord).
  destruct (Hord eq_refl) as [Hn Hle]. split; [exact Hn|].
  etransitivity; [exact Hle|]. vm_compute. discriminate.
Qed.

Lemma sum_bound_absorbs :
  RU prec emax ((sum_bound + one_u) * 2 ^ (- SpecFloat.emin prec emax))
  <= sum_bound.
Proof. vm_compute. discriminate. Qed.

Lemma sum_bound_in_range : sum_bound < overflow_bound prec emax.
Proof. vm_compute. reflexivity. Qed.

Lemma sum_ok_zero : sum_ok 0.
Proof. split; [reflexivity | vm_compute; discriminate]. Qed.

Lemma sum_ok_step (sum : float) (x : Z) :
  sum_ok sum -> is_int16 x -> sum_ok (sum + sample_square x).
Proof.
  intros [Hp Hb] Hx.
  destruct (sample_square_bounded x Hx) as [Hn Ht].
  unfold sum_ok. rewrite add_spec.
  apply (SFadd_bounded prec emax prec_gt_1 prec_lt_emax _ _ sum_bound one_u);
    try assumption.
  - apply Prim2SF_valid.
  - apply Prim2SF_valid.
  - vm_compute. discriminate.
  - exact sum_bound_absorbs.
  - exact sum_bound_in_range.
Qed.

(** *** Division by the column width and square root *)

(** [float64(n)] for a count [n] between 1 and [2 ^ 63] is a positive
    finite number with an exponent of at least [1 - prec]. *)
Lemma of_int_count (n : Z) :
  1 <= n <= 2 ^ 63 ->
  exists m e, Prim2SF (GoFloat.of_int n) = S754_finite false m e
              /\ 1 - prec <= e.
Proof.
  intros Hn. rewrite of_int_SF.
  destruct n as [|p|p]; try lia. cbn [binary_normalize].
  pose proof (binary_round_rounds prec emax prec_gt_1 prec_lt_emax false p 0
                ltac:(vm_compute; discriminate)) as Hr.
  assert (Hp : 0 < 2 ^ (0 - 2 * SpecFloat.emin prec emax))
    by (apply pow2_pos; vm_compute; discriminate).
  pose proof (RU_mono prec emax prec_gt_1 prec_lt_emax
                (1 * 2 ^ (0 - 2 * SpecFloat.emin prec emax))
                (Z.pos p * 2 ^ (0 - 2 * SpecFloat.emin prec emax))
                ltac:(nia)) as Hlo.
  pose proof (RU_mono prec emax prec_gt_1 prec_lt_emax
                (Z.pos p * 2 ^ (0 - 2 * SpecFloat.emin prec emax))
                (2 ^ 63 * 2 ^ (0 - 2 * SpecFloat.emin prec emax))
                ltac:(nia)) as Hhi.
  assert (Hone : RU prec emax (1 * 2 ^ (0 - 2 * SpecFloat.emin prec emax))
                 = 2 ^ 1074) by (vm_compute; reflexivity).
  assert (Hmax : RU prec emax (2 ^ 63 * 2 ^ (0 - 2 * SpecFloat.emin prec emax))
                 = 2 ^ 63 * 2 ^ 1074) by (vm_compute; reflexivity).
  assert (Hob : 2 ^ 63 * 2 ^ 1074 < overflow_bound prec emax)
    by (vm_compute; reflexivity).
  assert (H1074 : 0 < 2 ^ 1074) by (apply pow2_pos; lia).
  rewrite Hone in Hlo. rewrite Hmax in Hhi.
  destruct Hr as [[H0 _] | [(m & e & -> & Hv & Hu & _) | [_ Ho]]]; try lia.
  exists m, e. split; [reflexivity|].
  apply (valid_finite prec emax prec_gt_1 prec_lt_emax false) in Hv
    as ([He _] & Hd & _).
  cbn [uval] in Hu. rewrite emin64 in *.
  pose proof (digits2_pos_bounds m) as Hb.
  assert (Hm : Z.pos m < 2 ^ prec).
  { pose proof (pow2_le_mono (Z.pos (digits2_pos m)) prec ltac:(lia)). lia. }
  destruct (Z_lt_le_dec e (1 - prec)) as [Hlt|]; [exfalso|assumption].
  assert (Hpe : 0 < 2 ^ (e - -1074)) by (apply pow2_pos; lia).
  assert (Z.pos m * 2 ^ (e - -1074) < 2 ^ prec * 2 ^ (e - -1074)) by nia.
  rewrite <- Z.pow_add_r in H by (unfold prec; lia).
  pose proof (pow2_le_mono (prec + (e - -1074)) 1074
                ltac:(unfold prec in *; lia)).
  lia.
Qed.

Lemma sum_ok_div (sum : float) (n : Z) :
  sum_ok sum -> 1 <= n <= 2 ^ 63 ->
  plus_finite (Prim2SF (sum / GoFloat.of_int n)) = true.
Proof.
  intros [Hp Hb] Hn. rewrite div_spec. unfold SF64div.
  destruct (of_int_count n Hn) as (m2 & e2 & -> & He2).
  pose proof (Prim2SF_valid sum) as Vs.
  destruct (Prim2SF sum) as [s|s| |s m1 e1]; try discriminate Hp;
    destruct s; try discriminate Hp; [reflexivity|].
  assert (He1 : e1 <= 54).
  { cbn [uval] in Hb. rewrite emin64 in Hb. unfold sum_bound in Hb.
    apply (valid_finite prec emax prec_gt_1 prec_lt_emax false) in Vs
      as ([Hlo _] & _).
    rewrite emin64 in Hlo.
    assert (Hpe : 0 < 2 ^ (e1 - -1074)) by (apply pow2_pos; lia).
    rewrite <- Z.pow_add_r in Hb by lia.
    assert (2 ^ (e1 - -1074) <= 2 ^ (54 + 1074)) by nia.
    apply (Z.pow_le_mono_r_iff 2) in H; lia. }
  destruct (SFdiv_finite prec emax prec_gt_1 prec_lt_emax
              false false m1 m2 e1 e2 Vs) as [-> | (m & e & ->)];
    [|reflexivity|reflexivity].
  rewrite emin64. unfold prec, emax in *. lia.
Qed.

Lemma plus_finite_sqrt (x : float) :
  plus_finite (Prim2SF x) = true -> profile_value (sqrt x) = true.
Proof.
  intros Hp. unfold profile_value. rewrite sqrt_spec. unfold SF64sqrt.
  pose proof (Prim2SF_valid x) as Vx.
  destruct (Prim2SF x) as [s|s| |s m e]; try discriminate Hp;
    destruct s; try discriminate Hp; [reflexivity|].
  destruct (SFsqrt_finite prec emax prec_gt_1 prec_lt_emax m e Vx)
    as [-> | (m' & e' & ->)]; reflexivity.
Qed.

(** The value written for a column is a finite number other than
    negative zero. *)
Lemma column_value_profile (sum : float) (n : Z) :
  sum_ok sum -> 1 <= n <= 2 ^ 63 ->
  profile_value (sqrt (sum / GoFloat.of_int n)) = true.
Proof.
  intros Hs Hn. apply plus_finite_sqrt. apply sum_ok_div; assumption.
Qed.

(** *** The loops of the reducer *)

Lemma index_Forall {A : Type} (P : A -> Prop) (l : list A) (i : Z) (x : A) :
  Forall P l -> index l i = Some x -> P x.
Proof.
  unfold index. intros Hall Hi.
  destruct (i <? 0); [discriminate Hi|].
  exact (Forall_lookup_1 P l _ x Hall Hi).
Qed.

Lemma assign_Forall {A : Type} (P : A -> Prop) (l : list A) (i : Z) (x : A) :
  0 <= i < len l -> Forall P l -> P x ->
  exists l', assign l i x = Some l'
             /\ length l' = length l /\ Forall P l'.
Proof.
  intros Hi Hall Hx. unfold assign.
  destruct (index_Some l i Hi) as [y ->]. cbn [mbind option_bind].
  eexists. split; [reflexivity|]. split.
  - apply length_insert.
  - apply Forall_insert; assumption.
Qed.

(** The inner loop keeps the running sum finite, non-negative and below
    the bound, and does not leave the buffer. *)
Lemma sum_squares_ok (buffer : list Z) :
  Forall is_int16 buffer ->
  forall (count : nat) (i : Z) (sum : float),
    ((0 < count)%nat -> 0 <= i /\ i + Z.of_nat count <= len buffer) ->
    sum_ok sum ->
    exists s, sum_squares buffer i count sum = Some s /\ sum_ok s.
Proof.
  intros Hbuf. induction count as [|count IH]; intros i sum Hi Hsum.
  - exists sum. split; [reflexivity | exact Hsum].
  - destruct (Hi ltac:(lia)) as [H0 Hend].
    cbn [sum_squares].
    destruct (index_Some buffer i ltac:(lia)) as [x Hx].
    rewrite Hx. cbn [mbind option_bind].
    apply IH; [intros _; lia|].
    apply (sum_ok_step sum x Hsum).
    exact (index_Forall is_int16 buffer i x Hbuf Hx).
Qed.

(** The loop over the columns runs to its end, keeps the length of the
    profile, and leaves only finite values other than negative zero. *)
Lemma reduce_columns_ok (buffer : list Z) (samplesPerColumn : Z) :
  Forall is_int16 buffer -> 0 <= samplesPerColumn <= 2 ^ 63 ->
  forall (cols : list Z) (waveform : list float),
    List.Forall (fun c => 0 <= c < len waveform) cols ->
    Forall (fun w => profile_value w = true) waveform ->
    exists raw, reduce_columns buffer samplesPerColumn cols waveform = Some raw
                /\ length raw = length waveform
                /\ Forall (fun w => profile_value w = true) raw.
Proof.
  intros Hbuf Hspc.
  induction cols as [|col cols IH]; intros waveform Hcols Hwf.
  - exists waveform. repeat split. exact Hwf.
  - inversion Hcols as [|? ? Hcol Hrest]; subst.
    cbn [reduce_columns]. unfold column_span.
    destruct (sum_squares_ok buffer Hbuf
                (Z.to_nat (Z.min (col * samplesPerColumn + samplesPerColumn)
                                 (len buffer) - col * samplesPerColumn))
                (col * samplesPerColumn) 0%float
                ltac:(intros; nia) sum_ok_zero) as (sum & -> & Hsum).
    cbn [mbind option_bind].
    assert (Hnext :
      exists wf, (if 0 <? samplesPerColumn
                  then assign waveform col
                         (sqrt (sum / GoFloat.of_int samplesPerColumn))%float
                  else Some waveform) = Some wf
                 /\ length wf = length waveform
                 /\ Forall (fun w => profile_value w = true) wf).
    { destruct (Z.ltb_spec 0 samplesPerColumn) as [Hpos|_].
      - apply assign_Forall; [exact Hcol | exact Hwf |].
        apply column_value_profile; [exact Hsum | lia].
      - exists waveform. repeat split. exact Hwf. }
    destruct Hnext as (wf & -> & Hlen & Hwf').
    cbn [mbind option_bind].
    destruct (IH wf) as (raw & Hraw & Hlen' & Hprof); [|exact Hwf'|].
    + unfold len. rewrite Hlen. exact Hrest.
    + exists raw. split; [exact Hraw|]. split; [congruence | exact Hprof].
Qed.

(** [convertToWaveform] on 16-bit samples and a profile that is not empty:
    it returns, the profile keeps its length, and every value of it is a
    finite number other than negative zero. *)
Lemma convertToWaveform_profile (buffer : list Z) (waveform : list float) :
  Forall is_int16 buffer -> len buffer <= GoInt.max_int ->
  waveform <> [] ->
  Forall (fun w => profile_value w = true) waveform ->
  exists raw, convertToWaveform buffer waveform = Some raw
              /\ length raw = length waveform
              /\ Forall (fun w => profile_value w = true) raw.
Proof.
  intros Hbuf Hmax Hne Hwf. unfold convertToWaveform.
  assert (Hlen : 0 < len waveform).
  { unfold len. destruct waveform; [congruence | cbn [length]; lia]. }
  destruct (Z.eqb_spec (len waveform) 0) as [H0|_]; [lia|].
  assert (Hb : 0 <= len buffer) by (unfold len; lia).
  apply reduce_columns_ok; [exact Hbuf | | | exact Hwf].
  - pose proof (Z.quot_pos (len buffer) (len waveform) Hb ltac:(lia)).
    pose proof (Z.quot_le_upper_bound (len buffer) (len waveform)
                  (len buffer) ltac:(lia) ltac:(nia)).
    unfold GoInt.max_int in Hmax. lia.
  - apply List.Forall_forall. intros c Hc. apply range_bounds in Hc. exact Hc.
Qed.

Lemma profile_value_finite (w : float) :
  profile_value w = true -> finite_value w = true.
Proof.
  unfold profile_value, finite_value.
  destruct (Prim2SF w) as [[]|[]| |]; intros H; try discriminate H; reflexivity.
Qed.

(** *** The demuxer writes 16-bit samples *)

Lemma lor_low_high (a k : Z) :
  0 <= a < 2 ^ 8 -> Z.lor a (k * 2 ^ 8) = a + k * 2 ^ 8.
Proof.
  intros Ha.
  assert (Hland : Z.land a (k * 2 ^ 8) = 0).
  { apply Z.bits_inj'. intros n Hn.
    rewrite Z.land_spec, Z.bits_0.
    destruct (Z.ltb_spec n 8) as [Hlt|Hge].
    - rewrite Z.mul_pow2_bits_low by lia. apply andb_false_r.
    - destruct (Z.eq_dec a 0) as [->|Hnz]; [rewrite Z.bits_0; reflexivity|].
      rewrite Z.bits_above_log2; [reflexivity | lia |].
      apply Z.log2_lt_pow2; [lia|].
      pose proof (pow2_le_mono 8 n ltac:(lia)). lia. }
  rewrite (Z.add_nocarry_lxor _ _ Hland). symmetry.
  apply Z.lxor_lor. exact Hland.
Qed.

Lemma byte_bounds (b : Byte.byte) : 0 <= Z.of_N (Byte.to_N b) < 2 ^ 8.
Proof. pose proof (Byte.to_N_bounded b). change (2 ^ 8) with 256. lia. Qed.



(** C6: with smoothing factor 0 the smoothed vector stays at its initial
    all-zero state over any number of frames, whatever finite raw profiles
    arrive; with smoothing factor 1 one application of the recurrence makes
    the smoothed vector equal to the raw profile, whatever finite values the
    smoothed vector held before.  The raw values are finite numbers other
    than negative zero, and the third part shows that this is every raw
    profile there is: on 16-bit samples the column reducer returns, and
    every value of the profile it leaves is such a number. *)
Theorem smoothing_factor_extremes :
  (forall (n : nat) (frames : list (list float)),
      Forall (fun raw => length raw = n
                         /\ Forall (fun w => finite_value w = true) raw)
             frames ->
      smooth_frames 0 frames (repeat 0%float n) = Some (repeat 0%float n))
  /\ (forall raw smoothed : list float,
        length raw = length smoothed ->
        Forall (fun w => profile_value w = true) raw ->
        Forall (fun s => finite_value s = true) smoothed ->
        smooth 1 raw smoothed = Some raw)
  /\ (forall (buffer : list Z) (waveform : list float),
        Forall is_int16 buffer -> len buffer <= GoInt.max_int ->
        waveform <> [] ->
        Forall (fun w => profile_value w = true) waveform ->
        exists raw : list float,
          convertToWaveform buffer waveform = Some raw
          /\ length raw = length waveform
          /\ Forall (fun w => profile_value w = true) raw
          /\ Forall (fun w => finite_value w = true) raw).
Proof.
  split; [|split].
  - intros n frames Hframes.
    induction Hframes as [|raw frames [Hlen Hfin] _ IH]; [reflexivity|].
    cbn [smooth_frames]. rewrite (smooth_zero_step n raw Hlen Hfin).
    exact IH.
  - exact smooth_one_step.
  - intros buffer waveform Hbuf Hmax Hne Hwf.
    destruct (convertToWaveform_profile buffer waveform Hbuf Hmax Hne Hwf)
      as (raw & Hraw & Hlen & Hprof).
    exists raw. repeat split; try assumption.
    eapply Forall_impl; [exact Hprof|].
    intros w Hw. exact (profile_value_finite w Hw).
Qed.

Lemma smoothing_factor_extremes_witness :
  exists profile : list float,
    convertToWaveform [0; 0; 0; 0; 32767; 32767; 32767; 32767]
      (repeat 0%float 4) = Some profile
    /\ smooth_frames 0 [profile; profile] (repeat 0%float 4)
       = Some (repeat 0%float 4)
    /\ smooth 1 profile [0.25; -3; 0; 1]%float = Some profile.
Proof.
  destruct smoothing_factor_extremes as (Hzero & Hone & Hprofile).
  destruct (Hprofile [0; 0; 0; 0; 32767; 32767; 32767; 32767]
              (repeat 0%float 4))
    as (profile & Hraw & Hlen & Hprof & Hfin).
  - unfold is_int16. repeat constructor; lia.
  - vm_compute. discriminate.
  - discriminate.
  - repeat constructor.
  - exists profile. split; [exact Hraw|]. split.
    + apply Hzero. repeat constructor; assumption.
    + apply Hone; [exact Hlen | exact Hprof | repeat constructor].
Defined.

(** Without the condition on the scaled value the order can fail where the
    conversion of an unrepresentable value yields the least integer, as the
    conversion instruction of amd64 does. *)
Lemma bar_height_unrepresentable :
  let unrep := fun _ : float => GoInt.min_int in
  bar_height unrep DefaultConfig 6 1%float = 5
  /\ bar_height unrep DefaultConfig 6 0x1p1000%float = GoInt.min_int.
Proof. split; vm_compute; reflexivity. Qed.

(* ===================================================================== *)
(** * Further properties of the code *)
(* ===================================================================== *)

(** ** Construction: the edge of the width *)

Lemma backfill_idempotent (cfg : Config) :
  backfill (backfill cfg) = backfill cfg.
Proof.
  destruct cfg as [W H SR CS F SF C BS A SS]. unfold backfill.
  cbn [Width Height SampleRate ChunkSize FPS SmoothFactor Char BarSpacing
       Amplify ShowStatus].
  assert (Hz : forall z d : Z,
             d <> 0 ->
             (if (if z =? 0 then d else z) =? 0 then d
              else if z =? 0 then d else z)
             = (if z =? 0 then d else z)).
  { intros z d Hd. destruct (Z.eqb_spec z 0) as [->|Hz].
    - destruct (Z.eqb_spec d 0); [contradiction | reflexivity].
    - destruct (Z.eqb_spec z 0); [contradiction | reflexivity]. }
  rewrite !Hz by discriminate. f_equal.
  - destruct (String.eqb C "") eqn:E; [reflexivity | rewrite E; reflexivity].
  - destruct (PrimFloat.eqb A 0) eqn:E; [reflexivity | rewrite E; reflexivity].
Qed.

(** X1: [New] panics exactly when the width is negative (sizes beyond
    what the runtime can allocate apart).  In every other case it returns
    a visualizer that is not running, has no cancellation handle, no
    stream URL and an empty track, and whose two vectors hold one zero per
    column of the completed configuration (60 columns for a width of 0). *)
Theorem New_panics_iff_negative_Width (cfg : Config) :
  (New cfg = None <-> Width cfg < 0)
  /\ (0 <= Width cfg ->
      New cfg
      = Some (mkVisualizer (backfill cfg)
                (repeat 0%float (Z.to_nat (if Width cfg =? 0 then 60
                                           else Width cfg)))
                (repeat 0%float (Z.to_nat (if Width cfg =? 0 then 60
                                           else Width cfg)))
                (mkTrackInfo "" "" "") "" None false)).
Proof.
  unfold New, make. cbn [Width backfill].
  destruct (Z.eqb_spec (Width cfg) 0) as [H0|Hn0].
  - rewrite H0. cbn. split; [split; [discriminate | lia] | reflexivity].
  - destruct (Z.ltb_spec (Width cfg) 0) as [Hneg|Hpos]; cbn.
    + split; [split; [lia | reflexivity] | lia].
    + split; [split; [discriminate | lia] | reflexivity].
Qed.

Lemma New_panics_iff_negative_Width_witness :
  New (mkConfig (-1) 12 44100 1024 30 0.9%float "|" 1 2.5%float true) = None.
Proof.
  apply (New_panics_iff_negative_Width
           (mkConfig (-1) 12 44100 1024 30 0.9%float "|" 1 2.5%float true)).
  reflexivity.
Defined.

(** X2: the configuration that [New] stores needs no further completion:
    building a visualizer from it again gives the same visualizer.  In
    particular the baseline configuration is stored as it is. *)
Theorem New_stored_config_is_complete (cfg : Config) (v : Visualizer) :
  New cfg = Some v ->
  New (config v) = Some v
  /\ (cfg = DefaultConfig -> config v = DefaultConfig).
Proof.
  intros HN. split.
  - destruct (New_panics_iff_negative_Width cfg) as [Hnone Hsome].
    destruct (Z.ltb_spec (Width cfg) 0) as [Hneg|Hpos].
    { apply Hnone in Hneg. congruence. }
    rewrite (Hsome Hpos) in HN. injection HN as <-. cbn [config].
    destruct (New_panics_iff_negative_Width (backfill cfg)) as [_ Hsome'].
    rewrite Hsome'.
    + rewrite backfill_idempotent. cbn [Width backfill].
      destruct (Z.eqb_spec (Width cfg) 0) as [H0|Hn0]; [reflexivity|].
      destruct (Z.eqb_spec (Width cfg) 0); [contradiction | reflexivity].
    + cbn [Width backfill]. destruct (Z.eqb_spec (Width cfg) 0); lia.
  - intros ->. vm_compute in HN. injection HN as <-. reflexivity.
Qed.

Lemma New_stored_config_is_complete_witness :
  exists v, New (mkConfig 0 0 0 0 0 0%float "" 0 0%float false) = Some v
            /\ New (config v) = Some v.
Proof.
  eexists. split; [vm_compute; reflexivity|].
  apply (New_stored_config_is_complete
           (mkConfig 0 0 0 0 0 0%float "" 0 0%float false)).
  vm_compute. reflexivity.
Defined.

(** ** Metadata: what a fetch changes *)

Lemma apply_tags_idempotent (tags : gmap string string) (t : TrackInfo) :
  apply_tags tags (apply_tags tags t) = apply_tags tags t.
Proof.
  unfold apply_tags.
  destruct (tags !! "StreamTitle"%string) as [title|]; [reflexivity|].
  destruct (tags !! "icy-name"%string) as [name|]; reflexivity.
Qed.

Lemma apply_tags_changes (tags : gmap string string) (t : TrackInfo) :
  apply_tags tags t <> t ->
  is_Some (tags !! "StreamTitle"%string) \/ is_Some (tags !! "icy-name"%string).
Proof.
  unfold apply_tags.
  destruct (tags !! "StreamTitle"%string) as [title|]; [eauto|].
  destruct (tags !! "icy-name"%string) as [name|]; [eauto|].
  intros H. contradiction H. reflexivity.
Qed.

(** X3: a fetch touches nothing but the cached track, returns the track
    that is cached afterwards, and replaces the cached track only when the
    visualizer has a stream URL and the probe delivered tags with a
    [StreamTitle] or an [icy-name] entry: without a URL, after a failed
    probe or malformed output, or without either tag, the cache stays as it
    was. *)
Theorem FetchTrack_changes_only_track (v : Visualizer) (p : probe) :
  let v' := (FetchTrack v p).1 in
  (FetchTrack v p).2 = GetTrack v'
  /\ config v' = config v /\ waveform v' = waveform v
  /\ smoothed v' = smoothed v /\ streamURL v' = streamURL v
  /\ cancel v' = cancel v /\ running v' = running v
  /\ (GetTrack v' <> GetTrack v ->
      streamURL v <> ""%string
      /\ exists tags, p = probe_tags tags
           /\ (is_Some (tags !! "StreamTitle"%string)
               \/ is_Some (tags !! "icy-name"%string))).
Proof.
  unfold FetchTrack, GetTrack.
  destruct (String.eqb_spec (streamURL v) "") as [He|Hne].
  - cbn. repeat (split; [reflexivity|]).
    intros Hch. contradiction Hch. reflexivity.
  - destruct p as [| |tags]; cbn; repeat (split; [reflexivity|]).
    + intros Hch. contradiction Hch. reflexivity.
    + intros Hch. contradiction Hch. reflexivity.
    + intros Hch. split; [exact Hne|].
      exists tags. split; [reflexivity|].
      exact (apply_tags_changes _ _ Hch).
Qed.

(** X4: fetching twice with the same probe result is the same as fetching
    once: the second fetch finds the cache already in the state it would
    produce. *)
Theorem FetchTrack_idempotent (v : Visualizer) (p : probe) :
  FetchTrack (FetchTrack v p).1 p = FetchTrack v p.
Proof.
  unfold FetchTrack.
  destruct (String.eqb (streamURL v) "") eqn:He.
  - cbn. rewrite He. reflexivity.
  - destruct p as [| |tags]; cbn; rewrite ?He; try reflexivity.
    unfold set_track. cbn. rewrite apply_tags_idempotent. reflexivity.
Qed.

(** ** Metadata: white space around artist and title *)

Section TrimFacts.

Import GoStrings GoStringsFacts.

Lemma is_prefix_app (e l : list ascii) :
  is_prefix e l = true <-> exists rest, l = e ++ rest.
Proof.
  revert l. induction e as [|a e IH]; intros l.
  - split; [intros _; exists l; reflexivity | reflexivity].
  - destruct l as [|b l]; cbn [is_prefix].
    + split; [discriminate | intros [rest [=]]].
    + rewrite andb_true_iff, IH. split.
      * intros [Hab [rest ->]]. apply Ascii.eqb_eq in Hab as ->.
        exists rest. reflexivity.
      * intros [rest [= -> ->]]. split; [apply Ascii.eqb_refl | eauto].
Qed.

Lemma strip_space_None (encs : list (list ascii)) (l : list ascii) :
  strip_space encs l = None
  <-> forall e, In e encs -> is_prefix e l = false.
Proof.
  unfold strip_space. induction encs as [|e encs IH].
  - split; [intros _ e [] | reflexivity].
  - rewrite filter_cons. destruct (decide (is_prefix e l)) as [He|He].
    + split; [discriminate|].
      intros H. specialize (H e (or_introl eq_refl)).
      rewrite H in He. contradiction He.
    + rewrite IH. split.
      * intros H e' [<-|Hin]; [|exact (H e' Hin)].
        destruct (is_prefix e l); [contradiction He; exact I | reflexivity].
      * intros H e' Hin. apply H. right. exact Hin.
Qed.

Lemma strip_space_Some (encs : list (list ascii)) (l l' : list ascii) :
  strip_space encs l = Some l' ->
  exists e, In e encs /\ l = e ++ l'.
Proof.
  unfold strip_space. induction encs as [|e encs IH].
  - discriminate.
  - rewrite filter_cons. destruct (decide (is_prefix e l)) as [He|He].
    + intros [= <-].
      destruct (is_prefix e l) eqn:Hp; [|contradiction He].
      apply is_prefix_app in Hp as [rest ->].
      exists e. split; [left; reflexivity|].
      rewrite drop_app_length. reflexivity.
    + intros H. destruct (IH H) as (e' & Hin & Heq).
      exists e'. split; [right; exact Hin | exact Heq].
Qed.

(** With fuel for every element the trimming loop stops only where no
    white-space rune is left in front, and it removes a prefix. *)
Lemma trim_left_spec (encs : list (list ascii)) :
  Forall (fun e => e <> []) encs ->
  forall (fuel : nat) (l : list ascii),
    (length l <= fuel)%nat ->
    strip_space encs (trim_left encs fuel l) = None
    /\ exists front, l = front ++ trim_left encs fuel l.
Proof.
  intros Hne. induction fuel as [|fuel IH]; intros l Hlen.
  - destruct l; [|cbn in Hlen; lia]. cbn [trim_left]. split.
    + apply strip_space_None. intros e Hin.
      destruct e as [|a e]; [|reflexivity].
      rewrite List.Forall_forall in Hne. contradiction (Hne [] Hin).
      reflexivity.
    + exists []. reflexivity.
  - cbn [trim_left]. destruct (strip_space encs l) as [l'|] eqn:Hs.
    + destruct (strip_space_Some _ _ _ Hs) as (e & Hin & ->).
      assert (He : e <> []).
      { rewrite List.Forall_forall in Hne. exact (Hne e Hin). }
      destruct (IH l') as [Hnone [front Hfront]].
      { rewrite length_app in Hlen. destruct e; [congruence|].
        cbn [length] in Hlen. lia. }
      split; [exact Hnone|]. exists (e ++ front).
      rewrite <- app_assoc. f_equal; exact Hfront.
    + split; [exact Hs | exists []; reflexivity].
Qed.

Lemma trim_left_fixed (encs : list (list ascii)) (fuel : nat)
    (l : list ascii) :
  strip_space encs l = None -> trim_left encs fuel l = l.
Proof. intros H. destruct fuel; cbn [trim_left]; [|rewrite H]; reflexivity. Qed.

Lemma space_encodings_nonempty :
  Forall (fun e => e <> []) space_encodings.
Proof. repeat constructor; discriminate. Qed.

Lemma rev_encodings_nonempty :
  Forall (fun e => e <> []) (map (@rev ascii) space_encodings).
Proof. repeat constructor; discriminate. Qed.

Lemma TrimSpace_list (s : string) :
  exists front back,
    TrimLeftSpace (list_ascii_of_string s)
    = list_ascii_of_string (TrimSpace s) ++ back
    /\ list_ascii_of_string s
       = front ++ TrimLeftSpace (list_ascii_of_string s)
    /\ strip_space space_encodings
         (TrimLeftSpace (list_ascii_of_string s)) = None
    /\ strip_space (map (@rev ascii) space_encodings)
         (rev (list_ascii_of_string (TrimSpace s))) = None.
Proof.
  unfold TrimSpace. rewrite list_ascii_of_string_of_list_ascii.
  set (l := list_ascii_of_string s).
  destruct (trim_left_spec _ space_encodings_nonempty (length l) l
              (Nat.le_refl _)) as [HL [front Hfront]].
  fold (TrimLeftSpace l) in HL, Hfront.
  set (L := TrimLeftSpace l) in *.
  destruct (trim_left_spec _ rev_encodings_nonempty (length L) (rev L))
    as [HR [back Hback]].
  { rewrite length_rev. lia. }
  unfold TrimRightSpace. fold L.
  set (R := trim_left (map (@rev ascii) space_encodings) (length L) (rev L))
    in *.
  exists front, (rev back). rewrite rev_involutive.
  split; [|split; [exact Hfront | split; [exact HL | exact HR]]].
  rewrite <- rev_app_distr, <- Hback, rev_involutive. reflexivity.
Qed.

(** The result of [TrimSpace] neither starts nor ends with a white-space
    rune. *)
Lemma TrimSpace_clean (s : string) :
  ~ leading_space (TrimSpace s) /\ ~ trailing_space (TrimSpace s).
Proof.
  destruct (TrimSpace_list s) as (front & back & HL & _ & HnoL & HnoR).
  split.
  - intros (e & rest & Hin & Heq).
    rewrite strip_space_None in HnoL. specialize (HnoL e Hin).
    assert (is_prefix e (TrimLeftSpace (list_ascii_of_string s)) = true).
    { apply is_prefix_app. exists (rest ++ back).
      rewrite HL, Heq, <- app_assoc. reflexivity. }
    congruence.
  - intros (e & fr & Hin & Heq).
    rewrite strip_space_None in HnoR.
    specialize (HnoR (rev e) (in_map _ _ _ Hin)).
    assert (is_prefix (rev e) (rev (list_ascii_of_string (TrimSpace s)))
            = true).
    { apply is_prefix_app. exists (rev fr).
      rewrite Heq, rev_app_distr. reflexivity. }
    congruence.
Qed.

(** A string without white space at either end is left as it is. *)
Lemma TrimSpace_fixed (s : string) :
  ~ leading_space s -> ~ trailing_space s -> TrimSpace s = s.
Proof.
  intros HnL HnT. unfold TrimSpace, TrimRightSpace, TrimLeftSpace.
  set (l := list_ascii_of_string s).
  assert (HL : strip_space space_encodings l = None).
  { apply strip_space_None. intros e Hin.
    destruct (is_prefix e l) eqn:He; [|reflexivity].
    apply is_prefix_app in He as [rest Hrest].
    contradiction HnL. exists e, rest. auto. }
  rewrite (trim_left_fixed _ _ _ HL).
  assert (HR : strip_space (map (@rev ascii) space_encodings) (rev l) = None).
  { apply strip_space_None. intros e' Hin.
    apply in_map_iff in Hin as (e & <- & Hin).
    destruct (is_prefix (rev e) (rev l)) eqn:He; [|reflexivity].
    apply is_prefix_app in He as [rest Hrest].
    contradiction HnT. exists e, (rev rest). split; [exact Hin|].
    fold l. rewrite <- (rev_involutive l), Hrest, rev_app_distr,
      rev_involutive. reflexivity. }
  rewrite (trim_left_fixed _ _ _ HR), rev_involutive.
  apply string_of_list_ascii_of_string.
Qed.

Lemma no_leading_space (s : string) :
  strip_space space_encodings (list_ascii_of_string s) = None ->
  ~ leading_space s.
Proof.
  intros Hs (e & rest & Hin & Heq).
  rewrite strip_space_None in Hs. specialize (Hs e Hin).
  assert (is_prefix e (list_ascii_of_string s) = true)
    by (apply is_prefix_app; eauto).
  congruence.
Qed.

Lemma no_trailing_space (s : string) :
  strip_space (map (@rev ascii) space_encodings)
    (rev (list_ascii_of_string s)) = None ->
  ~ trailing_space s.
Proof.
  intros Hs (e & fr & Hin & Heq).
  rewrite strip_space_None in Hs.
  specialize (Hs (rev e) (in_map _ _ _ Hin)).
  assert (is_prefix (rev e) (rev (list_ascii_of_string s)) = true).
  { apply is_prefix_app. exists (rev fr). rewrite Heq, rev_app_distr.
    reflexivity. }
  congruence.
Qed.

End TrimFacts.

Section TitleFields.

Import GoStrings GoStringsFacts.
Local Open Scope string_scope.

(** X5: after a fetch that finds a [StreamTitle] with the separator
    [" - "], neither the artist nor the title starts or ends with a
    white-space character, whatever surrounds the separator in the tag. *)
Theorem FetchTrack_fields_are_trimmed (v : Visualizer)
    (tags : gmap string string) (value before after : string) :
  streamURL v <> "" ->
  tags !! "StreamTitle" = Some value ->
  value = before ++ " - " ++ after ->
  let t := (FetchTrack v (probe_tags tags)).2 in
  ~ leading_space (Artist t) /\ ~ trailing_space (Artist t)
  /\ ~ leading_space (Title t) /\ ~ trailing_space (Title t).
Proof.
  intros Hurl Htag Hval. unfold FetchTrack.
  destruct (String.eqb_spec (streamURL v) ""); [contradiction|].
  cbn [snd track set_track]. unfold apply_tags. rewrite Htag.
  unfold SplitN2.
  destruct (Index value " - ") as [i|] eqn:Hi.
  - cbn [Artist Title].
    split; [apply TrimSpace_clean|]. split; [apply TrimSpace_clean|].
    split; apply TrimSpace_clean.
  - exfalso. exact (Index_None _ _ Hi before after Hval).
Qed.

(** X6: for a [StreamTitle] of the form artist, [" - "], title, where the
    separator does not occur earlier and neither part has white space at
    its ends, the three fields agree: the raw field is the artist, the
    separator and the title put together again. *)
Theorem FetchTrack_fields_rebuild_raw (v : Visualizer)
    (tags : gmap string string) (artist title : string) :
  streamURL v <> "" ->
  tags !! "StreamTitle" = Some (artist ++ " - " ++ title) ->
  first_occurrence " - " artist title ->
  ~ leading_space artist -> ~ trailing_space artist ->
  ~ leading_space title -> ~ trailing_space title ->
  let t := (FetchTrack v (probe_tags tags)).2 in
  Artist t = artist /\ Title t = title
  /\ Raw t = Artist t ++ " - " ++ Title t.
Proof.
  intros Hurl Htag Hfirst HaL HaT HtL HtT. unfold FetchTrack.
  destruct (String.eqb_spec (streamURL v) ""); [contradiction|].
  cbn [snd track set_track]. unfold apply_tags. rewrite Htag.
  rewrite (SplitN2_first " - " artist title Hfirst).
  cbn [Artist Title Raw].
  rewrite (TrimSpace_fixed artist HaL HaT), (TrimSpace_fixed title HtL HtT).
  repeat split.
Qed.

End TitleFields.

Lemma FetchTrack_fields_are_trimmed_witness :
  let v := mkVisualizer DefaultConfig [] [] (mkTrackInfo "" "" "")
             "http://radio" None false in
  let tags : gmap string string :=
    {[ "StreamTitle"%string := "  Ann  -  Song "%string ]} in
  let t := (FetchTrack v (probe_tags tags)).2 in
  ~ leading_space (Artist t) /\ ~ trailing_space (Artist t)
  /\ ~ leading_space (Title t) /\ ~ trailing_space (Title t).
Proof.
  intros v tags.
  apply (FetchTrack_fields_are_trimmed v tags "  Ann  -  Song "%string
           "  Ann "%string " Song "%string).
  - vm_compute. discriminate.
  - reflexivity.
  - reflexivity.
Defined.

Lemma FetchTrack_fields_rebuild_raw_witness :
  let v := mkVisualizer DefaultConfig [] [] (mkTrackInfo "" "" "")
             "http://radio" None false in
  let tags : gmap string string :=
    {[ "StreamTitle"%string := "Ann - Song"%string ]} in
  let t := (FetchTrack v (probe_tags tags)).2 in
  Artist t = "Ann"%string /\ Title t = "Song"%string
  /\ Raw t = (Artist t ++ " - " ++ Title t)%string.
Proof.
  intros v tags.
  apply (FetchTrack_fields_rebuild_raw v tags "Ann"%string "Song"%string).
  - vm_compute. discriminate.
  - reflexivity.
  - exact first_occurrence_Ann_Song.
  - apply no_leading_space. vm_compute. reflexivity.
  - apply no_trailing_space. vm_compute. reflexivity.
  - apply no_leading_space. vm_compute. reflexivity.
  - apply no_trailing_space. vm_compute. reflexivity.
Defined.

(** ** Stream loop: what it keeps and what it shows *)

Lemma assign_length {A : Type} (l l' : list A) (i : Z) (x : A) :
  assign l i x = Some l' -> length l' = length l.
Proof.
  unfold assign. destruct (index l i); [|discriminate].
  cbn [mbind option_bind]. intros [= <-]. apply length_insert.
Qed.

Lemma demux_length (rawBuffer : list Byte.byte) :
  forall (idxs : list Z) (buffer buffer' : list Z),
    demux rawBuffer idxs buffer = Some buffer' ->
    length buffer' = length buffer.
Proof.
  induction idxs as [|i idxs IH]; intros buffer buffer' Hd.
  - injection Hd as <-. reflexivity.
  - cbn [demux] in Hd.
    destruct (index rawBuffer (i * 2)) as [lo|]; [|discriminate Hd].
    destruct (index rawBuffer (i * 2 + 1)) as [hi|]; [|discriminate Hd].
    cbn [mbind option_bind] in Hd.
    destruct (assign buffer i (sample_of_bytes lo hi)) as [b1|] eqn:Ha;
      [|discriminate Hd].
    cbn [mbind option_bind] in Hd.
    rewrite (IH _ _ Hd). exact (assign_length _ _ _ _ Ha).
Qed.

Lemma reduce_columns_length (buffer : list Z) (spc : Z) :
  forall (cols : list Z) (wf wf' : list float),
    reduce_columns buffer spc cols wf = Some wf' -> length wf' = length wf.
Proof.
  induction cols as [|col cols IH]; intros wf wf' Hr.
  - injection Hr as <-. reflexivity.
  - cbn [reduce_columns] in Hr. unfold column_span in Hr.
    destruct (sum_squares buffer _ _ _) as [sum|]; [|discriminate Hr].
    cbn [mbind option_bind] in Hr.
    destruct (0 <? spc).
    + destruct (assign wf col _) as [w1|] eqn:Ha; [|discriminate Hr].
      cbn [mbind option_bind] in Hr.
      rewrite (IH _ _ Hr). exact (assign_length _ _ _ _ Ha).
    + cbn [mbind option_bind] in Hr. exact (IH _ _ Hr).
Qed.

Lemma convertToWaveform_length (buffer : list Z) (wf wf' : list float) :
  convertToWaveform buffer wf = Some wf' -> length wf' = length wf.
Proof.
  unfold convertToWaveform. destruct (len wf =? 0); [discriminate|].
  apply reduce_columns_length.
Qed.

Lemma smooth_from_length (alpha : float) :
  forall (wf : list float) (i : Z) (sm sm' : list float),
    smooth_from alpha i wf sm = Some sm' -> length sm' = length sm.
Proof.
  induction wf as [|w wf IH]; intros i sm sm' Hs.
  - injection Hs as <-. reflexivity.
  - cbn [smooth_from] in Hs.
    destruct (index sm i) as [s|]; [|discriminate Hs].
    cbn [mbind option_bind] in Hs.
    destruct (assign sm i _) as [s1|] eqn:Ha; [|discriminate Hs].
    cbn [mbind option_bind] in Hs.
    rewrite (IH _ _ _ Hs). exact (assign_length _ _ _ _ Ha).
Qed.

Lemma same_setup_refl (v : Visualizer) : same_setup v v.
Proof. unfold same_setup. repeat split. Qed.

Lemma same_setup_trans (v1 v2 v3 : Visualizer) :
  same_setup v1 v2 -> same_setup v2 v3 -> same_setup v1 v3.
Proof.
  unfold same_setup.
  intros (? & ? & ? & ? & ? & ?) (? & ? & ? & ? & ? & ?).
  repeat split; congruence.
Qed.

Section LoopInvariants.

Variable unrep : float -> Z.

(** One pass: it returns, goes on without a frame and without a change, or
    goes on after a full chunk with one frame, the rendering of the new
    state. *)
Lemma iterate_cases (v : Visualizer) (l : locals) (o : observation)
    (s : step) :
  iterate unrep v l o = Some s ->
  (exists e, s = Return e (set_running false v) /\ obs_done o = Some e)
  \/ (exists e, s = Return e v /\ obs_done o = None /\ obs_err o = Some e
                /\ e <> io_EOF /\ e <> io_ErrUnexpectedEOF)
  \/ (s = Continue v (after_read l o) []
      /\ end_of_stream (len (rawBuffer l)) o)
  \/ (exists v' l' frame,
        s = Continue v' l' [frame]
        /\ obs_done o = None
        /\ full_chunk (len (rawBuffer l)) o = true
        /\ same_setup v v' /\ running v' = running v
        /\ Render unrep v' = Some frame
        /\ rawBuffer l' = rawBuffer (after_read l o)
        /\ length (buffer l') = length (buffer l)
        /\ length (loc_waveform l') = length (loc_waveform l)).
Proof.
  unfold iterate, end_of_stream, full_chunk, after_read.
  destruct (obs_done o) as [e|] eqn:Hd.
  { intros [= <-]. left. eauto. }
  pose proof (read_into_length (obs_data o) (rawBuffer l)) as Hlen.
  destruct (read_into (obs_data o) (rawBuffer l)) as [n raw] eqn:Hr.
  cbn [snd] in Hlen.
  assert (Hn : n = Z.min (len (obs_data o)) (len (rawBuffer l))).
  { unfold read_into in Hr. injection Hr as <- _. reflexivity. }
  destruct (obs_err o) as [e|] eqn:He.
  - destruct (error_eqb e io_EOF) eqn:E1.
    { apply error_eqb_eq in E1 as ->. cbn. intros [= <-].
      right. right. left. cbn [snd]. auto. }
    destruct (error_eqb e io_ErrUnexpectedEOF) eqn:E2.
    { apply error_eqb_eq in E2 as ->. cbn. intros [= <-].
      right. right. left. cbn [snd]. auto. }
    cbn. intros [= <-]. right. left. exists e.
    repeat split; try reflexivity.
    + intros ->. discriminate E1.
    + intros ->. discriminate E2.
  - rewrite Hlen. destruct (Z.ltb_spec n (len (rawBuffer l))) as [Hlt|Hge].
    { intros [= <-]. right. right. left. cbn [snd].
      split; [reflexivity|]. split; [reflexivity|]. right. right.
      split; [reflexivity | lia]. }
    cbn [rawBuffer buffer loc_waveform].
    destruct (demux raw _ (buffer l)) as [buf|] eqn:Hdm; [|discriminate].
    cbn [mbind option_bind].
    destruct (convertToWaveform buf (loc_waveform l)) as [wf|] eqn:Hcw;
      [|discriminate].
    cbn [mbind option_bind].
    destruct (smooth _ wf (smoothed v)) as [sm|] eqn:Hsm; [|discriminate].
    cbn [mbind option_bind].
    destruct (Render unrep (set_smoothed sm v)) as [frame|] eqn:Hrn;
      [|discriminate].
    cbn [mbind option_bind]. intros [= <-].
    right. right. right.
    exists (set_smoothed sm v), (mkLocals raw buf wf), frame.
    split; [reflexivity|]. split; [reflexivity|].
    split; [apply Z.leb_le; lia|].
    split.
    { unfold same_setup. cbn. repeat split.
      exact (smooth_from_length _ _ _ _ _ Hsm). }
    split; [reflexivity|]. split; [exact Hrn|].
    cbn [rawBuffer buffer loc_waveform snd].
    split; [reflexivity|].
    split; [exact (demux_length _ _ _ _ Hdm)|].
    exact (convertToWaveform_length _ _ _ Hcw).
Qed.

(** The invariant of the loop over any run that does not panic. *)
Lemma loop_invariant (obs : list observation) :
  forall (v : Visualizer) (l : locals) (printed : list string)
         (out : outcome),
    loop unrep v l printed obs = Some out ->
    let v' := outcome_visualizer out in
    same_setup v v'
    /\ (exists more,
          outcome_printed out = printed ++ more
          /\ ((more = [] /\ smoothed v' = smoothed v)
              \/ exists earlier frame,
                   more = earlier ++ [frame]
                   /\ Render unrep v' = Some frame)
          /\ match out with
             | Looping _ _ _ =>
                 length more
                 = length (filter (fun o => full_chunk (len (rawBuffer l)) o)
                             obs)
             | Returned _ _ _ => True
             end)
    /\ match out with
       | Looping _ _ _ =>
           running v' = running v
           /\ Forall (fun o => obs_done o = None) obs
       | Returned e _ _ =>
           (running v' = false /\ exists o, In o obs /\ obs_done o = Some e)
           \/ (running v' = running v
               /\ exists o, In o obs /\ obs_err o = Some e
                            /\ e <> io_EOF /\ e <> io_ErrUnexpectedEOF)
       end.
Proof.
  induction obs as [|o obs IH]; intros v l printed out Hl.
  - injection Hl as <-. cbn. split; [apply same_setup_refl|].
    split; [|split; [reflexivity | constructor]].
    exists []. rewrite app_nil_r. split; [reflexivity|].
    split; [left; split; reflexivity | reflexivity].
  - cbn [loop] in Hl.
    destruct (iterate unrep v l o) as [s|] eqn:Hi; [|discriminate Hl].
    cbn [mbind option_bind] in Hl.
    destruct (iterate_cases v l o s Hi)
      as [(e & -> & Hd) | [(e & -> & Hd & He & H1 & H2)
          | [(-> & Hd & Hend) | (v1 & l1 & frame & -> & Hd & Hfull & Hsame
                                 & Hrun & Hrender & Hraw & Hb & Hw)]]].
    + injection Hl as <-. cbn. split; [unfold same_setup; repeat split|].
      split.
      * exists []. rewrite app_nil_r. split; [reflexivity|].
        split; [left; split; reflexivity | exact I].
      * left. split; [reflexivity|]. exists o. split; [left; reflexivity|].
        exact Hd.
    + injection Hl as <-. cbn. split; [apply same_setup_refl|].
      split.
      * exists []. rewrite app_nil_r. split; [reflexivity|].
        split; [left; split; reflexivity | exact I].
      * right. split; [reflexivity|]. exists o.
        split; [left; reflexivity|]. auto.
    + rewrite app_nil_r in Hl.
      destruct (IH _ _ _ _ Hl) as (Hs & (more & Hp & Hshow & Hcount) & Hrun).
      cbn zeta in *. split; [exact Hs|]. split.
      * exists more. split; [exact Hp|]. split; [exact Hshow|].
        destruct out as [e v2 p2 | v2 l2 p2]; [exact I|].
        rewrite Hcount. unfold after_read. cbn [rawBuffer].
        assert (Hlen := read_into_length (obs_data o) (rawBuffer l)).
        rewrite filter_cons.
        assert (Hnf : full_chunk (len (rawBuffer l)) o = false).
        { unfold full_chunk.
          destruct Hend as [-> | [-> | [-> Hlt]]]; try reflexivity.
          apply Z.leb_gt. exact Hlt. }
        rewrite decide_False by (rewrite Hnf; exact id).
        rewrite Hlen. reflexivity.
      * destruct out as [e v2 p2 | v2 l2 p2].
        -- destruct Hrun as [[Hf (o' & Hin & Ho')] | [Hr (o' & Hin & Ho')]].
           ++ left. split; [exact Hf|]. exists o'. split; [right|]; assumption.
           ++ right. split; [exact Hr|]. exists o'.
              split; [right|]; assumption.
        -- destruct Hrun as [Hr Hall]. split; [exact Hr|].
           constructor; assumption.
    + destruct (IH _ _ _ _ Hl) as (Hs & (more & Hp & Hshow & Hcount) & Hrun2).
      cbn zeta in *.
      split; [exact (same_setup_trans _ _ _ Hsame Hs)|]. split.
      * exists (frame :: more). split.
        { rewrite Hp, <- app_assoc. reflexivity. }
        split.
        { right. destruct Hshow as [[-> Hsm] | (earlier & f & -> & Hf)].
          - exists [], frame. split; [reflexivity|].
            unfold Render in *. rewrite Hsm.
            destruct Hs as (-> & _). exact Hrender.
          - exists (frame :: earlier), f. split; [reflexivity | exact Hf]. }
        destruct out as [e v2 p2 | v2 l2 p2]; [exact I|].
        cbn [length]. rewrite Hcount, Hraw. unfold after_read.
        cbn [rawBuffer].
        assert (Hlen := read_into_length (obs_data o) (rawBuffer l)).
        rewrite filter_cons.
        rewrite decide_True by (rewrite Hfull; exact I).
        cbn [length]. rewrite Hlen. reflexivity.
      * destruct out as [e v2 p2 | v2 l2 p2].
        -- destruct Hrun2 as [[Hf (o' & Hin & Ho')] | [Hr (o' & Hin & Ho')]].
           ++ left. split; [exact Hf|]. exists o'. split; [right|]; assumption.
           ++ right. split; [congruence|]. exists o'.
              split; [right|]; assumption.
        -- destruct Hrun2 as [Hr Hall]. split; [congruence|].
           constructor; assumption.
Qed.

End LoopInvariants.

Section StreamRuns.

Variable unrep : float -> Z.

Lemma processStream_loop (v : Visualizer) (obs : list observation)
    (out : outcome) :
  processStream unrep v obs = Some out ->
  exists raw,
    make Byte.x00 (GoInt.mul (ChunkSize (config v)) 2) = Some raw
    /\ 0 <= ChunkSize (config v) /\ 0 <= Width (config v)
    /\ FPS (config v) <> 0
    /\ loop unrep v
         (mkLocals raw (repeat 0 (Z.to_nat (ChunkSize (config v))))
            (repeat 0%float (Z.to_nat (Width (config v))))) [] obs
       = Some out.
Proof.
  unfold processStream. intros H.
  destruct (make Byte.x00 _) as [raw|] eqn:Hraw; [|discriminate H].
  cbn [mbind option_bind] in H.
  destruct (make 0 _) as [buf|] eqn:Hbuf; [|discriminate H].
  cbn [mbind option_bind] in H.
  destruct (make 0%float _) as [wf|] eqn:Hwf; [|discriminate H].
  cbn [mbind option_bind] in H.
  destruct (Z.eqb_spec (FPS (config v)) 0) as [|Hfps]; [discriminate H|].
  apply make_Some in Hbuf as [Hcs ->]. apply make_Some in Hwf as [Hw ->].
  exists raw. auto.
Qed.

(** X7: whatever the reader delivers and however the loop ends, a start
    from a reader leaves the configuration, the track and the stream URL
    as they were, keeps the handle it installed, and keeps the length of
    the vector that [GetWaveform] returns. *)
Theorem StartFromReader_keeps_setup (v : Visualizer) (c : CancelFunc)
    (obs : list observation) (out : outcome) :
  StartFromReader unrep v c obs = Some out ->
  let v' := outcome_visualizer out in
  config v' = config v /\ GetTrack v' = GetTrack v
  /\ streamURL v' = streamURL v /\ cancel v' = Some c
  /\ length (GetWaveform v') = length (GetWaveform v).
Proof.
  unfold StartFromReader. intros H.
  destruct (processStream_loop _ _ _ H) as (raw & _ & _ & _ & _ & Hl).
  destruct (loop_invariant unrep _ _ _ _ _ Hl)
    as ((Hc & _ & Ht & Hu & Hk & Hlen) & _).
  cbn zeta. unfold GetTrack, GetWaveform.
  rewrite Hc, Ht, Hu, Hk, Hlen. repeat split.
Qed.

(** X8: while the loop is running [IsRunning] answers true.  When the loop
    has returned, either it returned the error of a done context and
    [IsRunning] answers false, or it returned a read error other than the
    two end-of-stream errors and [IsRunning] still answers true: only a
    cancellation clears the flag, in every run. *)
Theorem IsRunning_cleared_only_by_cancellation (v : Visualizer)
    (c : CancelFunc) (obs : list observation) (out : outcome) :
  StartFromReader unrep v c obs = Some out ->
  match out with
  | Looping v' _ _ =>
      IsRunning v' = true /\ Forall (fun o => obs_done o = None) obs
  | Returned e v' _ =>
      (IsRunning v' = false
       /\ exists o, In o obs /\ obs_done o = Some e)
      \/ (IsRunning v' = true
          /\ exists o, In o obs /\ obs_err o = Some e
                       /\ e <> io_EOF /\ e <> io_ErrUnexpectedEOF)
  end.
Proof.
  unfold StartFromReader. intros H.
  destruct (processStream_loop _ _ _ H) as (raw & _ & _ & _ & _ & Hl).
  destruct (loop_invariant unrep _ _ _ _ _ Hl) as (_ & _ & Hrun).
  destruct out as [e v' p | v' l' p]; exact Hrun.
Qed.

(** X9: the screen is never behind the state: if the loop printed
    anything, the last frame it printed is the rendering of the smoothed
    vector the visualizer holds at the end; if it printed nothing, the
    smoothed vector is the one it started with. *)
Theorem last_frame_shows_current_state (v : Visualizer) (c : CancelFunc)
    (obs : list observation) (out : outcome) :
  StartFromReader unrep v c obs = Some out ->
  let v' := outcome_visualizer out in
  (outcome_printed out = [] /\ GetWaveform v' = GetWaveform v)
  \/ exists earlier frame,
       outcome_printed out = earlier ++ [frame]
       /\ Render unrep v' = Some frame.
Proof.
  unfold StartFromReader. intros H.
  destruct (processStream_loop _ _ _ H) as (raw & _ & _ & _ & _ & Hl).
  destruct (loop_invariant unrep _ _ _ _ _ Hl)
    as (_ & (more & Hp & Hshow & _) & _).
  cbn zeta. rewrite Hp. cbn [app]. exact Hshow.
Qed.

(** X10: the loop prints exactly one frame for every read that fills the
    raw buffer of [2 * ChunkSize] bytes, and none for any other read. *)
Theorem one_frame_per_full_chunk (v : Visualizer) (c : CancelFunc)
    (obs : list observation) (v' : Visualizer) (l' : locals)
    (printed : list string) :
  ChunkSize (config v) <= GoInt.max_int ->
  StartFromReader unrep v c obs = Some (Looping v' l' printed) ->
  length printed
  = length (filter (fun o => full_chunk (2 * ChunkSize (config v)) o) obs).
Proof.
  unfold StartFromReader. intros Hmax H.
  destruct (processStream_loop _ _ _ H) as (raw & Hraw & Hcs & _ & _ & Hl).
  cbn [config set_running set_cancel] in Hraw, Hcs.
  pose proof (rawBuffer_length _ raw (conj Hcs Hmax) Hraw) as Hlen.
  destruct (loop_invariant unrep _ _ _ _ _ Hl)
    as (_ & (more & Hp & _ & Hcount) & _).
  cbn [outcome_printed app rawBuffer] in Hp, Hcount.
  rewrite Hp, Hcount, Hlen. reflexivity.
Qed.

Lemma loop_end_of_stream (v : Visualizer) (obs : list observation) :
  forall l : locals,
    Forall (end_of_stream (len (rawBuffer l))) obs ->
    exists l', loop unrep v l [] obs = Some (Looping v l' [])
               /\ buffer l' = buffer l
               /\ loc_waveform l' = loc_waveform l.
Proof.
  induction obs as [|o obs IH]; intros l Hall.
  - exists l. repeat split.
  - inversion Hall as [|? ? [Hd Hend] Hrest]; subst.
    cbn [loop].
    rewrite (iterate_transient unrep v l o Hd Hend).
    cbn [mbind option_bind app].
    destruct (IH (after_read l o)) as (l' & Hl & Hb & Hw).
    { unfold after_read. cbn [rawBuffer].
      rewrite (read_into_length (obs_data o) (rawBuffer l)). exact Hrest. }
    exists l'. split; [exact Hl|]. split; [exact Hb | exact Hw].
Qed.

(** X11: the end of the stream does not end the loop.  On a reader whose
    every read ends in end-of-stream or comes up short, the loop is still
    running after any number of passes: it has returned nothing, printed
    nothing and changed nothing but the handle and the running flag that
    the start set. *)
Theorem stream_end_does_not_return (v : Visualizer) (c : CancelFunc)
    (obs : list observation) :
  0 <= ChunkSize (config v) < 2 ^ 62 ->
  0 <= Width (config v) -> FPS (config v) <> 0 ->
  Forall (end_of_stream (2 * ChunkSize (config v))) obs ->
  exists l,
    StartFromReader unrep v c obs
    = Some (Looping (set_running true (set_cancel (Some c) v)) l []).
Proof.
  intros Hcs Hw Hfps Hall.
  assert (Hmul : GoInt.mul (ChunkSize (config v)) 2
                 = 2 * ChunkSize (config v)).
  { unfold GoInt.mul. rewrite wrap64_id; [lia|].
    unfold GoInt.min_int, GoInt.max_int. lia. }
  unfold StartFromReader, processStream, make.
  cbn [config set_running set_cancel]. rewrite Hmul.
  destruct (Z.ltb_spec (2 * ChunkSize (config v)) 0); [lia|].
  destruct (Z.ltb_spec (ChunkSize (config v)) 0); [lia|].
  destruct (Z.ltb_spec (Width (config v)) 0); [lia|].
  cbn [mbind option_bind].
  destruct (Z.eqb_spec (FPS (config v)) 0); [contradiction|].
  destruct (loop_end_of_stream (set_running true (set_cancel (Some c) v)) obs
              (mkLocals (repeat Byte.x00 (Z.to_nat (2 * ChunkSize (config v))))
                 (repeat 0 (Z.to_nat (ChunkSize (config v))))
                 (repeat 0%float (Z.to_nat (Width (config v))))))
    as (l' & Hl & _).
  { cbn [rawBuffer]. unfold len. rewrite repeat_length, Z2Nat.id by lia.
    exact Hall. }
  exists l'. exact Hl.
Qed.

Lemma New_no_track (cfg : Config) (v : Visualizer) :
  New cfg = Some v ->
  track v = mkTrackInfo "" "" "" /\ streamURL v = ""%string.
Proof.
  unfold New. intros H.
  destruct (make 0%float (Width (backfill cfg))) as [w|]; [|discriminate H].
  cbn [mbind option_bind] in H. injection H as <-. split; reflexivity.
Qed.

(** X12: a visualizer that was only ever started from a reader has no
    stream URL, so [FetchTrack] on it never consults the probe: whatever
    tags the probe would deliver, the track stays empty. *)
Theorem reader_start_never_fetches (cfg : Config) (v : Visualizer)
    (c : CancelFunc) (obs : list observation) (out : outcome) (p : probe) :
  New cfg = Some v ->
  StartFromReader unrep v c obs = Some out ->
  FetchTrack (outcome_visualizer out) p
  = (outcome_visualizer out, mkTrackInfo "" "" "").
Proof.
  intros HN H. unfold StartFromReader in H.
  destruct (processStream_loop _ _ _ H) as (raw & _ & _ & _ & _ & Hl).
  destruct (loop_invariant unrep _ _ _ _ _ Hl)
    as ((_ & _ & Ht & Hu & _) & _).
  cbn [track streamURL set_running set_cancel] in Ht, Hu.
  destruct (New_no_track cfg v HN) as [Htr Hurl].
  unfold FetchTrack. rewrite Hu, Hurl, Ht, Htr. reflexivity.
Qed.

(** X13: after a start from a reader, however the loop ended, [Stop]
    invokes the handle that the start installed and leaves the visualizer
    not running; the handle is kept, so every further [Stop] invokes it
    again. *)
Theorem Stop_after_start (v : Visualizer) (c : CancelFunc)
    (obs : list observation) (out : outcome) :
  StartFromReader unrep v c obs = Some out ->
  exists v1,
    Stop (outcome_visualizer out) = Some (v1, [c])
    /\ IsRunning v1 = false
    /\ Stop v1 = Some (v1, [c]).
Proof.
  unfold StartFromReader. intros H.
  destruct (processStream_loop _ _ _ H) as (raw & _ & _ & _ & _ & Hl).
  destruct (loop_invariant unrep _ _ _ _ _ Hl)
    as ((_ & _ & _ & _ & Hk & _) & _).
  cbn [cancel set_running set_cancel] in Hk.
  exists (set_running false (outcome_visualizer out)).
  unfold Stop. cbn [cancel set_running]. rewrite Hk. cbn.
  repeat split.
Qed.

(** X14: when the decoder cannot be launched, [StartFromURL] returns the
    launch error wrapped under its message and processes nothing, but the
    visualizer has already been marked: [IsRunning] answers true, the
    handle is installed and the URL is recorded, until [Stop] is called. *)
Theorem StartFromURL_launch_failure (v : Visualizer) (c : CancelFunc)
    (url : string) (la : launch) (obs : list observation) (e : error) :
  pipe_err la = Some e \/ (pipe_err la = None /\ start_err la = Some e) ->
  exists msg v',
    StartFromURL unrep v c url la obs = Some (LaunchFailed msg e v')
    /\ (msg = "failed to create pipe"%string
        \/ msg = "failed to start ffmpeg"%string)
    /\ IsRunning v' = true /\ cancel v' = Some c /\ streamURL v' = url
    /\ config v' = config v /\ GetWaveform v' = GetWaveform v
    /\ GetTrack v' = GetTrack v
    /\ Stop v' = Some (set_running false v', [c]).
Proof.
  unfold StartFromURL.
  intros [-> | [-> ->]]; do 2 eexists;
    (split; [reflexivity|]); (split; [auto|]); repeat split.
Qed.

(** X15: a start from a URL records the URL before anything else, so
    after it, and whatever the loop did, a fetch with a non-empty URL
    consults the probe: tags delivered by the probe are applied to the
    track that was cached before the start. *)
Theorem URL_start_enables_fetch (v : Visualizer) (c : CancelFunc)
    (url : string) (obs : list observation) (out : outcome)
    (tags : gmap string string) :
  url <> ""%string ->
  StartFromURL unrep v c url (mkLaunch None None) obs = Some (Streamed out) ->
  (FetchTrack (outcome_visualizer out) (probe_tags tags)).2
  = apply_tags tags (GetTrack v).
Proof.
  intros Hurl H. unfold StartFromURL in H. cbn [pipe_err start_err] in H.
  destruct (processStream unrep _ obs) as [o|] eqn:Hp; [|discriminate H].
  cbn in H. injection H as <-.
  destruct (processStream_loop _ _ _ Hp) as (raw & _ & _ & _ & _ & Hl).
  destruct (loop_invariant unrep _ _ _ _ _ Hl)
    as ((_ & _ & Ht & Hu & _) & _).
  cbn [track streamURL set_running set_cancel set_streamURL] in Ht, Hu.
  unfold FetchTrack, GetTrack. rewrite Hu.
  destruct (String.eqb_spec url ""); [contradiction|].
  cbn [snd track set_track]. rewrite Ht. reflexivity.
Qed.

End StreamRuns.

Section TrackLine.

Import GoStrings GoStringsFacts.
Local Open Scope string_scope.

(** X16: one tick of the example's track updater prints the tag as it was
    received, not the trimmed artist and title.  A [StreamTitle] that is
    present but empty takes precedence over an [icy-name]: it empties the
    cached track and the tick only erases the line. *)
Theorem trackUpdater_tick_shows_raw (v : Visualizer)
    (tags : gmap string string) (value : string) :
  streamURL v <> "" ->
  tags !! "StreamTitle" = Some value ->
  let '(v', line) := trackUpdater_tick v (probe_tags tags) in
  Raw (GetTrack v') = value
  /\ (value <> "" ->
      line = String ESC "[1;0H" ++ String ESC "[KNow playing: " ++ value
             ++ newline)
  /\ (value = "" ->
      GetTrack v' = mkTrackInfo "" "" ""
      /\ line = String ESC "[1;0H" ++ String ESC "[K").
Proof.
  intros Hurl Htag. unfold trackUpdater_tick, FetchTrack.
  destruct (String.eqb_spec (streamURL v) ""); [contradiction|].
  unfold GetTrack, track_line. cbn [track set_track].
  assert (Hraw : Raw (apply_tags tags (track v)) = value).
  { unfold apply_tags. rewrite Htag.
    destruct (SplitN2 value " - ") as [|? [|? [|? ?]]]; reflexivity. }
  rewrite Hraw. split; [reflexivity|]. split.
  - intros Hne. destruct (String.eqb_spec value ""); [contradiction|].
    reflexivity.
  - intros ->. split; [|reflexivity].
    unfold apply_tags. rewrite Htag. reflexivity.
Qed.

End TrackLine.

Lemma one_frame_per_full_chunk_witness :
  exists v v' l' printed,
    New scenario_config = Some v
    /\ StartFromReader (fun _ => 0) v 1%nat
         [mkObservation None scenario_bytes None;
          mkObservation None [] (Some io_EOF);
          mkObservation None scenario_bytes None]
       = Some (Looping v' l' printed)
    /\ length printed
       = length (filter (fun o => full_chunk (2 * ChunkSize (config v)) o)
                   [mkObservation None scenario_bytes None;
                    mkObservation None [] (Some io_EOF);
                    mkObservation None scenario_bytes None]).
Proof.
  do 4 eexists. split; [vm_compute; reflexivity|].
  split; [vm_compute; reflexivity|].
  eapply (one_frame_per_full_chunk (fun _ => 0) _ 1%nat).
  - vm_compute. discriminate.
  - vm_compute. reflexivity.
Defined.

Lemma StartFromReader_keeps_setup_witness :
  exists out,
    StartFromReader (fun _ => 0) scenario_visualizer 1%nat scenario_cancelled
    = Some out
    /\ config (outcome_visualizer out) = config scenario_visualizer
    /\ GetTrack (outcome_visualizer out) = GetTrack scenario_visualizer
    /\ streamURL (outcome_visualizer out) = streamURL scenario_visualizer
    /\ cancel (outcome_visualizer out) = Some 1%nat
    /\ length (GetWaveform (outcome_visualizer out))
       = length (GetWaveform scenario_visualizer).
Proof.
  destruct (StartFromReader (fun _ => 0) scenario_visualizer 1%nat
              scenario_cancelled) as [out|] eqn:Hout;
    [|vm_compute in Hout; discriminate Hout].
  exists out. split; [reflexivity|].
  exact (StartFromReader_keeps_setup (fun _ => 0) scenario_visualizer 1%nat
           scenario_cancelled out Hout).
Defined.

Lemma IsRunning_cleared_only_by_cancellation_witness :
  exists out,
    StartFromReader (fun _ => 0) scenario_visualizer 1%nat scenario_cancelled
    = Some out
    /\ match out with
       | Looping v' _ _ =>
           IsRunning v' = true
           /\ Forall (fun o => obs_done o = None) scenario_cancelled
       | Returned e v' _ =>
           (IsRunning v' = false
            /\ exists o, In o scenario_cancelled /\ obs_done o = Some e)
           \/ (IsRunning v' = true
               /\ exists o, In o scenario_cancelled /\ obs_err o = Some e
                            /\ e <> io_EOF /\ e <> io_ErrUnexpectedEOF)
       end.
Proof.
  destruct (StartFromReader (fun _ => 0) scenario_visualizer 1%nat
              scenario_cancelled) as [out|] eqn:Hout;
    [|vm_compute in Hout; discriminate Hout].
  exists out. split; [reflexivity|].
  exact (IsRunning_cleared_only_by_cancellation (fun _ => 0)
           scenario_visualizer 1%nat scenario_cancelled out Hout).
Defined.

Lemma last_frame_shows_current_state_witness :
  exists out,
    StartFromReader (fun _ => 0) scenario_visualizer 1%nat scenario_run
    = Some out
    /\ ((outcome_printed out = []
         /\ GetWaveform (outcome_visualizer out)
            = GetWaveform scenario_visualizer)
        \/ exists earlier frame,
             outcome_printed out = earlier ++ [frame]
             /\ Render (fun _ => 0) (outcome_visualizer out) = Some frame).
Proof.
  destruct (StartFromReader (fun _ => 0) scenario_visualizer 1%nat
              scenario_run) as [out|] eqn:Hout;
    [|vm_compute in Hout; discriminate Hout].
  exists out. split; [reflexivity|].
  exact (last_frame_shows_current_state (fun _ => 0) scenario_visualizer
           1%nat scenario_run out Hout).
Defined.

Lemma stream_end_does_not_return_witness :
  exists l,
    StartFromReader (fun _ => 0) scenario_visualizer 1%nat
      [mkObservation None [] (Some io_EOF);
       mkObservation None [Byte.x01] (Some io_ErrUnexpectedEOF)]
    = Some (Looping
              (set_running true (set_cancel (Some 1%nat) scenario_visualizer))
              l []).
Proof.
  apply (stream_end_does_not_return (fun _ => 0) scenario_visualizer 1%nat).
  - vm_compute. split; [discriminate | reflexivity].
  - vm_compute. discriminate.
  - vm_compute. discriminate.
  - repeat (constructor; [split; [reflexivity | tauto]|]). constructor.
Defined.

Lemma reader_start_never_fetches_witness :
  exists out,
    StartFromReader (fun _ => 0) scenario_visualizer 1%nat scenario_run
    = Some out
    /\ FetchTrack (outcome_visualizer out)
         (probe_tags {[ "StreamTitle"%string := "Ann - Song"%string ]})
       = (outcome_visualizer out, mkTrackInfo "" "" "").
Proof.
  destruct (StartFromReader (fun _ => 0) scenario_visualizer 1%nat
              scenario_run) as [out|] eqn:Hout;
    [|vm_compute in Hout; discriminate Hout].
  exists out. split; [reflexivity|].
  apply (reader_start_never_fetches (fun _ => 0) scenario_config
           scenario_visualizer 1%nat scenario_run out);
    [reflexivity | exact Hout].
Defined.

Lemma Stop_after_start_witness :
  exists out v1,
    StartFromReader (fun _ => 0) scenario_visualizer 1%nat scenario_cancelled
    = Some out
    /\ Stop (outcome_visualizer out) = Some (v1, [1%nat])
    /\ IsRunning v1 = false
    /\ Stop v1 = Some (v1, [1%nat]).
Proof.
  destruct (StartFromReader (fun _ => 0) scenario_visualizer 1%nat
              scenario_cancelled) as [out|] eqn:Hout;
    [|vm_compute in Hout; discriminate Hout].
  destruct (Stop_after_start (fun _ => 0) scenario_visualizer 1%nat
              scenario_cancelled out Hout) as (v1 & H1 & H2 & H3).
  exists out, v1. auto.
Defined.

Lemma StartFromURL_launch_failure_witness :
  exists msg v',
    StartFromURL (fun _ => 0) scenario_visualizer 1%nat "http://radio"
      (mkLaunch None (Some (other_error "not found"))) scenario_run
    = Some (LaunchFailed msg (other_error "not found") v')
    /\ IsRunning v' = true /\ cancel v' = Some 1%nat.
Proof.
  destruct (StartFromURL_launch_failure (fun _ => 0) scenario_visualizer
              1%nat "http://radio"
              (mkLaunch None (Some (other_error "not found")))
              scenario_run (other_error "not found"))
    as (msg & v' & H1 & _ & H2 & H3 & _).
  - right. split; reflexivity.
  - exists msg, v'. auto.
Defined.

Lemma URL_start_enables_fetch_witness :
  exists out,
    StartFromURL (fun _ => 0) scenario_visualizer 1%nat "http://radio"
      (mkLaunch None None) scenario_run = Some (Streamed out)
    /\ (FetchTrack (outcome_visualizer out)
          (probe_tags {[ "icy-name"%string := "Radio"%string ]})).2
       = apply_tags {[ "icy-name"%string := "Radio"%string ]}
           (GetTrack scenario_visualizer).
Proof.
  destruct (StartFromURL (fun _ => 0) scenario_visualizer 1%nat "http://radio"
              (mkLaunch None None) scenario_run) as [[msg e v'|out]|] eqn:Hout;
    [vm_compute in Hout; discriminate Hout
    | | vm_compute in Hout; discriminate Hout].
  exists out. split; [reflexivity|].
  apply (URL_start_enables_fetch (fun _ => 0) scenario_visualizer 1%nat
           "http://radio" scenario_run out);
    [discriminate | exact Hout].
Defined.

Lemma trackUpdater_tick_shows_raw_witness :
  let v := mkVisualizer DefaultConfig [] [] (mkTrackInfo "Song" "Ann" "x")
             "http://radio" None false in
  let tags : gmap string string :=
    {[ "StreamTitle"%string := ""%string;
       "icy-name"%string := "Radio"%string ]} in
  let '(v', line) := trackUpdater_tick v (probe_tags tags) in
  Raw (GetTrack v') = ""%string
  /\ (""%string <> ""%string ->
      line = (String ESC "[1;0H" ++ String ESC "[KNow playing: " ++ ""
              ++ newline)%string)
  /\ (""%string = ""%string ->
      GetTrack v' = mkTrackInfo "" "" ""
      /\ line = (String ESC "[1;0H" ++ String ESC "[K")%string).
Proof.
  intros v tags.
  apply (trackUpdater_tick_shows_raw v tags ""%string).
  - vm_compute. discriminate.
  - reflexivity.
Defined.

(** ** Column reducer: closed form and edges *)

Lemma index_lookup {A : Type} (l : list A) (i : Z) :
  0 <= i -> index l i = l !! Z.to_nat i.
Proof. unfold index. intros H. destruct (Z.ltb_spec i 0); [lia | reflexivity]. Qed.

(** The inner loop is a left fold over the slice it walks. *)
Lemma sum_squares_fold (buffer : list Z) :
  forall (count : nat) (i : Z) (sum : float),
    0 <= i -> i + Z.of_nat count <= len buffer ->
    sum_squares buffer i count sum
    = Some (fold_left (fun s x => (s + sample_square x)%float)
              (slice buffer i (Z.of_nat count)) sum).
Proof.
  unfold slice, len.
  induction count as [|count IH]; intros i sum Hi Hend.
  - reflexivity.
  - cbn [sum_squares]. rewrite index_lookup by lia.
    destruct (lookup_lt_is_Some_2 buffer (Z.to_nat i) ltac:(lia)) as [x Hx].
    rewrite Hx. cbn [mbind option_bind].
    rewrite IH by lia.
    rewrite Nat2Z.id, (drop_S _ _ _ Hx), Nat2Z.id. cbn [take fold_left].
    replace (Z.to_nat (i + 1)) with (S (Z.to_nat i)) by lia.
    reflexivity.
Qed.

Lemma convertToWaveform_closed (buffer : list Z) (waveform : list float) :
  0 < len waveform <= len buffer ->
  let spc := Z.quot (len buffer) (len waveform) in
  convertToWaveform buffer waveform
  = Some (map (fun col => rms (slice buffer (col * spc) spc) spc)
            (range (len waveform))).
Proof.
  intros Hlen spc. unfold convertToWaveform.
  destruct (Z.eqb_spec (len waveform) 0); [lia|]. fold spc.
  assert (Hspc : 0 < spc).
  { unfold spc. rewrite Z.quot_div_nonneg by lia.
    apply Z.div_str_pos. lia. }
  assert (Hfit : len waveform * spc <= len buffer).
  { unfold spc. rewrite Z.quot_div_nonneg by lia.
    apply Z.mul_div_le. lia. }
  unfold range.
  replace (Z.to_nat (len waveform)) with (length waveform)
    by (unfold len; lia).
  assert (Hgen : forall cur pre : list float,
             Z.of_nat (length pre + length cur) <= len waveform ->
             reduce_columns buffer spc
               (map Z.of_nat (seq (length pre) (length cur))) (pre ++ cur)
             = Some (pre ++ map (fun col => rms (slice buffer (col * spc) spc) spc)
                              (map Z.of_nat (seq (length pre) (length cur))))).
  { induction cur as [|c cur IH]; intros pre Hle; [reflexivity|].
    cbn [length seq map reduce_columns]. unfold column_span.
    cbn [length] in Hle.
    assert (Hend : Z.of_nat (length pre) * spc + spc <= len buffer) by nia.
    rewrite Z.min_l by lia.
    replace (Z.of_nat (length pre) * spc + spc - Z.of_nat (length pre) * spc)
      with spc by lia.
    rewrite sum_squares_fold by lia.
    cbn [mbind option_bind]. rewrite Z2Nat.id by lia.
    fold (rms (slice buffer (Z.of_nat (length pre) * spc) spc) spc).
    destruct (Z.ltb_spec 0 spc) as [_|]; [|lia].
    set (val := rms _ _).
    pose proof (assign_app_here pre cur c val) as Ha. unfold len in Ha.
    rewrite Ha. cbn [mbind option_bind].
    replace (pre ++ val :: cur) with ((pre ++ [val]) ++ cur)
      by (rewrite <- app_assoc; reflexivity).
    replace (S (length pre)) with (length (pre ++ [val]))
      by (rewrite length_app; cbn [length]; lia).
    rewrite IH by (rewrite length_app; cbn [length]; lia).
    rewrite <- app_assoc. reflexivity. }
  exact (Hgen waveform [] ltac:(unfold len; cbn [length]; lia)).
Qed.

(** X17: when the buffer holds at least one sample per column, the
    reducer overwrites every column: column [col] becomes the root mean
    square of the [len(buffer) / len(waveform)] samples from
    [col * (len(buffer) / len(waveform))] on, summed from left to right.
    What the profile held before plays no part. *)
Theorem convertToWaveform_is_rms_of_slices (buffer : list Z)
    (waveform : list float) :
  0 < len waveform <= len buffer ->
  let spc := Z.quot (len buffer) (len waveform) in
  convertToWaveform buffer waveform
  = Some (map (fun col => rms (slice buffer (col * spc) spc) spc)
            (range (len waveform)))
  /\ forall previous : list float,
       length previous = length waveform ->
       convertToWaveform buffer previous = convertToWaveform buffer waveform.
Proof.
  intros Hlen spc. split.
  - exact (convertToWaveform_closed buffer waveform Hlen).
  - intros previous Hp.
    assert (Hl : len previous = len waveform) by (unfold len; lia).
    rewrite (convertToWaveform_closed buffer waveform Hlen).
    rewrite (convertToWaveform_closed buffer previous) by lia.
    rewrite Hl. reflexivity.
Qed.

Lemma convertToWaveform_is_rms_of_slices_witness :
  convertToWaveform [0; 0; 0; 0; 32767; 32767; 32767; 32767]
    [1; 2; 3; 4]%float
  = convertToWaveform [0; 0; 0; 0; 32767; 32767; 32767; 32767]
      (repeat 0%float 4).
Proof.
  apply (convertToWaveform_is_rms_of_slices
           [0; 0; 0; 0; 32767; 32767; 32767; 32767] (repeat 0%float 4)).
  - vm_compute. split; [reflexivity | discriminate].
  - reflexivity.
Defined.

Lemma reduce_columns_no_samples (buffer : list Z) :
  forall (cols : list Z) (waveform : list float),
    reduce_columns buffer 0 cols waveform = Some waveform.
Proof.
  induction cols as [|col cols IH]; intros waveform; [reflexivity|].
  cbn [reduce_columns]. unfold column_span.
  replace (Z.to_nat (Z.min (col * 0 + 0) (len buffer) - col * 0)) with 0%nat
    by (unfold len; lia).
  cbn [sum_squares mbind option_bind]. exact (IH waveform).
Qed.

(** X18: the two edges of the reducer.  It panics, on the division by the
    number of columns, exactly when the profile is empty.  When the profile
    has more columns than the buffer has samples, no column is written:
    the profile is returned as it was. *)
Theorem convertToWaveform_edges (buffer : list Z) (waveform : list float) :
  (convertToWaveform buffer waveform = None <-> waveform = [])
  /\ (len buffer < len waveform ->
      convertToWaveform buffer waveform = Some waveform).
Proof.
  assert (Hfew : len buffer < len waveform ->
                 convertToWaveform buffer waveform = Some waveform).
  { intros Hlt. unfold convertToWaveform.
    destruct (Z.eqb_spec (len waveform) 0) as [H0|_];
      [unfold len in *; lia|].
    rewrite Z.quot_small by (unfold len in *; lia).
    apply reduce_columns_no_samples. }
  split; [|exact Hfew]. split.
  - intros Hnone. destruct waveform as [|w waveform]; [reflexivity|].
    exfalso.
    destruct (Z_lt_le_dec (len buffer) (len (w :: waveform))) as [Hlt|Hle].
    + rewrite (Hfew Hlt) in Hnone. discriminate.
    + rewrite convertToWaveform_closed in Hnone; [discriminate|].
      split; [unfold len; cbn [length]; lia | exact Hle].
  - intros ->. reflexivity.
Qed.

Lemma convertToWaveform_edges_witness :
  convertToWaveform [100; -100] [0.5; 0.25; 0.125]%float
  = Some [0.5; 0.25; 0.125]%float.
Proof.
  apply (convertToWaveform_edges [100; -100] [0.5; 0.25; 0.125]%float).
  reflexivity.
Defined.

Lemma fold_silence (samples : list Z) :
  Forall (fun x => x = 0) samples ->
  fold_left (fun sum x => (sum + sample_square x)%float) samples 0%float
  = 0%float.
Proof.
  induction 1 as [|x samples -> _ IH]; [reflexivity|].
  cbn [fold_left].
  replace (0 + sample_square 0)%float with 0%float
    by (vm_compute; reflexivity).
  exact IH.
Qed.

Lemma zero_div_count (n : Z) :
  1 <= n <= 2 ^ 63 -> (0 / GoFloat.of_int n)%float = 0%float.
Proof.
  intros Hn. apply Prim2SF_inj. rewrite div_spec.
  destruct (of_int_count n Hn) as (m & e & -> & _). reflexivity.
Qed.

(** X19: silence gives an all-zero profile: on a buffer of zero samples
    that holds at least one sample per column, every column of the
    profile is set to exactly 0. *)
Theorem convertToWaveform_silence (buffer : list Z) (waveform : list float) :
  Forall (fun x => x = 0) buffer ->
  0 < len waveform <= len buffer -> len buffer <= GoInt.max_int ->
  convertToWaveform buffer waveform
  = Some (repeat 0%float (length waveform)).
Proof.
  intros Hzero Hlen Hmax.
  rewrite (convertToWaveform_closed buffer waveform Hlen).
  set (spc := Z.quot (len buffer) (len waveform)).
  assert (Hspc : 1 <= spc <= 2 ^ 63).
  { unfold spc. rewrite Z.quot_div_nonneg by lia. split.
    - assert (0 < len buffer / len waveform)
        by (apply Z.div_str_pos; lia). lia.
    - assert (len buffer / len waveform <= len buffer)
        by (apply Z.div_le_upper_bound; nia).
      unfold GoInt.max_int in Hmax. lia. }
  f_equal. unfold range.
  replace (Z.to_nat (len waveform)) with (length waveform)
    by (unfold len; lia).
  generalize (length waveform) as n. intros n.
  generalize 0%nat as k.
  induction n as [|n IH]; intros k; [reflexivity|].
  cbn [seq map repeat]. rewrite IH. f_equal.
  unfold rms. rewrite fold_silence.
  - rewrite (zero_div_count spc Hspc). vm_compute. reflexivity.
  - unfold slice. apply Forall_take, Forall_drop. exact Hzero.
Qed.

Lemma convertToWaveform_silence_witness :
  convertToWaveform (repeat 0 8) [1; 2; 3; 4]%float
  = Some (repeat 0%float 4).
Proof.
  apply (convertToWaveform_silence (repeat 0 8) [1; 2; 3; 4]%float).
  - repeat constructor.
  - vm_compute. split; [reflexivity | discriminate].
  - vm_compute. discriminate.
Defined.

(** ** Sample demuxer: the inverse of the decoder's sample format *)

Lemma sample_of_bytes_value (lo hi : Byte.byte) :
  let a := Z.of_N (Byte.to_N lo) in
  let b := Z.of_N (Byte.to_N hi) in
  sample_of_bytes lo hi = a + (if b <? 128 then b else b - 256) * 256.
Proof.
  intros a b. unfold sample_of_bytes, GoInt.wrap16. fold a b.
  pose proof (byte_bounds lo) as Hlo. pose proof (byte_bounds hi) as Hhi.
  fold a in Hlo. fold b in Hhi. change (2 ^ 8) with 256 in Hlo, Hhi.
  rewrite Z.shiftl_mul_pow2 by lia.
  change (2 ^ 15) with 32768. change (2 ^ 16) with 65536.
  assert (Hw : (b * 2 ^ 8 + 32768) mod 65536 - 32768
               = (if b <? 128 then b else b - 256) * 2 ^ 8).
  { change (2 ^ 8) with 256.
    destruct (Z.ltb_spec b 128).
    - rewrite Z.mod_small by lia. lia.
    - replace (b * 256 + 32768) with (b * 256 - 32768 + 1 * 65536) by lia.
      rewrite Z.mod_add by lia. rewrite Z.mod_small by lia. lia. }
  rewrite Hw. rewrite lor_low_high by (change (2 ^ 8) with 256; lia).
  reflexivity.
Qed.

Lemma byte_of_value (z : Z) :
  0 <= z < 256 -> Z.of_N (Byte.to_N (byte_of z)) = z.
Proof.
  intros Hz. unfold byte_of.
  destruct (Byte.of_N (Z.to_N z)) as [y|] eqn:Hy.
  - change (default Byte.x00 (Some y)) with y.
    apply Byte.to_of_N in Hy. rewrite Hy. lia.

  - apply Byte.of_N_None_iff in Hy. lia.
Qed.

Lemma sample_of_s16le (x : Z) :
  is_int16 x ->
  sample_of_bytes (byte_of (x mod 256)) (byte_of ((x / 256) mod 256)) = x.
Proof.
  unfold is_int16. intros Hx.
  rewrite sample_of_bytes_value. cbv zeta.
  pose proof (Z.mod_pos_bound x 256 ltac:(lia)) as Hlo.
  pose proof (Z.mod_pos_bound (x / 256) 256 ltac:(lia)) as Hhi.
  rewrite !byte_of_value by lia.
  assert (Hq : -128 <= x / 256 < 128).
  { split; [apply Z.div_le_lower_bound | apply Z.div_lt_upper_bound]; lia. }
  pose proof (Z.div_mod x 256 ltac:(lia)) as Hdm.
  destruct (Z_lt_le_dec (x / 256) 0) as [Hneg|Hpos].
  - assert (Hm : (x / 256) mod 256 = x / 256 + 256).
    { symmetry. apply (Z.mod_unique _ _ (-1)); lia. }
    rewrite Hm. destruct (Z.ltb_spec (x / 256 + 256) 128); lia.
  - rewrite (Z.mod_small (x / 256)) by lia.
    destruct (Z.ltb_spec (x / 256) 128); lia.
Qed.

Lemma flat_s16le_length (samples : list Z) :
  length (flat_map s16le samples) = (2 * length samples)%nat.
Proof.
  induction samples as [|x samples IH]; [reflexivity|].
  cbn [flat_map s16le app length]. rewrite IH. lia.
Qed.

Lemma demux_s16le (tail : list Byte.byte) :
  forall (scur spre bcur bpre : list Z),
    Forall is_int16 scur ->
    length bpre = length spre -> length bcur = length scur ->
    demux (flat_map s16le (spre ++ scur) ++ tail)
      (map Z.of_nat (seq (length spre) (length scur))) (bpre ++ bcur)
    = Some (bpre ++ scur).
Proof.
  induction scur as [|x scur IH]; intros spre bcur bpre Hall Hpre Hcur.
  - destruct bcur; [|discriminate Hcur]. reflexivity.
  - destruct bcur as [|b bcur]; [discriminate Hcur|].
    inversion Hall as [|? ? Hx Hrest]; subst.
    cbn [length seq map demux].
    set (raw := flat_map s16le (spre ++ x :: scur) ++ tail).
    set (front := flat_map s16le spre).
    assert (Hfront : len front = Z.of_nat (length spre) * 2).
    { unfold len, front. rewrite flat_s16le_length. lia. }
    assert (Hraw : raw = front ++ byte_of (x mod 256)
                           :: byte_of ((x / 256) mod 256)
                           :: flat_map s16le scur ++ tail).
    { unfold raw, front. rewrite flat_map_app. cbn [flat_map s16le app].
      rewrite <- app_assoc. reflexivity. }
    assert (Hlo : index raw (Z.of_nat (length spre) * 2)
                  = Some (byte_of (x mod 256))).
    { rewrite Hraw, <- Hfront. apply index_app_here. }
    assert (Hhi : index raw (Z.of_nat (length spre) * 2 + 1)
                  = Some (byte_of ((x / 256) mod 256))).
    { rewrite Hraw, <- Hfront.
      replace (front ++ byte_of (x mod 256) :: byte_of ((x / 256) mod 256)
                     :: flat_map s16le scur ++ tail)
        with ((front ++ [byte_of (x mod 256)])
                ++ byte_of ((x / 256) mod 256) :: flat_map s16le scur ++ tail)
        by (rewrite <- app_assoc; reflexivity).
      replace (len front + 1) with (len (front ++ [byte_of (x mod 256)]))
        by (unfold len; rewrite length_app; cbn [length]; lia).
      apply index_app_here. }
    rewrite Hlo, Hhi. cbn [mbind option_bind].
    rewrite (sample_of_s16le x Hx).
    pose proof (assign_app_here bpre bcur b x) as Ha. unfold len in Ha.
    rewrite <- Hpre, Ha. cbn [mbind option_bind].
    specialize (IH (spre ++ [x]) bcur (bpre ++ [x]) Hrest).
    rewrite <- !app_assoc in IH. cbn [app] in IH.
    rewrite !length_app in IH. cbn [length] in IH.
    replace (length spre + 1)%nat with (S (length spre)) in IH by lia.
    rewrite Hpre. fold raw in IH. apply IH.
    + lia.
    + injection Hcur as Hcur. exact Hcur.
Qed.

(** X20: the demuxer inverts the sample format that the decoder is asked
    for.  On the little-endian two-byte encodings of any signed 16-bit
    samples it fills the buffer with exactly those samples, whatever the
    buffer held before and whatever bytes follow. *)
Theorem demux_decodes_s16le (samples buffer : list Z)
    (tail : list Byte.byte) :
  Forall is_int16 samples -> length buffer = length samples ->
  demux (flat_map s16le samples ++ tail) (range (len samples)) buffer
  = Some samples.
Proof.
  intros Hall Hlen. unfold range.
  replace (Z.to_nat (len samples)) with (length samples)
    by (unfold len; lia).
  exact (demux_s16le tail samples [] buffer [] Hall eq_refl Hlen).
Qed.

Lemma demux_decodes_s16le_witness :
  demux (flat_map s16le [-32768; -1; 0; 1; 255; 256; 32767])
    (range 7) (repeat 0 7)
  = Some [-32768; -1; 0; 1; 255; 256; 32767].
Proof.
  rewrite <- (app_nil_r (flat_map s16le _)).
  apply (demux_decodes_s16le [-32768; -1; 0; 1; 255; 256; 32767]
           (repeat 0 7) []).
  - unfold is_int16. repeat constructor; lia.
  - reflexivity.
Defined.

(** ** Frame renderer: rows without bars, symmetry, edges *)

Lemma mapM_ext_Some {A B : Type} (f : A -> option B) (g : A -> B)
    (l : list A) :
  (forall x, In x l -> f x = Some (g x)) -> mapM f l = Some (map g l).
Proof.
  induction l as [|x l IH]; intros H; [reflexivity|].
  cbn [mapM map]. rewrite (H x (or_introl eq_refl)).
  cbn [mbind option_bind]. rewrite IH by (intros y Hy; apply H; right; exact Hy).
  reflexivity.
Qed.

Lemma mapM_agree {A B : Type} (f f' : A -> option B) (l : list A) :
  (forall x, In x l -> f x = f' x) -> mapM f l = mapM f' l.
Proof.
  induction l as [|x l IH]; intros H; [reflexivity|].
  cbn [mapM]. rewrite (H x (or_introl eq_refl)).
  rewrite IH by (intros y Hy; apply H; right; exact Hy). reflexivity.
Qed.

Lemma map_const_repeat {A B : Type} (b : B) (l : list A) :
  map (fun _ => b) l = repeat b (length l).
Proof. induction l as [|x l IH]; [reflexivity|]. cbn. rewrite IH. reflexivity. Qed.

Lemma string_app_assoc (a b c : string) :
  ((a ++ b) ++ c)%string = (a ++ (b ++ c))%string.
Proof.
  induction a as [|x a IH]; [reflexivity|].
  rewrite !GoStringsFacts.append_cons, IH. reflexivity.
Qed.

Lemma grow_fits (W H : Z) :
  0 <= W -> 0 <= H -> W * H * 4 <= GoInt.max_int ->
  (GoInt.mul (GoInt.mul W H) 4 <? 0) = false.
Proof.
  intros HW HH Hfit. unfold GoInt.mul.
  rewrite (wrap64_id (W * H))
    by (unfold GoInt.min_int, GoInt.max_int in *; nia).
  rewrite wrap64_id by (unfold GoInt.min_int, GoInt.max_int in *; nia).
  apply Z.ltb_ge. nia.
Qed.

Section RenderRows.

Variable unrep : float -> Z.
Variable cfg : Config.

(** A cell is blank where the glyph test fails for every value of the
    profile. *)
Lemma cell_blank (waveform : list float) (midline row col : Z) :
  0 <= col ->
  (forall x, In x waveform ->
             glyph_at midline (bar_height unrep cfg midline x) row = false) ->
  cell unrep cfg waveform midline row col = Some " "%string.
Proof.
  intros Hcol Hno. unfold cell.
  destruct ((1 <? BarSpacing cfg)
            && negb (Z.rem col (BarSpacing cfg) =? 0)); [reflexivity|].
  set (waveIdx := if 1 <? BarSpacing cfg
                  then Z.quot col (BarSpacing cfg) else col).
  assert (Hw : 0 <= waveIdx).
  { unfold waveIdx. destruct (Z.ltb_spec 1 (BarSpacing cfg)); [|lia].
    apply Z.quot_pos; lia. }
  destruct (Z.leb_spec (len waveform) waveIdx); [reflexivity|].
  destruct (index_Some waveform waveIdx ltac:(lia)) as [x Hx].
  rewrite Hx. cbn [mbind option_bind].
  rewrite Hno; [reflexivity|].
  unfold index in Hx. destruct (waveIdx <? 0); [discriminate Hx|].
  apply list_elem_of_In. exact (list_elem_of_lookup_2 _ _ _ Hx).
Qed.

Lemma render_row_blank (waveform : list float) (midline row : Z) :
  (forall x, In x waveform ->
             glyph_at midline (bar_height unrep cfg midline x) row = false) ->
  render_row unrep cfg waveform midline row = Some (blank_row cfg).
Proof.
  intros Hno. unfold render_row, blank_row, row_text.
  rewrite (mapM_ext_Some _ (fun _ => " "%string)).
  - cbn [mbind option_bind]. rewrite map_const_repeat, range_length.
    reflexivity.
  - intros col Hc. apply range_bounds in Hc.
    apply cell_blank; [lia | exact Hno].
Qed.

Lemma renderFrame_rows (waveform : list float) (rows : list string) :
  0 <= Width cfg -> 0 <= Height cfg ->
  Width cfg * Height cfg * 4 <= GoInt.max_int ->
  mapM (render_row unrep cfg waveform (Z.quot (Height cfg) 2))
       (range (Height cfg)) = Some rows ->
  renderFrame unrep cfg waveform
  = Some (frame_prefix ++ String.concat "" rows
          ++ (if ShowStatus cfg then status_line cfg else ""))%string.
Proof.
  intros HW HH Hfit Hrows. unfold renderFrame.
  rewrite (grow_fits _ _ HW HH Hfit). cbv zeta. rewrite Hrows. reflexivity.
Qed.

Lemma renderFrame_blank (waveform : list float) :
  0 <= Width cfg -> 0 <= Height cfg ->
  Width cfg * Height cfg * 4 <= GoInt.max_int ->
  (forall x row, In x waveform ->
     glyph_at (Z.quot (Height cfg) 2)
       (bar_height unrep cfg (Z.quot (Height cfg) 2) x) row = false) ->
  renderFrame unrep cfg waveform = Some (blank_frame cfg).
Proof.
  intros HW HH Hfit Hno.
  rewrite (renderFrame_rows waveform
             (map (fun _ => blank_row cfg) (range (Height cfg))) HW HH Hfit).
  - unfold blank_frame. rewrite map_const_repeat, range_length. reflexivity.
  - apply mapM_ext_Some. intros row _. apply render_row_blank.
    intros x Hx. apply Hno. exact Hx.
Qed.

Lemma glyph_at_no_height (midline height row : Z) :
  height <= 0 -> glyph_at midline height row = false.
Proof.
  intros H. unfold glyph_at.
  destruct (Z.ltb_spec 0 height); [lia|]. apply andb_false_r.
Qed.

Lemma bar_height_le (midline : Z) (x : float) :
  bar_height unrep cfg midline x <= midline - 1.
Proof. unfold bar_height. apply Z.le_min_r. Qed.

(** X21: a frame of height 3 or less never shows a bar.  The bar height
    is capped at one less than the midline row, which is then 0 or less,
    so every frame is [Height] rows of spaces, whatever the profile, the
    amplification and the glyph. *)
Theorem renderFrame_blank_up_to_height_3 (waveform : list float) :
  0 <= Width cfg -> 0 <= Height cfg <= 3 ->
  Width cfg * Height cfg * 4 <= GoInt.max_int ->
  renderFrame unrep cfg waveform = Some (blank_frame cfg).
Proof.
  intros HW HH Hfit. apply renderFrame_blank; try lia.
  intros x row _. apply glyph_at_no_height.
  pose proof (bar_height_le (Z.quot (Height cfg) 2) x) as Hle.
  assert (Z.quot (Height cfg) 2 < 2).
  { rewrite Z.quot_div_nonneg by lia.
    apply Z.div_lt_upper_bound; lia. }
  lia.
Qed.

Lemma glyph_at_row_0 (midline : Z) (x : float) :
  0 <= midline <= GoInt.max_int ->
  glyph_at midline (bar_height unrep cfg midline x) 0 = false.
Proof.
  intros Hm. pose proof (bar_height_le midline x) as Hle.
  set (h := bar_height unrep cfg midline x) in *.
  destruct (Z_le_gt_dec h 0) as [H0|Hpos];
    [apply glyph_at_no_height; exact H0|].
  unfold glyph_at, GoInt.sub.
  rewrite wrap64_id by (unfold GoInt.min_int, GoInt.max_int in *; lia).
  destruct (Z.leb_spec (midline - h) 0); [lia | reflexivity].
Qed.

(** X22: the top row of every frame is blank.  The bar height is capped
    at one less than the midline row, so the highest cell a bar reaches is
    in row 1: whatever the profile, the frame starts with the two control
    sequences followed by a row of spaces. *)
Theorem renderFrame_top_row_blank (waveform : list float) :
  0 <= Width cfg -> 1 <= Height cfg <= GoInt.max_int ->
  Width cfg * Height cfg * 4 <= GoInt.max_int ->
  exists rest : string,
    renderFrame unrep cfg waveform
    = Some (frame_prefix ++ blank_row cfg ++ rest)%string.
Proof.
  intros HW HH Hfit.
  destruct (mapM_map
              (render_row unrep cfg waveform (Z.quot (Height cfg) 2))
              (fun cells => (row_text cells ++ newline)%string)
              (fun _ => True)
              (range (Height cfg))) as (rows & Hrows & _ & _).
  { apply List.Forall_forall. intros row _.
    destruct (render_row_shape unrep cfg waveform (Z.quot (Height cfg) 2) row)
      as (cells & ? & _).
    exists cells. auto. }
  rewrite (renderFrame_rows waveform _ HW ltac:(lia) Hfit Hrows).
  assert (Hrange : range (Height cfg)
                   = 0 :: map Z.of_nat (seq 1 (Z.to_nat (Height cfg) - 1))).
  { unfold range. destruct (Z.to_nat (Height cfg)) as [|n] eqn:Hn; [lia|].
    replace (S n - 1)%nat with n by lia. reflexivity. }
  rewrite Hrange in Hrows. cbn [mapM] in Hrows.
  rewrite render_row_blank in Hrows.
  - cbn [mbind option_bind] in Hrows.
    destruct (mapM _ (map Z.of_nat _)) as [others|]; [|discriminate Hrows].
    cbn [mbind option_bind mret option_ret] in Hrows.
    injection Hrows as Hrows. rewrite <- Hrows.
    exists (String.concat "" others
            ++ (if ShowStatus cfg then status_line cfg else ""))%string.
    rewrite concat_cons, !string_app_assoc. reflexivity.
  - intros x _. apply glyph_at_row_0.
    rewrite Z.quot_div_nonneg by lia.
    split; [apply Z.div_pos; lia|].
    assert (Height cfg / 2 <= Height cfg)
      by (apply Z.div_le_upper_bound; lia).
    lia.
Qed.

Lemma glyph_at_mirror (midline height d : Z) :
  0 <= 2 * midline <= GoInt.max_int -> height <= midline - 1 -> 0 <= d ->
  glyph_at midline height (midline - d)
  = glyph_at midline height (midline + d).
Proof.
  intros Hm Hh Hd.
  destruct (Z_le_gt_dec height 0) as [H0|Hpos];
    [rewrite !glyph_at_no_height by exact H0; reflexivity|].
  unfold glyph_at, GoInt.sub, GoInt.add.
  rewrite !wrap64_id by (unfold GoInt.min_int, GoInt.max_int in *; lia).
  destruct (Z.leb_spec (midline - height) (midline - d));
    destruct (Z.leb_spec (midline - d) (midline + height));
    destruct (Z.leb_spec (midline - height) (midline + d));
    destruct (Z.leb_spec (midline + d) (midline + height));
    try reflexivity; lia.
Qed.

(** X23: every frame is symmetric about its midline row: the row [d]
    rows above the midline and the row [d] rows below it are the same
    text, whatever the profile. *)
Theorem render_rows_mirror (waveform : list float) (d : Z) :
  0 <= Height cfg <= GoInt.max_int -> 0 <= d ->
  let midline := Z.quot (Height cfg) 2 in
  render_row unrep cfg waveform midline (midline - d)
  = render_row unrep cfg waveform midline (midline + d).
Proof.
  intros HH Hd midline. unfold render_row. f_equal.
  apply mapM_agree. intros col _. unfold cell.
  destruct ((1 <? BarSpacing cfg)
            && negb (Z.rem col (BarSpacing cfg) =? 0)); [reflexivity|].
  destruct (len waveform <=? _); [reflexivity|].
  destruct (index waveform _) as [x|]; [|reflexivity].
  cbn [mbind option_bind].
  rewrite glyph_at_mirror; [reflexivity | | apply bar_height_le | exact Hd].
  unfold midline. rewrite Z.quot_div_nonneg by lia.
  pose proof (Z.mul_div_le (Height cfg) 2 ltac:(lia)).
  assert (0 <= Height cfg / 2) by (apply Z.div_pos; lia). lia.
Qed.

(** X24: with a bar spacing [k] above 1 only every [k]-th screen column
    holds a bar, and it shows the profile value at index column / [k]:
    the frame depends on the profile values at the indices [i] with
    [i * k < Width] alone, the rest of the profile is never drawn. *)
Theorem renderFrame_spacing_draws_prefix (waveform1 waveform2 : list float) :
  1 < BarSpacing cfg -> length waveform1 = length waveform2 ->
  (forall i, 0 <= i -> i * BarSpacing cfg < Width cfg ->
             index waveform1 i = index waveform2 i) ->
  renderFrame unrep cfg waveform1 = renderFrame unrep cfg waveform2.
Proof.
  intros Hk Hlen Hsame. unfold renderFrame.
  destruct (GoInt.mul (GoInt.mul (Width cfg) (Height cfg)) 4 <? 0);
    [reflexivity|].
  cbv zeta. f_equal. apply mapM_agree. intros row _.
  unfold render_row. f_equal. apply mapM_agree. intros col Hcol.
  apply range_bounds in Hcol. unfold cell.
  destruct (Z.ltb_spec 1 (BarSpacing cfg)) as [_|]; [|lia].
  cbn [andb].
  destruct (Z.eqb_spec (Z.rem col (BarSpacing cfg)) 0) as [Hrem|];
    [|reflexivity].
  cbn [negb].
  assert (Hl : len waveform1 = len waveform2) by (unfold len; lia).
  rewrite Hl. destruct (len waveform2 <=? _); [reflexivity|].
  rewrite Hsame; [reflexivity | apply Z.quot_pos; lia |].
  pose proof (Z.quot_rem' col (BarSpacing cfg)) as Hqr.
  rewrite Hrem in Hqr. lia.
Qed.

End RenderRows.

(** ** Frame renderer: silence, and a height that [New] lets through *)

Lemma to_int_zero (unrep : float -> Z) (f : float) (s : bool) :
  Prim2SF f = S754_zero s -> GoFloat.to_int unrep f = 0.
Proof.
  intros Hf. apply to_int_representable.
  - unfold GoFloat.trunc. rewrite Hf. reflexivity.
  - vm_compute. split; discriminate.
Qed.

Lemma of_int_small_finite (z : Z) :
  -1 <= z <= 2 ^ 63 -> finite_value (GoFloat.of_int z) = true.
Proof.
  intros Hz. unfold finite_value.
  destruct (Z.eq_dec z (-1)) as [->|]; [reflexivity|].
  destruct (Z.eq_dec z 0) as [->|]; [reflexivity|].
  destruct (of_int_count z ltac:(lia)) as (m & e & -> & _). reflexivity.
Qed.

Lemma scaled_zero (cfg : Config) (midline : Z) :
  finite_value (Amplify cfg) = true -> 0 <= midline <= 2 ^ 63 ->
  exists s, Prim2SF (scaled cfg midline 0) = S754_zero s.
Proof.
  intros HA Hm. unfold scaled. rewrite !mul_spec.
  pose proof (of_int_small_finite (midline - 1) ltac:(lia)) as Hf.
  unfold finite_value in HA, Hf.
  change (Prim2SF 0) with (S754_zero false).
  destruct (Prim2SF (Amplify cfg)) as [sa| | |sa ma ea];
    try discriminate HA;
    destruct (Prim2SF (GoFloat.of_int (midline - 1))) as [sf| | |sf mf ef];
    try discriminate Hf; cbn; eauto.
Qed.

(** X25: silence draws nothing.  With a finite amplification an all-zero
    profile, which is what a visualizer holds before the first chunk and
    what zero samples reduce to, renders as a frame of blank rows. *)
Theorem renderFrame_silence_is_blank (unrep : float -> Z) (cfg : Config)
    (waveform : list float) :
  Forall (fun x => x = 0%float) waveform ->
  finite_value (Amplify cfg) = true ->
  0 <= Width cfg -> 0 <= Height cfg <= GoInt.max_int ->
  Width cfg * Height cfg * 4 <= GoInt.max_int ->
  renderFrame unrep cfg waveform = Some (blank_frame cfg).
Proof.
  intros Hzero HA HW HH Hfit. apply renderFrame_blank; try lia.
  intros x row Hx. rewrite List.Forall_forall in Hzero.
  rewrite (Hzero x Hx). apply glyph_at_no_height.
  rewrite bar_height_scaled.
  destruct (scaled_zero cfg (Z.quot (Height cfg) 2) HA) as [s Hs].
  { rewrite Z.quot_div_nonneg by lia. split; [apply Z.div_pos; lia|].
    assert (Height cfg / 2 <= Height cfg)
      by (apply Z.div_le_upper_bound; lia).
    unfold GoInt.max_int in HH. lia. }
  rewrite (to_int_zero unrep _ s Hs). apply Z.le_min_l.
Qed.

Lemma renderFrame_silence_is_blank_witness :
  renderFrame (fun _ => 7) DefaultConfig (repeat 0%float 60)
  = Some (blank_frame DefaultConfig).
Proof.
  apply (renderFrame_silence_is_blank (fun _ => 7) DefaultConfig
           (repeat 0%float 60)).
  - repeat constructor.
  - reflexivity.
  - vm_compute. discriminate.
  - vm_compute. split; discriminate.
  - vm_compute. discriminate.
Defined.

(** X26: [New] lets a negative height through, and the first rendering
    then panics: the size handed to the string builder is negative. *)
Theorem Render_panics_on_negative_Height (unrep : float -> Z)
    (cfg : Config) (v : Visualizer) :
  New cfg = Some v -> Height cfg < 0 ->
  GoInt.min_int <= Width (config v) * Height cfg * 4 ->
  Height (config v) = Height cfg /\ Render unrep v = None.
Proof.
  intros HN HH Hfit.
  destruct (New_backfill cfg v HN) as (HW0 & _).
  pose proof HN as HN'. apply New_Some in HN' as (Hcfg & Hsm & _).
  assert (HHeq : Height (config v) = Height cfg).
  { rewrite Hcfg. cbn [Height backfill].
    destruct (Z.eqb_spec (Height cfg) 0); [lia | reflexivity]. }
  split; [exact HHeq|].
  assert (HWpos : 0 < Width (config v)).
  { unfold New in HN.
    destruct (make 0%float (Width (backfill cfg))) as [w|] eqn:Hw;
      [|discriminate HN].
    apply make_Some in Hw as [Hpos _]. rewrite Hcfg in HW0 |- *. lia. }
  unfold Render, renderFrame. rewrite HHeq.
  assert (Hneg : GoInt.mul (GoInt.mul (Width (config v)) (Height cfg)) 4 < 0).
  { unfold GoInt.mul.
    rewrite (wrap64_id (Width (config v) * Height cfg))
      by (unfold GoInt.min_int, GoInt.max_int in *; nia).
    rewrite wrap64_id by (unfold GoInt.min_int, GoInt.max_int in *; nia).
    nia. }
  destruct (Z.ltb_spec (GoInt.mul (GoInt.mul (Width (config v)) (Height cfg)) 4) 0);
    [reflexivity | lia].
Qed.

Lemma Render_panics_on_negative_Height_witness :
  exists v,
    New (mkConfig 60 (-12) 44100 1024 30 0.9%float "|" 1 2.5%float true)
    = Some v
    /\ Height (config v) = -12 /\ Render (fun _ => 0) v = None.
Proof.
  eexists. split; [vm_compute; reflexivity|].
  apply (Render_panics_on_negative_Height (fun _ => 0)
           (mkConfig 60 (-12) 44100 1024 30 0.9%float "|" 1 2.5%float true)).
  - vm_compute. reflexivity.
  - reflexivity.
  - vm_compute. discriminate.
Defined.

Lemma renderFrame_blank_up_to_height_3_witness :
  renderFrame (fun _ => 9)
    (mkConfig 4 3 44100 8 30 1%float "|" 1 100%float false)
    [1; 1; 1; 1]%float
  = Some (blank_frame (mkConfig 4 3 44100 8 30 1%float "|" 1 100%float false)).
Proof.
  apply (renderFrame_blank_up_to_height_3 (fun _ => 9)
           (mkConfig 4 3 44100 8 30 1%float "|" 1 100%float false)
           [1; 1; 1; 1]%float).
  - vm_compute. discriminate.
  - vm_compute. split; discriminate.
  - vm_compute. discriminate.
Defined.

Lemma renderFrame_top_row_blank_witness :
  exists rest : string,
    renderFrame (fun _ => 0) DefaultConfig (repeat 1%float 60)
    = Some (frame_prefix ++ blank_row DefaultConfig ++ rest)%string.
Proof.
  apply (renderFrame_top_row_blank (fun _ => 0) DefaultConfig
           (repeat 1%float 60)).
  - vm_compute. discriminate.
  - vm_compute. split; discriminate.
  - vm_compute. discriminate.
Defined.

Lemma render_rows_mirror_witness :
  render_row (fun _ => 0) DefaultConfig (repeat 0.25%float 60) 6 (6 - 2)
  = render_row (fun _ => 0) DefaultConfig (repeat 0.25%float 60) 6 (6 + 2).
Proof.
  apply (render_rows_mirror (fun _ => 0) DefaultConfig
           (repeat 0.25%float 60) 2).
  - vm_compute. split; discriminate.
  - lia.
Defined.

Lemma renderFrame_spacing_draws_prefix_witness :
  renderFrame (fun _ => 0)
    (mkConfig 4 8 44100 8 30 1%float "|" 2 1%float false)
    [1; 0.5; 0; 0]%float
  = renderFrame (fun _ => 0)
      (mkConfig 4 8 44100 8 30 1%float "|" 2 1%float false)
      [1; 0.5; 1; 1]%float.
Proof.
  apply (renderFrame_spacing_draws_prefix (fun _ => 0)
           (mkConfig 4 8 44100 8 30 1%float "|" 2 1%float false)).
  - reflexivity.
  - reflexivity.
  - intros i H0 Hi. cbn [BarSpacing Width] in Hi.
    assert (Hc : i = 0 \/ i = 1) by lia.
    destruct Hc as [-> | ->]; reflexivity.
Defined.

(** ** Stream loop: no panic on a configuration within bounds *)




Section LoopTotal.

Variable unrep : float -> Z.




End LoopTotal.


(** ** Smoothing: lengths *)

Lemma index_app_beyond {A : Type} (pre : list A) :
  index pre (len pre) = None.
Proof.
  unfold index, len. destruct (Z.ltb_spec (Z.of_nat (length pre)) 0); [lia|].
  rewrite Nat2Z.id. apply lookup_ge_None_2. lia.
Qed.

Lemma smooth_from_general (alpha : float) (ws : list float) :
  forall pre cur : list float,
    smooth_from alpha (len pre) ws (pre ++ cur)
    = if decide (length ws <= length cur)%nat
      then Some (pre ++ zip_with (smooth_value alpha) (take (length ws) cur) ws
                 ++ drop (length ws) cur)
      else None.
Proof.
  induction ws as [|w ws IH]; intros pre cur.
  - cbn [smooth_from length take zip_with drop app].
    rewrite decide_True by lia. reflexivity.
  - destruct cur as [|c cur].
    + cbn [smooth_from length]. rewrite app_nil_r, index_app_beyond.
      rewrite decide_False by lia. reflexivity.
    + cbn [smooth_from length take zip_with drop].
      rewrite index_app_here. cbn [mbind option_bind].
      rewrite assign_app_here. cbn [mbind option_bind].
      replace (len pre + 1) with (len (pre ++ [smooth_value alpha c w]))
        by (unfold len; rewrite length_app; cbn [length]; lia).
      replace (pre ++ smooth_value alpha c w :: cur)
        with ((pre ++ [smooth_value alpha c w]) ++ cur)
        by (rewrite <- app_assoc; reflexivity).
      rewrite IH.
      destruct (decide (length ws <= length cur)%nat) as [Hle|Hgt].
      * rewrite decide_True by lia. rewrite <- app_assoc. reflexivity.
      * rewrite decide_False by lia. reflexivity.
Qed.

(** X28: the smoothing loop panics exactly when the smoothed vector is
    shorter than the profile.  Otherwise it applies the recurrence to the
    first [len(waveform)] elements, each from its own previous value and
    the profile value of the same index, and leaves the elements beyond
    them as they are. *)
Theorem smooth_panics_iff_shorter (alpha : float)
    (waveform smoothed : list float) :
  (smooth alpha waveform smoothed = None
   <-> (length smoothed < length waveform)%nat)
  /\ ((length waveform <= length smoothed)%nat ->
      smooth alpha waveform smoothed
      = Some (zip_with (smooth_value alpha)
                (take (length waveform) smoothed) waveform
              ++ drop (length waveform) smoothed)).
Proof.
  unfold smooth.
  pose proof (smooth_from_general alpha waveform [] smoothed) as H.
  cbn [app] in H. change (len []) with 0 in H. rewrite H.
  destruct (decide (length waveform <= length smoothed)%nat) as [Hle|Hgt].
  - split; [split; [discriminate | lia] | reflexivity].
  - split; [split; [lia | reflexivity] | lia].
Qed.

Lemma smooth_panics_iff_shorter_witness :
  smooth 0.5 [1; 1; 1]%float [0; 0]%float = None.
Proof.
  apply (smooth_panics_iff_shorter 0.5 [1; 1; 1]%float [0; 0]%float).
  cbn [length]. lia.
Defined.

(** ** Binary64 arithmetic: results that stay at or below one *)

Section RoundingBelowOne.

Variables prec emax : Z.
Hypothesis Hprec : 1 < prec.
Hypothesis Hemax : prec < emax.

Abbreviation emin := (SpecFloat.emin prec emax).
Abbreviation fexp := (SpecFloat.fexp prec emax).
Abbreviation valid := (SpecFloat.valid_binary prec emax).

(** [binary_round_aux] from any position: the rounded mantissa is the
    truncated one or its successor. *)
Lemma binary_round_aux_finished_le (s : bool) (q e : Z) (l : location) :
  0 <= q ->
  let E := Z.max e (fexp (Zdigits2 q + e)) in
  exists q',
    binary_round_aux prec emax s q e l = finished prec emax s q' E
    /\ 0 <= q' <= 2 ^ prec
    /\ q' <= q / 2 ^ (E - e) + 1.
Proof using Hprec Hemax.
  intros Hq E. unfold E. clear E.
  pose proof (Zdigits2_bound prec emax Hprec Hemax q Hq) as [Hd0 Hdq].
  pose proof (fexp_ge_emin prec emax Hprec Hemax (Zdigits2 q + e)) as Hfe.
  rewrite (binary_round_aux_finish prec emax Hprec Hemax). unfold shr_fexp.
  assert (Hfd : Zdigits2 q + e - prec <= fexp (Zdigits2 q + e))
    by (unfold SpecFloat.fexp; lia).
  destruct (fexp (Zdigits2 q + e) - e) as [|p|p] eqn:Hn.
  - cbn [shr].
    exists (round_nearest_even (shr_m (shr_record_of_loc q l))
              (loc_of_shr_record (shr_record_of_loc q l))).
    pose proof (round_nearest_even_bounds prec emax Hprec Hemax
                  (shr_m (shr_record_of_loc q l))
                  (loc_of_shr_record (shr_record_of_loc q l))) as Hb.
    rewrite (shr_record_of_loc_m prec emax Hprec Hemax) in *.
    assert (q < 2 ^ prec).
    { pose proof (pow2_le_mono (Zdigits2 q) prec ltac:(lia)). lia. }
    rewrite Z.max_l by lia. rewrite Z.sub_diag, Z.pow_0_r, Z.div_1_r.
    split; [apply (finish_finished prec emax Hprec Hemax); lia|].
    split; lia.
  - cbn [shr]. rewrite iter_pos_nat.
    set (mrs := Nat.iter (Pos.to_nat p) shr_1 (shr_record_of_loc q l)).
    assert (Hm : shr_m mrs = q / 2 ^ Z.pos p).
    { unfold mrs.
      rewrite (shr_m_iter prec emax Hprec Hemax)
        by (rewrite (shr_record_of_loc_m prec emax Hprec Hemax); lia).
      rewrite (shr_record_of_loc_m prec emax Hprec Hemax), positive_nat_Z.
      reflexivity. }
    exists (round_nearest_even (shr_m mrs) (loc_of_shr_record mrs)).
    pose proof (round_nearest_even_bounds prec emax Hprec Hemax
                  (shr_m mrs) (loc_of_shr_record mrs)) as Hb.
    assert (H2p : 0 < 2 ^ Z.pos p) by (apply pow2_pos; lia).
    assert (0 <= q / 2 ^ Z.pos p) by (apply Z.div_pos; lia).
    assert (q / 2 ^ Z.pos p < 2 ^ prec).
    { apply Z.div_lt_upper_bound; [lia|].
      rewrite <- Z.pow_add_r by lia.
      pose proof (pow2_le_mono (Zdigits2 q) (Z.pos p + prec) ltac:(lia)). lia. }
    rewrite Z.max_r by lia.
    replace (fexp (Zdigits2 q + e) - e) with (Z.pos p) by lia.
    replace (fexp (Zdigits2 q + e)) with (e + Z.pos p) by lia.
    split; [apply (finish_finished prec emax Hprec Hemax); lia|].
    split; lia.
  - cbn [shr].
    exists (round_nearest_even (shr_m (shr_record_of_loc q l))
              (loc_of_shr_record (shr_record_of_loc q l))).
    pose proof (round_nearest_even_bounds prec emax Hprec Hemax
                  (shr_m (shr_record_of_loc q l))
                  (loc_of_shr_record (shr_record_of_loc q l))) as Hb.
    rewrite (shr_record_of_loc_m prec emax Hprec Hemax) in *.
    assert (q < 2 ^ prec).
    { pose proof (pow2_le_mono (Zdigits2 q) prec ltac:(lia)). lia. }
    rewrite Z.max_l by lia. rewrite Z.sub_diag, Z.pow_0_r, Z.div_1_r.
    split; [apply (finish_finished prec emax Hprec Hemax); lia|].
    split; lia.
Qed.

(** A rounded mantissa of at most [2 ^ (- E)] at an exponent [E <= 0] is a
    value of at most one. *)
Lemma finished_le_one (s : bool) (q E : Z) :
  emin <= E <= 0 -> 0 <= q <= 2 ^ prec -> q <= 2 ^ (- E) ->
  (finished prec emax s q E = S754_zero s
   \/ exists m e, finished prec emax s q E = S754_finite s m e)
  /\ uval prec emax (finished prec emax s q E) <= 2 ^ (- emin).
Proof using Hprec Hemax.
  intros HE Hq Hle.
  pose proof (emin_neg prec emax Hprec Hemax) as Hem.
  assert (Hroom : E + 1 <= emax - prec) by lia.
  split; [apply (finished_finite prec emax Hprec Hemax); exact Hroom|].
  assert (Hval : q * 2 ^ (E - emin) <= 2 ^ (- emin)).
  { replace (- emin) with (- E + (E - emin)) by lia.
    rewrite Z.pow_add_r by lia.
    apply Z.mul_le_mono_nonneg_r; [|exact Hle].
    pose proof (pow2_pos (E - emin) ltac:(lia)). lia. }
  unfold finished.
  destruct (Z.eqb_spec q 0) as [|Hq0]; [cbn [uval]; apply Z.lt_le_incl, pow2_pos; lia|].
  destruct (Z.eqb_spec q (2 ^ prec)) as [Hq2|Hq2].
  - destruct (Z.leb_spec (E + 1) (emax - prec)); [|lia].
    cbn [uval]. rewrite Z2Pos.id by (apply pow2_pos; lia).
    replace (E + 1 - emin) with (1 + (E - emin)) by lia.
    rewrite Z.pow_add_r, Z.mul_assoc by lia.
    replace (2 ^ (prec - 1) * 2 ^ 1) with (2 ^ prec).
    + rewrite <- Hq2. exact Hval.
    + rewrite <- Z.pow_add_r by lia. f_equal; lia.
  - destruct (Z.leb_spec E (emax - prec)); [|lia].
    cbn [uval]. rewrite Z2Pos.id by lia. exact Hval.
Qed.

(** Rounding a value below one, [q * 2 ^ e] with [q < 2 ^ (- e)], gives a
    value of at most one. *)
Lemma binary_round_aux_below_one (s : bool) (q e : Z) (l : location) :
  e <= 0 -> 0 <= q < 2 ^ (- e) ->
  let r := binary_round_aux prec emax s q e l in
  (r = S754_zero s \/ exists m e', r = S754_finite s m e')
  /\ uval prec emax r <= 2 ^ (- emin).
Proof using Hprec Hemax.
  intros He Hq r. unfold r. clear r.
  pose proof (emin_neg prec emax Hprec Hemax) as Hem.
  destruct (binary_round_aux_finished_le s q e l ltac:(lia))
    as (q' & -> & Hq' & Hle).
  set (E := Z.max e (fexp (Zdigits2 q + e))) in *.
  pose proof (Zdigits2_le prec emax Hprec Hemax q (- e) ltac:(lia) Hq) as Hd.
  pose proof (fexp_ge_emin prec emax Hprec Hemax (Zdigits2 q + e)) as Hfe.
  assert (HE : emin <= E <= 0).
  { unfold E. split; [lia|].
    apply Z.max_lub; [exact He|]. unfold SpecFloat.fexp. lia. }
  assert (HEe : 0 <= E - e) by (unfold E; lia).
  apply finished_le_one; [exact HE | exact Hq' |].
  assert (q / 2 ^ (E - e) < 2 ^ (- E)); [|lia].
  apply Z.div_lt_upper_bound; [apply pow2_pos; lia|].
  rewrite <- Z.pow_add_r by lia.
  replace (E - e + - E) with (- e) by lia. lia.
Qed.

(** Two valid finite numbers of the same value are the same number. *)
Lemma canonical_eq (s1 s2 : bool) (m1 m2 : positive) (e1 e2 : Z) :
  valid (S754_finite s1 m1 e1) = true ->
  valid (S754_finite s2 m2 e2) = true ->
  uval prec emax (S754_finite s1 m1 e1) = uval prec emax (S754_finite s2 m2 e2) ->
  m1 = m2 /\ e1 = e2.
Proof using Hprec Hemax.
  intros V1 V2 Hu.
  assert (He : e1 = e2).
  { destruct (Z.lt_total e1 e2) as [Hlt|[Heq|Hgt]]; [|exact Heq|].
    - pose proof (canonical_lt prec emax Hprec Hemax _ _ _ _ _ _ V1 V2 Hlt).
      lia.
    - pose proof (canonical_lt prec emax Hprec Hemax _ _ _ _ _ _ V2 V1 Hgt).
      lia. }
  split; [|exact He]. subst e2. cbn [uval] in Hu.
  apply (valid_finite prec emax Hprec Hemax s1) in V1 as ([Hlo _] & _).
  pose proof (pow2_pos (e1 - emin) ltac:(lia)) as Hp.
  apply Z.mul_cancel_r in Hu; [|lia]. congruence.
Qed.

(** A valid finite number divided by itself is one. *)
Lemma SFdiv_self (m : positive) (e : Z) :
  SFdiv prec emax (S754_finite false m e) (S754_finite false m e)
  = S754_finite false (Z.to_pos (2 ^ (prec - 1))) (1 - prec).
Proof using Hprec Hemax.
  cbn [SFdiv xorb]. unfold SFdiv_core_binary. cbn [Zdigits2].
  replace (Z.pos (digits2_pos m) + e - (Z.pos (digits2_pos m) + e))
    with 0 by lia.
  replace (e - e) with 0 by lia.
  assert (Hf0 : fexp 0 = - prec)
    by (unfold SpecFloat.fexp, SpecFloat.emin; lia).
  rewrite Hf0, Z.min_l by lia.
  replace (0 - - prec) with prec by lia.
  assert (Hpp : 0 < 2 ^ prec) by (apply pow2_pos; lia).
  assert (Hm' : match prec with
                | 0 => Z.pos m
                | Z.pos _ => Z.shiftl (Z.pos m) prec
                | Z.neg _ => 0
                end = 2 ^ prec * Z.pos m).
  { destruct prec as [|p|p] eqn:Hp; try lia.
    rewrite Z.shiftl_mul_pow2 by lia. lia. }
  rewrite Hm'.
  destruct (Z.div_eucl (2 ^ prec * Z.pos m) (Z.pos m)) as [q r] eqn:Hdiv.
  assert (Hq : q = 2 ^ prec).
  { transitivity (2 ^ prec * Z.pos m / Z.pos m);
      [unfold Z.div; rewrite Hdiv; reflexivity | apply Z.div_mul; lia]. }
  assert (Hr : r = 0).
  { transitivity ((2 ^ prec * Z.pos m) mod Z.pos m);
      [unfold Z.modulo; rewrite Hdiv; reflexivity | apply Z.mod_mul; lia]. }
  subst q r.
  assert (Hloc : new_location (Z.pos m) 0 = loc_Exact).
  { unfold new_location, new_location_even, new_location_odd.
    destruct (Z.even (Z.pos m)); reflexivity. }
  rewrite Hloc.
  rewrite <- (Z2Pos.id (2 ^ prec)) by lia.
  destruct (binary_round_aux_exact prec emax Hprec Hemax false
              (Z.to_pos (2 ^ prec)) (- prec)) as (Hr & _).
  { unfold shift_of. rewrite digits2_pos_log2, Z2Pos.id, Z.log2_pow2 by lia.
    unfold SpecFloat.fexp, SpecFloat.emin. lia. }
  rewrite Hr. unfold shift_of.
  rewrite digits2_pos_log2, Z2Pos.id, Z.log2_pow2 by lia.
  replace (fexp (prec + 1 + - prec) - - prec) with 1
    by (unfold SpecFloat.fexp, SpecFloat.emin; lia).
  replace (2 ^ prec) with (2 ^ (prec - 1) * 2 ^ 1)
    by (rewrite <- Z.pow_add_r by lia; f_equal; lia).
  rewrite Z.div_mul, Z.mod_mul by lia.
  rewrite rne_exact by lia.
  unfold finished.
  assert (Hh : 0 < 2 ^ (prec - 1)) by (apply pow2_pos; lia).
  assert (Hlt : 2 ^ (prec - 1) < 2 ^ prec) by (apply pow2_lt_mono; lia).
  destruct (Z.eqb_spec (2 ^ (prec - 1)) 0); [lia|].
  destruct (Z.eqb_spec (2 ^ (prec - 1)) (2 ^ prec)); [lia|].
  destruct (Z.leb_spec (- prec + 1) (emax - prec)); [|lia].
  f_equal. lia.
Qed.

(** The quotient of two positive finite numbers, the first at most the
    second, is at most one. *)
Lemma SFdiv_le_one (mx my : positive) (ex ey : Z) :
  let x := S754_finite false mx ex in
  let y := S754_finite false my ey in
  valid x = true -> valid y = true ->
  uval prec emax x <= uval prec emax y ->
  plus_finite (SFdiv prec emax x y) = true
  /\ uval prec emax (SFdiv prec emax x y) <= 2 ^ (- emin).
Proof using Hprec Hemax.
  intros x y Vx Vy Hle.
  pose proof (emin_neg prec emax Hprec Hemax) as Hem.
  destruct (Z.eq_dec (uval prec emax x) (uval prec emax y)) as [Heq|Hne].
  - destruct (canonical_eq _ _ _ _ _ _ Vx Vy Heq) as [-> ->].
    unfold x, y. rewrite SFdiv_self. cbn [plus_finite negb uval].
    split; [reflexivity|].
    rewrite Z2Pos.id by (apply pow2_pos; lia).
    rewrite <- Z.pow_add_r by (unfold SpecFloat.emin; lia).
    apply Z.eq_le_incl. f_equal. lia.
  - assert (Hlt : uval prec emax x < uval prec emax y) by lia.
    assert (Hee : ex <= ey).
    { destruct (Z_le_gt_dec ex ey) as [|Hgt]; [assumption|].
      pose proof (canonical_lt prec emax Hprec Hemax _ _ _ _ _ _ Vy Vx
                    ltac:(lia)). fold x y in H. lia. }
    pose proof Vx as Vx'.
    apply (valid_finite prec emax Hprec Hemax false) in Vx' as ([Hx1 _] & _).
    pose proof Vy as Vy'.
    apply (valid_finite prec emax Hprec Hemax false) in Vy' as ([Hy1 _] & _).
    unfold x, y in *. cbn [uval] in Hlt.
    cbn [SFdiv xorb]. unfold SFdiv_core_binary. cbn [Zdigits2].
    set (d1 := Z.pos (digits2_pos mx)).
    set (d2 := Z.pos (digits2_pos my)).
    set (e' := Z.min (fexp (d1 + ex - (d2 + ey))) (ex - ey)).
    set (sh := ex - ey - e').
    assert (Hsh : 0 <= sh) by (unfold sh, e'; lia).
    assert (He' : e' <= 0) by (unfold e'; lia).
    set (m' := match sh with
               | 0 => Z.pos mx
               | Z.pos _ => Z.shiftl (Z.pos mx) sh
               | Z.neg _ => 0
               end).
    assert (Hm' : m' = Z.pos mx * 2 ^ sh).
    { unfold m'. destruct sh as [|p|p] eqn:Hp; [ | | lia].
      - rewrite Z.pow_0_r. lia.
      - apply Z.shiftl_mul_pow2. lia. }
    destruct (Z.div_eucl m' (Z.pos my)) as [q rem] eqn:Hdiv.
    assert (Hq : q = m' / Z.pos my)
      by (unfold Z.div; rewrite Hdiv; reflexivity).
    assert (H2s : 0 < 2 ^ sh) by (apply pow2_pos; lia).
    assert (Hq0 : 0 <= q) by (rewrite Hq; apply Z.div_pos; nia).
    assert (Hqlt : q < 2 ^ (- e')).
    { rewrite Hq. apply Z.div_lt_upper_bound; [lia|]. rewrite Hm'.
      (* mx * 2^(ex-emin) < my * 2^(ey-emin), scaled by 2^sh / 2^(ex-emin) *)
      assert (Hk : 0 <= ey - ex) by lia.
      assert (Hmx : Z.pos mx < Z.pos my * 2 ^ (ey - ex)).
      { replace (ey - emin) with ((ey - ex) + (ex - emin)) in Hlt by lia.
        rewrite Z.pow_add_r, Z.mul_assoc in Hlt by lia.
        pose proof (pow2_pos (ex - emin) ltac:(lia)).
        apply Z.mul_lt_mono_pos_r in Hlt; lia. }
      replace (- e') with ((ey - ex) + sh) by (unfold sh; lia).
      rewrite Z.pow_add_r, Z.mul_assoc by lia.
      apply Z.mul_lt_mono_pos_r; lia. }
    destruct (binary_round_aux_below_one false q e'
                (new_location (Z.pos my) rem) He' (conj Hq0 Hqlt))
      as [Hform Hval].
    split; [|exact Hval].
    destruct Hform as [-> | (m0 & e0 & ->)]; reflexivity.
Qed.

(** Adding a non-negative term to a running sum: from one bound to the
    next. *)
Lemma SFadd_bounded_to (a t : spec_float) (B T B' : Z) :
  valid a = true -> valid t = true ->
  plus_finite a = true -> nonneg t = true ->
  uval prec emax a <= B -> uval prec emax t <= T ->
  B <= B' -> T <= B' ->
  RU prec emax ((B + T) * 2 ^ (- emin)) <= B' ->
  B' < overflow_bound prec emax ->
  plus_finite (SFadd prec emax a t) = true
  /\ uval prec emax (SFadd prec emax a t) <= B'.
Proof using Hprec Hemax.
  intros Va Vt Pa Nt Ha Ht HBB HTB HRU HB.
  pose proof (emin_neg prec emax Hprec Hemax) as Hem.
  destruct a as [sa|sa| |sa ma ea]; try discriminate Pa;
    destruct sa; try discriminate Pa.
  - destruct t as [st|st| |st mt et]; try discriminate Nt.
    + destruct st; cbn; split; try reflexivity; cbn in Ha; lia.
    + destruct st; [discriminate Nt|]. cbn [SFadd plus_finite negb].
      split; [reflexivity | lia].
  - destruct t as [st|st| |st mt et]; try discriminate Nt.
    + cbn [SFadd plus_finite negb]. split; [reflexivity | lia].
    + destruct st; [discriminate Nt|].
      pose proof (uval_finite_pos prec emax Hprec Hemax _ _ _ Va) as Hpa.
      pose proof (uval_finite_pos prec emax Hprec Hemax _ _ _ Vt) as Hpt.
      assert (Hp : 0 < 2 ^ (- emin)) by (apply pow2_pos; lia).
      pose proof (RU_mono prec emax Hprec Hemax
                    ((uval prec emax (S754_finite false ma ea)
                      + uval prec emax (S754_finite false mt et)) * 2 ^ (- emin))
                    ((B + T) * 2 ^ (- emin)) ltac:(nia)) as Hmono.
      destruct (SFadd_finite_rounds prec emax Hprec Hemax ma mt ea et Va Vt)
        as [[_ ->] | [(m & e & -> & _ & Hu & _) | [_ Ho]]].
      * cbn [plus_finite negb uval]. split; [reflexivity | lia].
      * cbn [plus_finite negb]. split; [reflexivity|]. rewrite Hu. lia.
      * lia.
Qed.

(** Of two positive finite numbers the one of the smaller value compares
    below the other. *)
Lemma SFleb_of_uval (m1 m2 : positive) (e1 e2 : Z) :
  valid (S754_finite false m1 e1) = true ->
  valid (S754_finite false m2 e2) = true ->
  uval prec emax (S754_finite false m1 e1)
  <= uval prec emax (S754_finite false m2 e2) ->
  SFleb (S754_finite false m1 e1) (S754_finite false m2 e2) = true.
Proof using Hprec Hemax.
  intros V1 V2 Hu. unfold SFleb, SFcompare.
  destruct (Z.compare_spec e1 e2) as [Heq|Hlt|Hgt]; [|reflexivity|].
  - subst e2. cbn [uval] in Hu.
    change (Pos.compare_cont Eq m1 m2) with (Pos.compare m1 m2).
    destruct (Pos.compare_spec m1 m2) as [|Hm|Hm]; try reflexivity.
    exfalso.
    apply (valid_finite prec emax Hprec Hemax false) in V1 as ([Hlo _] & _).
    pose proof (pow2_pos (e1 - emin) ltac:(lia)) as Hp.
    assert (Z.pos m2 < Z.pos m1) by lia. nia.
  - exfalso.
    pose proof (canonical_lt prec emax Hprec Hemax _ _ _ _ _ _ V2 V1 Hgt).
    lia.
Qed.

End RoundingBelowOne.

(** *** Binary64: sums of squares, their mean and its root *)

(** Integers up to [2 ^ 53] are rounded to themselves. *)
Lemma RU_int (k : Z) :
  1 <= k <= 2 ^ 53 -> RU prec emax (k * 2 ^ 2148) = k * 2 ^ 1074.
Proof.
  intros Hk.
  destruct (Z.eq_dec k (2 ^ 53)) as [->|Hne]; [vm_compute; reflexivity|].
  assert (Hlt : k < 2 ^ 53) by lia.
  unfold RU. rewrite emin64.
  rewrite Z.log2_mul_pow2 by lia.
  set (d := Z.log2 k).
  assert (Hd : 0 <= d <= 52).
  { unfold d. split; [apply Z.log2_nonneg|].
    assert (Z.log2 k < 53); [|lia].
    apply Z.log2_lt_pow2; lia. }
  replace (2148 + d + 1 + 2 * -1074) with (d + 1) by lia.
  assert (HE : SpecFloat.fexp prec emax (d + 1) = d - 52).
  { unfold SpecFloat.fexp, SpecFloat.emin, prec, emax. lia. }
  rewrite HE. cbv zeta.
  replace (d - 52 - 2 * -1074) with (d + 2096) by lia.
  replace (d - 52 - -1074) with (d + 1022) by lia.
  assert (HV : k * 2 ^ 2148 = k * 2 ^ (52 - d) * 2 ^ (d + 2096)).
  { rewrite <- Z.mul_assoc, <- Z.pow_add_r by lia. do 2 f_equal. lia. }
  assert (HG : 0 < 2 ^ (d + 2096)) by (apply pow2_pos; lia).
  rewrite HV, Z.div_mul, Z.mod_mul by lia.
  rewrite rne_exact by lia.
  rewrite <- Z.mul_assoc, <- Z.pow_add_r by lia. do 2 f_equal. lia.
Qed.

(** [float64(n)] for a count [n] is the rounded value of [n]. *)
Lemma of_int_count_value (n : Z) :
  1 <= n <= 2 ^ 63 ->
  exists m e,
    Prim2SF (GoFloat.of_int n) = S754_finite false m e
    /\ uval prec emax (S754_finite false m e) = RU prec emax (n * 2 ^ 2148).
Proof.
  intros Hn. rewrite of_int_SF.
  destruct n as [|p|p]; try lia. cbn [binary_normalize].
  pose proof (binary_round_rounds prec emax prec_gt_1 prec_lt_emax false p 0
                ltac:(vm_compute; discriminate)) as Hr.
  rewrite emin64 in Hr. change (0 - 2 * -1074) with 2148 in Hr.
  assert (Hp : 0 < 2 ^ 2148) by (apply pow2_pos; lia).
  pose proof (RU_mono prec emax prec_gt_1 prec_lt_emax
                (1 * 2 ^ 2148) (Z.pos p * 2 ^ 2148) ltac:(nia)) as Hlo.
  pose proof (RU_mono prec emax prec_gt_1 prec_lt_emax
                (Z.pos p * 2 ^ 2148) (2 ^ 63 * 2 ^ 2148) ltac:(nia)) as Hhi.
  rewrite RU_int in Hlo by lia.
  assert (Hmax : RU prec emax (2 ^ 63 * 2 ^ 2148) = 2 ^ 63 * 2 ^ 1074)
    by (vm_compute; reflexivity).
  assert (Hob : 2 ^ 63 * 2 ^ 1074 < overflow_bound prec emax)
    by (vm_compute; reflexivity).
  assert (H1074 : 0 < 2 ^ 1074) by (apply pow2_pos; lia).
  rewrite Hmax in Hhi.
  destruct Hr as [[H0 _] | [(m & e & -> & Hv & Hu & _) | [_ Ho]]]; try lia.
  exists m, e. split; [reflexivity | exact Hu].
Qed.

(** It is at least [n] capped at [2 ^ 53]. *)
Lemma of_int_count_ge (n : Z) :
  1 <= n <= 2 ^ 63 ->
  Z.min n (2 ^ 53) * 2 ^ 1074 <= RU prec emax (n * 2 ^ 2148).
Proof.
  intros Hn.
  assert (Hp : 0 < 2 ^ 2148) by (apply pow2_pos; lia).
  pose proof (RU_mono prec emax prec_gt_1 prec_lt_emax
                (Z.min n (2 ^ 53) * 2 ^ 2148) (n * 2 ^ 2148) ltac:(nia))
    as Hlo.
  rewrite RU_int in Hlo by lia. exact Hlo.
Qed.

(** The running sum after [j] terms: finite, with a clear sign bit, and
    at most [j], capped at [2 ^ 53] where a further term is absorbed. *)
Lemma sum_le_step (j : Z) (sum : float) (x : Z) :
  0 <= j ->
  plus_finite (Prim2SF sum) = true ->
  uval prec emax (Prim2SF sum) <= Z.min j (2 ^ 53) * one_u ->
  is_int16 x ->
  plus_finite (Prim2SF (sum + sample_square x)) = true
  /\ uval prec emax (Prim2SF (sum + sample_square x))
     <= Z.min (j + 1) (2 ^ 53) * one_u.
Proof.
  intros Hj Hp Hb Hx.
  destruct (sample_square_bounded x Hx) as [Hn Ht].
  rewrite add_spec.
  assert (HU : 0 < one_u) by (vm_compute; reflexivity).
  apply (SFadd_bounded_to prec emax prec_gt_1 prec_lt_emax _ _
           (Z.min j (2 ^ 53) * one_u) one_u);
    try assumption; try apply Prim2SF_valid.
  - nia.
  - nia.
  - rewrite emin64. change (- -1074) with 1074.
    replace ((Z.min j (2 ^ 53) * one_u + one_u) * 2 ^ 1074)
      with ((Z.min j (2 ^ 53) + 1) * 2 ^ 2148)
      by (unfold one_u; change (2 ^ 2148) with (2 ^ 1074 * 2 ^ 1074); ring).
    destruct (Z_lt_le_dec j (2 ^ 53)) as [Hlt|Hge].
    + rewrite Z.min_l by lia. rewrite RU_int by lia.
      rewrite Z.min_l by lia. unfold one_u. lia.
    + rewrite Z.min_r by lia. rewrite (Z.min_r (j + 1)) by lia.
      vm_compute. discriminate.
  - assert (Z.min (j + 1) (2 ^ 53) * one_u <= 2 ^ 53 * one_u) by nia.
    assert (2 ^ 53 * one_u < overflow_bound prec emax)
      by (vm_compute; reflexivity).
    lia.
Qed.

Lemma sum_le_fold (samples : list Z) :
  Forall is_int16 samples ->
  forall (j : Z) (sum : float),
    0 <= j ->
    plus_finite (Prim2SF sum) = true ->
    uval prec emax (Prim2SF sum) <= Z.min j (2 ^ 53) * one_u ->
    let total :=
      fold_left (fun s x => (s + sample_square x)%float) samples sum in
    plus_finite (Prim2SF total) = true
    /\ uval prec emax (Prim2SF total)
       <= Z.min (j + len samples) (2 ^ 53) * one_u.
Proof.
  induction 1 as [|x samples Hx _ IH]; intros j sum Hj Hp Hb.
  - cbn [fold_left]. unfold len. cbn [length]. rewrite Z.add_0_r. auto.
  - cbn [fold_left].
    destruct (sum_le_step j sum x Hj Hp Hb Hx) as [Hp' Hb'].
    destruct (IH (j + 1) _ ltac:(lia) Hp' Hb') as [Hp2 Hb2].
    split; [exact Hp2|].
    replace (j + len (x :: samples)) with (j + 1 + len samples)
      by (unfold len; cbn [length]; lia).
    exact Hb2.
Qed.

(** The square root of a number from 0 to 1 is a number from 0 to 1. *)
Lemma SFsqrt_le_one (mx : positive) (ex : Z) :
  SpecFloat.valid_binary prec emax (S754_finite false mx ex) = true ->
  uval prec emax (S754_finite false mx ex) <= 2 ^ 1074 ->
  plus_finite (SFsqrt prec emax (S754_finite false mx ex)) = true
  /\ uval prec emax (SFsqrt prec emax (S754_finite false mx ex)) <= 2 ^ 1074.
Proof.
  intros Vx Hle.
  assert (Vone : SpecFloat.valid_binary prec emax
                   (S754_finite false 4503599627370496 (-52)) = true)
    by reflexivity.
  destruct (Z.eq_dec (uval prec emax (S754_finite false mx ex)) (2 ^ 1074))
    as [Heq|Hne].
  - destruct (canonical_eq prec emax prec_gt_1 prec_lt_emax
                false false mx 4503599627370496 ex (-52) Vx Vone)
      as [-> ->]; [rewrite Heq; vm_compute; reflexivity|].
    vm_compute. split; [reflexivity | discriminate].
  - assert (Hlt : uval prec emax (S754_finite false mx ex) < 2 ^ 1074) by lia.
    pose proof Vx as Vx'.
    apply (valid_finite prec emax prec_gt_1 prec_lt_emax false) in Vx'
      as ([He1 He2] & _).
    rewrite emin64 in He1. cbn [uval] in Hlt. rewrite emin64 in Hlt.
    assert (Hpe : 0 < 2 ^ (ex - -1074)) by (apply pow2_pos; lia).
    assert (Hex : ex < 0).
    { assert (2 ^ (ex - -1074) < 2 ^ 1074) by nia.
      apply pow2_lt_inv in H; lia. }
    assert (Hmx : Z.pos mx < 2 ^ (- ex)).
    { replace (2 ^ 1074) with (2 ^ (- ex) * 2 ^ (ex - -1074)) in Hlt
        by (rewrite <- Z.pow_add_r by lia; f_equal; lia).
      apply Z.mul_lt_mono_pos_r in Hlt; lia. }
    cbn [SFsqrt]. unfold SFsqrt_core_binary. cbn [Zdigits2].
    set (d := Z.pos (digits2_pos mx)).
    set (e' := Z.min (SpecFloat.fexp prec emax (Z.div2 (d + ex + 1)))
                     (Z.div2 ex)).
    set (sh := ex - 2 * e').
    assert (Hdiv2 : 2 * Z.div2 ex <= ex /\ Z.div2 ex < 0).
    { rewrite Z.div2_div.
      pose proof (Z.div_mod ex 2 ltac:(lia)).
      pose proof (Z.mod_pos_bound ex 2 ltac:(lia)). lia. }
    assert (Hsh : 0 <= sh) by (unfold sh, e'; lia).
    assert (He' : e' <= 0) by (unfold e'; lia).
    set (m' := match sh with
               | 0 => Z.pos mx
               | Z.pos _ => Z.shiftl (Z.pos mx) sh
               | Z.neg _ => 0
               end).
    assert (Hm' : m' = Z.pos mx * 2 ^ sh).
    { unfold m'. destruct sh as [|p|p] eqn:Hp; [ | | lia].
      - rewrite Z.pow_0_r. lia.
      - apply Z.shiftl_mul_pow2. lia. }
    destruct (Z.sqrtrem m') as [q rem] eqn:Hsq.
    assert (Hq : q = Z.sqrt m').
    { rewrite <- Z.sqrtrem_sqrt, Hsq. reflexivity. }
    assert (H2s : 0 < 2 ^ sh) by (apply pow2_pos; lia).
    assert (Hm0 : 0 <= m') by nia.
    pose proof (Z.sqrt_spec m' Hm0) as Hspec. rewrite <- Hq in Hspec.
    cbv zeta in Hspec.
    assert (Hq0 : 0 <= q) by (rewrite Hq; apply Z.sqrt_nonneg).
    assert (Hmlt : m' < 2 ^ (- e') * 2 ^ (- e')).
    { rewrite <- Z.pow_add_r by lia.
      replace (- e' + - e') with (- ex + sh) by (unfold sh; lia).
      rewrite Z.pow_add_r, Hm' by lia.
      apply Z.mul_lt_mono_pos_r; lia. }
    assert (Hqlt : q < 2 ^ (- e')).
    { destruct (Z_lt_le_dec q (2 ^ (- e'))) as [|Hge]; [assumption|].
      exfalso. pose proof (pow2_pos (- e') ltac:(lia)). nia. }
    destruct (binary_round_aux_below_one prec emax prec_gt_1 prec_lt_emax
                false q e'
                (if rem =? 0 then loc_Exact
                 else loc_Inexact (if rem <=? q then Lt else Gt))
                He' (conj Hq0 Hqlt)) as [Hform Hval].
    rewrite emin64 in Hval. change (- -1074) with 1074 in Hval.
    split; [|exact Hval].
    destruct Hform as [-> | (m0 & e0 & ->)]; reflexivity.
Qed.

Lemma plus_finite_leb_zero (w : float) :
  plus_finite (Prim2SF w) = true -> (0 <=? w)%float = true.
Proof.
  intros Hp. rewrite leb_spec. change (Prim2SF 0) with (S754_zero false).
  destruct (Prim2SF w) as [[]|[]| |[] m e]; try discriminate Hp; reflexivity.
Qed.

Lemma le_one_leb (w : float) :
  plus_finite (Prim2SF w) = true ->
  uval prec emax (Prim2SF w) <= 2 ^ 1074 ->
  (w <=? 1)%float = true.
Proof.
  intros Hp Hu. rewrite leb_spec.
  pose proof (Prim2SF_valid w) as Vw.
  pose proof (Prim2SF_valid 1) as Vone.
  assert (Hone : uval prec emax (Prim2SF 1) = 2 ^ 1074)
    by (vm_compute; reflexivity).
  rewrite Prim2SF_one in *.
  destruct (Prim2SF w) as [[]|[]| |[] m e]; try discriminate Hp;
    [reflexivity|].
  apply (SFleb_of_uval prec emax prec_gt_1 prec_lt_emax);
    [exact Vw | exact Vone | rewrite Hone; exact Hu].
Qed.

(** The root mean square of at most [n] samples, divided by [n], lies
    between 0 and 1. *)
Lemma rms_in_unit (samples : list Z) (n : Z) :
  Forall is_int16 samples -> len samples <= n -> 1 <= n <= 2 ^ 63 ->
  plus_finite (Prim2SF (rms samples n)) = true
  /\ uval prec emax (Prim2SF (rms samples n)) <= 2 ^ 1074.
Proof.
  intros Hall Hlen Hn. unfold rms.
  destruct (sum_le_fold samples Hall 0 0%float ltac:(lia) eq_refl
              ltac:(vm_compute; discriminate)) as [Hp Hb].
  cbv zeta in Hp, Hb.
  set (total := fold_left (fun s x => (s + sample_square x)%float) samples
                  0%float) in *.
  destruct (of_int_count_value n Hn) as (m & e & Hy & Hyv).
  pose proof (of_int_count_ge n Hn) as Hylo. rewrite <- Hyv in Hylo.
  assert (Hxy : uval prec emax (Prim2SF total)
                <= uval prec emax (S754_finite false m e)).
  { assert (HU : 0 < one_u) by (vm_compute; reflexivity).
    change (2 ^ 1074) with one_u in Hylo.
    assert (Z.min (0 + len samples) (2 ^ 53) * one_u
            <= Z.min n (2 ^ 53) * one_u) by nia.
    lia. }
  assert (Hdiv : plus_finite (Prim2SF (total / GoFloat.of_int n)) = true
                 /\ uval prec emax (Prim2SF (total / GoFloat.of_int n))
                    <= 2 ^ 1074).
  { rewrite div_spec, Hy.
    pose proof (Prim2SF_valid total) as Vt.
    pose proof (Prim2SF_valid (GoFloat.of_int n)) as Vy. rewrite Hy in Vy.
    destruct (Prim2SF total) as [[]|[]| |[] mt et]; try discriminate Hp.
    - cbn. split; [reflexivity | discriminate].
    - pose proof (SFdiv_le_one prec emax prec_gt_1 prec_lt_emax
                    mt m et e Vt Vy Hxy) as Hd.
      rewrite emin64 in Hd. exact Hd. }
  destruct Hdiv as [Hdp Hdu].
  rewrite sqrt_spec.
  pose proof (Prim2SF_valid (total / GoFloat.of_int n)) as Vd.
  destruct (Prim2SF (total / GoFloat.of_int n)) as [[]|[]| |[] md ed];
    try discriminate Hdp.
  - cbn. split; [reflexivity | discriminate].
  - exact (SFsqrt_le_one md ed Vd Hdu).
Qed.

(** X29: every value that the reducer writes lies between 0 and 1.  On
    16-bit samples, with at least one sample per column, the profile it
    returns holds only numbers [w] with [0 <= w] and [w <= 1] in the
    comparison of the language: no root mean square is negative, above
    full scale, infinite or not a number, however the sums are rounded. *)
Theorem profile_values_in_unit_interval (buffer : list Z)
    (waveform : list float) :
  Forall is_int16 buffer ->
  0 < len waveform <= len buffer -> len buffer <= GoInt.max_int ->
  exists raw,
    convertToWaveform buffer waveform = Some raw
    /\ Forall (fun w => (0 <=? w)%float = true /\ (w <=? 1)%float = true)
         raw.
Proof.
  intros Hall Hlen Hmax.
  rewrite (convertToWaveform_closed buffer waveform Hlen).
  set (spc := Z.quot (len buffer) (len waveform)).
  assert (Hspc : 1 <= spc <= 2 ^ 63).
  { unfold spc. rewrite Z.quot_div_nonneg by lia. split.
    - assert (0 < len buffer / len waveform)
        by (apply Z.div_str_pos; lia). lia.
    - assert (len buffer / len waveform <= len buffer)
        by (apply Z.div_le_upper_bound; nia).
      unfold GoInt.max_int in Hmax. lia. }
  eexists. split; [reflexivity|].
  apply Forall_map, List.Forall_forall. intros col _. cbv beta.
  destruct (rms_in_unit (slice buffer (col * spc) spc) spc) as [Hp Hu];
    [ | | exact Hspc | ].
  - unfold slice. apply Forall_take, Forall_drop. exact Hall.
  - unfold slice, len. rewrite length_take. lia.
  - split; [apply plus_finite_leb_zero | apply le_one_leb]; assumption.
Qed.

Lemma profile_values_in_unit_interval_witness :
  exists raw,
    convertToWaveform [-32768; -32768; 32767; 12345] [0; 0]%float = Some raw
    /\ Forall (fun w => (0 <=? w)%float = true /\ (w <=? 1)%float = true)
         raw.
Proof.
  apply (profile_values_in_unit_interval
           [-32768; -32768; 32767; 12345] [0; 0]%float).
  - unfold is_int16. repeat constructor; lia.
  - vm_compute. split; [reflexivity | discriminate].
  - vm_compute. discriminate.
Defined.

(** ** Bar height: the cap is reached *)

Lemma SFmul_comm (prec emax : Z) (a b : spec_float) :
  SFmul prec emax a b = SFmul prec emax b a.
Proof.
  destruct a as [sa|sa| |sa ma ea], b as [sb|sb| |sb mb eb];
    cbn [SFmul]; rewrite ?(xorb_comm sb sa); try reflexivity.
  rewrite (Pos.mul_comm mb ma), (Z.add_comm eb ea). reflexivity.
Qed.

(** [float64(z)] is exact for a small non-negative [z]. *)
Lemma of_int_exact (z : Z) :
  1 <= z <= 2 ^ 53 ->
  exists m e,
    Prim2SF (GoFloat.of_int z) = S754_finite false m e
    /\ uval prec emax (S754_finite false m e) = z * 2 ^ 1074.
Proof.
  intros Hz.
  destruct (of_int_count_value z ltac:(lia)) as (m & e & Hf & Hu).
  exists m, e. split; [exact Hf|]. rewrite Hu. apply RU_int. exact Hz.
Qed.

(** X30: the bar is capped exactly where the amplified value reaches one.
    For a frame of height 4 or more, a profile value [x] with
    [1 <= x * Amplify] draws a bar of the full height, one less than the
    midline row, whenever the scaled value fits the integer type. *)
Theorem bar_height_reaches_cap (unrep : float -> Z) (cfg : Config)
    (x : float) :
  let midline := Z.quot (Height cfg) 2 in
  4 <= Height cfg <= 2 ^ 54 ->
  (1 <=? x * Amplify cfg)%float = true ->
  representable (scaled cfg midline x) ->
  bar_height unrep cfg midline x = midline - 1.
Proof.
  intros midline HH H1 (t & Htr & Ht).
  assert (Hmid : 1 <= midline - 1 <= 2 ^ 53).
  { unfold midline. rewrite Z.quot_div_nonneg by lia.
    assert (2 <= Height cfg / 2) by (apply Z.div_le_lower_bound; lia).
    assert (Height cfg / 2 <= 2 ^ 53)
      by (apply Z.div_le_upper_bound; lia).
    lia. }
  destruct (of_int_exact (midline - 1) Hmid) as (mf & ef & Hf & Hfu).
  rewrite leb_spec in H1.
  pose proof (Prim2SF_valid 1) as Vone.
  pose proof (Prim2SF_valid (x * Amplify cfg)) as Vp.
  pose proof (Prim2SF_valid (GoFloat.of_int (midline - 1))) as Vf.
  assert (H0one : SFleb (S754_zero false) (Prim2SF 1) = true) by reflexivity.
  destruct (SFleb_nonneg prec emax prec_gt_1 prec_lt_emax _ _ Vone Vp
              H0one H1) as (_ & Np & Hord).
  assert (Nf : nonneg (Prim2SF (GoFloat.of_int (midline - 1))) = true)
    by (rewrite Hf; reflexivity).
  assert (Nfe : nonneg_ext (Prim2SF (GoFloat.of_int (midline - 1))) = true)
    by (rewrite Hf; reflexivity).
  assert (Hs : Prim2SF (scaled cfg midline x)
               = SFmul prec emax (Prim2SF (x * Amplify cfg))
                   (Prim2SF (GoFloat.of_int (midline - 1))))
    by (unfold scaled; apply mul_spec).
  assert (Ns : nonneg (Prim2SF (scaled cfg midline x)) = true).
  { unfold GoFloat.trunc in Htr. rewrite Hs in Htr |- *.
    destruct (SFmul_nonneg_ext _ _ Vp Vf Np Nfe) as [Hnan|N2].
    { unfold SF64mul in Hnan. rewrite Hnan in Htr. discriminate Htr. }
    unfold SF64mul in N2.
    destruct (SFmul prec emax (Prim2SF (x * Amplify cfg))
                (Prim2SF (GoFloat.of_int (midline - 1))))
      as [s|s| |s m e]; try discriminate Htr; try exact N2; reflexivity. }
  pose proof Ns as Ns'. rewrite Hs in Ns'.
  destruct (SFmul_nonneg_inv prec emax prec_gt_1 prec_lt_emax _ _ Np Nfe Ns')
    as [Npf _].
  destruct (Hord Npf) as [None Hle].
  destruct (SFmul_nonneg_mono prec emax prec_gt_1 prec_lt_emax
              _ _ _ Vone Vp Vf None Npf Nf Hle Ns') as (_ & _ & Hmono).
  assert (Hone : SFmul prec emax (Prim2SF 1)
                   (Prim2SF (GoFloat.of_int (midline - 1)))
                 = Prim2SF (GoFloat.of_int (midline - 1))).
  { rewrite SFmul_comm, Hf, Prim2SF_one.
    apply (SFmul_one prec emax prec_gt_1 prec_lt_emax);
      [reflexivity | rewrite <- Hf; exact Vf]. }
  rewrite Hone, <- Hs in Hmono. rewrite Hf, Hfu in Hmono.
  pose proof (trunc_nonneg _ Ns) as Htn. rewrite Htr in Htn.
  injection Htn as Htv.
  assert (Hp : 0 < 2 ^ 1074) by (apply pow2_pos; lia).
  assert (Hge : midline - 1 <= t).
  { rewrite Htv. apply Z.div_le_lower_bound; lia. }
  rewrite bar_height_scaled, (to_int_representable unrep _ _ Htr Ht).
  apply Z.min_r. exact Hge.
Qed.

Lemma bar_height_reaches_cap_witness :
  bar_height (fun _ => 0) DefaultConfig 6 0.4%float = 5.
Proof.
  apply (bar_height_reaches_cap (fun _ => 0) DefaultConfig 0.4%float).
  - vm_compute. split; discriminate.
  - reflexivity.
  - exists 5. split; [vm_compute; reflexivity|].
    vm_compute. split; discriminate.
Defined.
